(** * Single-resource scheduler: a shallow embedding and its properties

    Source: [he_scheduling/services/single_resource_scheduler.pyx].

    The Cython module keeps tasks in an intrusive doubly-linked list owned
    by a resource.  Tasks and resources are Python objects that point at
    each other, so the embedding keeps an explicit object store: every
    object has an address, and a link is an optional address.  Methods
    become computations over the store; the statements of a method are
    threaded through the store one after the other, which keeps the
    aliasing of the source.  A computation returns normally, raises an
    exception, or runs out of recursion budget; what was written before an
    exception stays written.

    Conventions.
    - [cdef int] fields and locals hold C [int]s and are modelled as [Z]
      within the [int] range.  The properties return Python integers, and
      arithmetic on them is unbounded; storing such a value in a [cdef int]
      converts it and raises [OverflowError] outside the range ([as_int]).
      Arithmetic between [cdef int] locals is C arithmetic and wraps
      ([wrap_int]).
    - Zero-argument [super()] inside a [cpdef] method of the compiled
      module raises [RuntimeError] ([super_call]): the four link methods
      that [SchedulingTask] overrides stop at that call.  [__init__] is a
      [def] method and is not affected.
    - [Task.resource] is declared with the empty base class [TaskResource],
      and [Resource] keeps [head] and [tail] as private C fields: the
      statements [self.resource.head = ...] and [self.resource.tail = ...]
      of [Task] are attribute stores on a Python object and raise
      [AttributeError] ([set_head_of], [set_tail_of]).  [Resource] itself
      writes its own fields.
    - [task_id] and [resource_id] are only used by [__str__]; they and the
      [print] call in [calculate] are left out.
    - Recursion along links ([invalidate], [calculate]) and the [while]
      loops walk the store, so they take a recursion budget; running out of
      it is a separate outcome, and the theorems show that a budget above the
      length of the chain is enough. *)

From Stdlib Require Import ZArith List Bool Arith Lia Permutation.
Import ListNotations.

Local Open Scope Z_scope.

(** ** Objects *)

Definition tid := nat.   (* identity of a Task object *)
Definition rid := nat.   (* identity of a Resource object *)

(** [cdef class SchedulingTask(Task)]: the three link fields of [Task]
    followed by the scheduling fields. *)
Record SchedulingTask := mkTask {
  next : option tid;
  previous : option tid;
  resource : option rid;
  _duration : Z;
  _target : Z;
  _min_margin_before : Z;
  _dirty : bool;
  _earliest_start : Z;
  _start : Z
}.

(** [cdef class SchedulingResource(Resource)]. *)
Record SchedulingResource := mkResource {
  head : option tid;
  tail : option tid
}.

Record Store := mkStore {
  tasks : tid -> SchedulingTask;
  resources : rid -> SchedulingResource
}.

Definition with_next (v : option tid) (t : SchedulingTask) : SchedulingTask :=
  mkTask v (previous t) (resource t) (_duration t) (_target t)
         (_min_margin_before t) (_dirty t) (_earliest_start t) (_start t).
Definition with_previous (v : option tid) (t : SchedulingTask) : SchedulingTask :=
  mkTask (next t) v (resource t) (_duration t) (_target t)
         (_min_margin_before t) (_dirty t) (_earliest_start t) (_start t).
Definition with_resource (v : option rid) (t : SchedulingTask) : SchedulingTask :=
  mkTask (next t) (previous t) v (_duration t) (_target t)
         (_min_margin_before t) (_dirty t) (_earliest_start t) (_start t).
Definition with_dirty (v : bool) (t : SchedulingTask) : SchedulingTask :=
  mkTask (next t) (previous t) (resource t) (_duration t) (_target t)
         (_min_margin_before t) v (_earliest_start t) (_start t).
Definition with_earliest_start (v : Z) (t : SchedulingTask) : SchedulingTask :=
  mkTask (next t) (previous t) (resource t) (_duration t) (_target t)
         (_min_margin_before t) (_dirty t) v (_start t).
Definition with_start (v : Z) (t : SchedulingTask) : SchedulingTask :=
  mkTask (next t) (previous t) (resource t) (_duration t) (_target t)
         (_min_margin_before t) (_dirty t) (_earliest_start t) v.

Definition with_head (v : option tid) (r : SchedulingResource) : SchedulingResource :=
  mkResource v (tail r).
Definition with_tail (v : option tid) (r : SchedulingResource) : SchedulingResource :=
  mkResource (head r) v.

Definition upd_task (t : tid) (f : SchedulingTask -> SchedulingTask) (s : Store) : Store :=
  mkStore (fun x => if Nat.eqb x t then f (tasks s x) else tasks s x) (resources s).
Definition upd_resource (r : rid) (f : SchedulingResource -> SchedulingResource)
           (s : Store) : Store :=
  mkStore (tasks s) (fun x => if Nat.eqb x r then f (resources s x) else resources s x).

(** Field assignments [obj.field = v]. *)
Definition set_next (t : tid) (v : option tid) := upd_task t (with_next v).
Definition set_previous (t : tid) (v : option tid) := upd_task t (with_previous v).
Definition set_resource (t : tid) (v : option rid) := upd_task t (with_resource v).
Definition set_dirty (t : tid) (v : bool) := upd_task t (with_dirty v).
Definition set_earliest_start (t : tid) (v : Z) := upd_task t (with_earliest_start v).
Definition set__start (t : tid) (v : Z) := upd_task t (with_start v).
Definition set_head (r : rid) (v : option tid) := upd_resource r (with_head v).
Definition set_tail (r : rid) (v : option tid) := upd_resource r (with_tail v).

(** ** [Resource] *)

Definition add_tail (self : rid) (task : tid) (s : Store) : Store :=
  let s := set_resource task (Some self) s in
  let s := set_next task None s in
  let s := match tail (resources s self) with
           | Some tl => let s := set_previous task (Some tl) s in
                        set_next tl (Some task) s
           | None => set_previous task None s
           end in
  let s := set_tail self (Some task) s in
  match head (resources s self) with
  | Some _ => s
  | None => set_head self (Some task) s
  end.

Definition add_head (self : rid) (task : tid) (s : Store) : Store :=
  let s := set_resource task (Some self) s in
  let s := set_previous task None s in
  let s := match head (resources s self) with
           | Some hd => let s := set_next task (Some hd) s in
                        set_previous hd (Some task) s
           | None => set_next task None s
           end in
  let s := set_head self (Some task) s in
  match tail (resources s self) with
  | Some _ => s
  | None => set_tail self (Some task) s
  end.

(** ** Computations over the store *)

(** The exceptions that the module raises. *)
Inductive exn : Type :=
| RuntimeError      (* zero-argument super() in a cpdef method *)
| AttributeError    (* attribute store or read that the object does not allow *)
| OverflowError.    (* Python integer that does not fit a C int *)

Inductive outcome (A : Type) : Type :=
| Done (a : A) (s : Store)       (* normal return *)
| Raised (e : exn) (s : Store)   (* an exception propagates; [s] is the store it leaves *)
| OutOfFuel.                     (* recursion budget exhausted *)
Arguments Done {A} a s.
Arguments Raised {A} e s.
Arguments OutOfFuel {A}.

Definition M (A : Type) : Type := Store -> outcome A.

Definition ret {A} (a : A) : M A := fun s => Done a s.
Definition bind {A B} (m : M A) (k : A -> M B) : M B :=
  fun s => match m s with
           | Done a s' => k a s'
           | Raised e s' => Raised e s'
           | OutOfFuel => OutOfFuel
           end.
Definition raise {A} (e : exn) : M A := fun s => Raised e s.
Definition out_of_fuel {A} : M A := fun _ => OutOfFuel.
Definition lift (f : Store -> Store) : M unit := fun s => Done tt (f s).
Definition get {A} (f : SchedulingTask -> A) (t : tid) : M A :=
  fun s => Done (f (tasks s t)) s.
Definition get_resource {A} (f : SchedulingResource -> A) (r : rid) : M A :=
  fun s => Done (f (resources s r)) s.

Notation "x <- m ;; k" := (bind m (fun x => k))
  (at level 61, m at next level, right associativity).
Notation "m ;; k" := (bind m (fun _ => k))
  (at level 61, right associativity).

(** [try: m  except Exception as e: ...]: the exception becomes a value. *)
Definition catch {A} (m : M A) : M (A + exn) :=
  fun s => match m s with
           | Done a s' => Done (inl a) s'
           | Raised e s' => Done (inr e) s'
           | OutOfFuel => OutOfFuel
           end.

(** [Resource.iter_tasks], with the tasks it yields collected in a list. *)
Fixpoint iter_from (fuel : nat) (t : option tid) : M (list tid) :=
  match fuel with
  | O => out_of_fuel
  | S fuel =>
      match t with
      | Some t =>
          n <- get next t ;;
          rest <- iter_from fuel n ;;
          ret (t :: rest)
      | None => ret []
      end
  end.

Definition iter_tasks (fuel : nat) (self : rid) : M (list tid) :=
  h <- get_resource head self ;;
  iter_from fuel h.

(** The walk in the other direction: from [tail] along [previous]. *)
Fixpoint iter_back_from (fuel : nat) (t : option tid) : M (list tid) :=
  match fuel with
  | O => out_of_fuel
  | S fuel =>
      match t with
      | Some t =>
          p <- get previous t ;;
          rest <- iter_back_from fuel p ;;
          ret (t :: rest)
      | None => ret []
      end
  end.

Definition iter_tasks_back (fuel : nat) (self : rid) : M (list tid) :=
  t <- get_resource tail self ;;
  iter_back_from fuel t.

(** ** [Task]: the link methods of the base class *)

(** [self.resource.head = v] and [self.resource.tail = v], reached under the
    guard [elif self.resource:].  The store goes through the attribute
    protocol of the object, which has no writable attribute of that name. *)
Definition set_head_of (o : option rid) (v : option tid) : M unit :=
  match o with Some _ => raise AttributeError | None => ret tt end.
Definition set_tail_of (o : option rid) (v : option tid) : M unit :=
  match o with Some _ => raise AttributeError | None => ret tt end.

(** [Task.move_out]: exchange [self] with its successor. *)
Definition Task_move_out (self : tid) : M unit :=
  n <- get next self ;;
  match n with
  | Some nxt =>
      (* left side *)
      p <- get previous self ;;
      lift (set_previous nxt p) ;;
      p <- get previous self ;;
      match p with
      | Some pv => lift (set_next pv (Some nxt))
      | None => r <- get resource self ;; set_head_of r (Some nxt)
      end ;;
      lift (set_previous self (Some nxt)) ;;
      (* right side *)
      nn <- get next nxt ;;
      lift (set_next self nn) ;;
      nn <- get next nxt ;;
      match nn with
      | Some x => lift (set_previous x (Some self))
      | None => r <- get resource self ;; set_tail_of r (Some self)
      end ;;
      lift (set_next nxt (Some self))
  | None => ret tt
  end.

(** [Task.move_in]: exchange [self] with its predecessor. *)
Definition Task_move_in (self : tid) : M unit :=
  p <- get previous self ;;
  match p with
  | Some prev =>
      (* right side *)
      n <- get next self ;;
      lift (set_next prev n) ;;
      n <- get next self ;;
      match n with
      | Some x => lift (set_previous x (Some prev))
      | None => r <- get resource self ;; set_tail_of r (Some prev)
      end ;;
      lift (set_next self (Some prev)) ;;
      (* left side *)
      pp <- get previous prev ;;
      lift (set_previous self pp) ;;
      pp <- get previous prev ;;
      match pp with
      | Some x => lift (set_next x (Some self))
      | None => r <- get resource self ;; set_head_of r (Some self)
      end ;;
      lift (set_previous prev (Some self))
  | None => ret tt
  end.

(** [Task.drop]. *)
Definition Task_drop (self : tid) : M unit :=
  p <- get previous self ;;
  match p with
  | Some pv => n <- get next self ;; lift (set_next pv n)
  | None => n <- get next self ;; r <- get resource self ;; set_head_of r n
  end ;;
  n <- get next self ;;
  match n with
  | Some nx => p <- get previous self ;; lift (set_previous nx p)
  | None => p <- get previous self ;; r <- get resource self ;; set_tail_of r p
  end ;;
  lift (set_previous self None) ;;
  lift (set_next self None) ;;
  lift (set_resource self None).

(** [Task.insert].  [cpdef] methods are virtual: the call [task.drop()] runs
    the [drop] of the class of [task], passed here as [drop_method]. *)
Definition Task_insert_with (drop_method : tid -> M unit) (self task : tid)
  : M unit :=
  (* remove from existing resource *)
  drop_method task ;;
  r <- get resource self ;;
  lift (set_resource task r) ;;
  p <- get previous self ;;
  match p with
  | Some pv => lift (set_next pv (Some task))
  | None => r <- get resource self ;; set_head_of r (Some task)
  end ;;
  lift (set_next task (Some self)) ;;
  p <- get previous self ;;
  lift (set_previous task p) ;;
  lift (set_previous self (Some task)).

(** [Task.insert] among objects of class [Task]. *)
Definition Task_insert : tid -> tid -> M unit := Task_insert_with Task_drop.

(** ** [SchedulingTask] *)

Definition int_min : Z := - 2 ^ 31.
Definition int_max : Z := 2 ^ 31 - 1.
Definition fits_int (z : Z) : bool := (int_min <=? z) && (z <=? int_max).

(** [SchedulingTask.__init__].  The arguments are declared [int], so the
    call raises before the body runs when one of them does not fit; [None]
    stands for that exception.  The body stores the arguments as given. *)
Definition SchedulingTask_init (duration target min_margin_before : Z)
  : option SchedulingTask :=
  if fits_int duration && fits_int target && fits_int min_margin_before then
    Some {| next := None; previous := None; resource := None;
            _duration := duration;
            _target := target;
            _min_margin_before := min_margin_before;
            _dirty := true;
            _earliest_start := 0;
            _start := target |}
  else None.

(** Conversion of a Python integer to a C [int], as done by every store
    into a [cdef int] field or local. *)
Definition as_int (z : Z) : M Z :=
  fun s => if fits_int z then Done z s else Raised OverflowError s.

(** C arithmetic on [int]: the result is taken modulo [2^32]. *)
Definition wrap_int (z : Z) : Z := (z + 2 ^ 31) mod 2 ^ 32 - 2 ^ 31.

(** [super().method(...)] inside a [cpdef] method: evaluating [super()]
    raises, and the method [base] of the base class is not called. *)
Definition super_call {A} (base : M A) : M A := raise RuntimeError.

(** [SchedulingTask.invalidate]. *)
Fixpoint invalidate (fuel : nat) (self : tid) : M unit :=
  match fuel with
  | O => out_of_fuel
  | S fuel =>
      lift (set_dirty self true) ;;
      n <- get next self ;;
      match n with
      | Some next_task => invalidate fuel next_task
      | None => ret tt
      end
  end.

(** The properties [earliest_start] and [earliest_stop] call [calculate],
    which reads [earliest_stop] of the predecessor: the recursion is tied
    through the parameter [calc]. *)
Definition earliest_start_with (calc : tid -> M unit) (self : tid) : M Z :=
  d <- get _dirty self ;;
  (if d then calc self else ret tt) ;;
  get _earliest_start self.

Definition earliest_stop_with (calc : tid -> M unit) (self : tid) : M Z :=
  es <- earliest_start_with calc self ;;
  d <- get _duration self ;;
  ret (es + d).

(** [SchedulingTask.calculate]. *)
Fixpoint calculate (fuel : nat) (self : tid) : M unit :=
  match fuel with
  | O => out_of_fuel
  | S fuel =>
      p <- get previous self ;;
      match p with
      | Some prev_task =>
          stop <- earliest_stop_with (calculate fuel) prev_task ;;
          m <- get _min_margin_before self ;;
          v <- as_int (stop + m) ;;
          lift (set_earliest_start self v) ;;
          es <- get _earliest_start self ;;
          st <- get _start self ;;
          lift (set__start self (Z.max es st))
      | None =>
          lift (set_earliest_start self 0)
      end ;;
      lift (set_dirty self false)
  end.

Definition earliest_start (fuel : nat) : tid -> M Z :=
  earliest_start_with (calculate fuel).
Definition earliest_stop (fuel : nat) : tid -> M Z :=
  earliest_stop_with (calculate fuel).

(** The getter of the property [start]. *)
Definition start (fuel : nat) (self : tid) : M Z :=
  d <- get _dirty self ;;
  (if d then calculate fuel self else ret tt) ;;
  get _start self.

(** The setter of the property [start]. *)
Definition set_start (fuel : nat) (self : tid) (value : Z) : M unit :=
  es <- earliest_start fuel self ;;
  v <- as_int (Z.max es value) ;;
  lift (set__start self v).

(** The overriding link methods. *)
Definition move_out (fuel : nat) (self : tid) : M unit :=
  super_call (Task_move_out self) ;;
  invalidate fuel self.

Definition move_in (fuel : nat) (self : tid) : M unit :=
  super_call (Task_move_in self) ;;
  invalidate fuel self.

Definition drop (fuel : nat) (self : tid) : M unit :=
  invalidate fuel self ;;
  super_call (Task_drop self).

Definition insert (fuel : nat) (self task : tid) : M unit :=
  super_call (Task_insert_with (drop fuel) self task) ;;
  invalidate fuel task.

(** ** The sweeps *)

(** The [while t:] loop of [schedule_forward]; [k] is the budget of the
    property reads, [fuel] that of the loop. *)
Fixpoint schedule_forward_loop (k fuel : nat) (t : option tid) (score : Z) : M Z :=
  match fuel with
  | O => out_of_fuel
  | S fuel =>
      match t with
      | Some t =>
          p <- get previous t ;;
          match p with
          | Some prev =>
              ps <- start k prev ;;
              pd <- get _duration prev ;;
              m <- get _min_margin_before t ;;
              ts <- start k t ;;
              set_start k t (Z.max (ps + pd + m) ts)
          | None => ret tt
          end ;;
          ts <- start k t ;;
          tg <- get _target t ;;
          score <- as_int (score + Z.max 0 (ts - tg)) ;;
          n <- get next t ;;
          schedule_forward_loop k fuel n score
      | None => ret score
      end
  end.

Definition schedule_forward (fuel : nat) (t : tid) : M Z :=
  schedule_forward_loop fuel fuel (Some t) 0.

Fixpoint schedule_backward_loop (k fuel : nat) (t : option tid) : M unit :=
  match fuel with
  | O => out_of_fuel
  | S fuel =>
      match t with
      | Some t =>
          n <- get next t ;;
          match n with
          | Some next_task =>
              tg <- get _target t ;;
              ns <- start k next_task ;;
              nm <- get _min_margin_before next_task ;;
              d <- get _duration t ;;
              set_start k t (Z.min tg (ns - nm - d))
          | None =>
              tg <- get _target t ;;
              set_start k t tg
          end ;;
          p <- get previous t ;;
          schedule_backward_loop k fuel p
      | None => ret tt
      end
  end.

Definition schedule_backward (fuel : nat) (t : tid) : M unit :=
  schedule_backward_loop fuel fuel (Some t).

(** ** Local search *)

Definition improvement_move_in (fuel : nat) (task : tid) (execute : bool) : M Z :=
  p <- get previous task ;;
  match p with
  | None => ret 0
  | Some t1 =>
      let t2 := task in
      (* current t1 -> t2 *)
      t1_start <- start fuel t1 ;;
      t1_target <- get _target t1 ;;
      t1_cs <- as_int (Z.max 0 (t1_start - t1_target)) ;;
      t2_start <- start fuel t2 ;;
      t2_target <- get _target t2 ;;
      t2_cs <- as_int (Z.max 0 (t2_start - t2_target)) ;;
      (* alternative s2 -> s1 *)
      t1_es <- earliest_start fuel t1 ;;
      t2_mmb <- get _min_margin_before t2 ;;
      t2_dur <- get _duration t2 ;;
      t1_target <- get _target t1 ;;
      t1_as <- as_int (Z.max 0 (t1_es + t2_mmb + t2_dur - t1_target)) ;;
      t1_es <- earliest_start fuel t1 ;;
      t1_mmb <- get _min_margin_before t1 ;;
      t2_mmb <- get _min_margin_before t2 ;;
      t2_target <- get _target t2 ;;
      t2_as <- as_int (Z.max 0 (t1_es - t1_mmb + t2_mmb - t2_target)) ;;
      let improvement := wrap_int (t1_as + t2_as - t1_cs - t2_cs) in
      (if execute && (improvement <? 0) then
         move_in fuel task ;;
         n <- get next task ;;
         match n with
         | Some next_task =>
             nes <- earliest_start fuel next_task ;;
             nm <- get _min_margin_before next_task ;;
             tg <- get _target task ;;
             ts <- start fuel task ;;
             set_start fuel next_task (Z.max (nes - nm) (Z.min tg ts)) ;;
             tes <- earliest_start fuel task ;;
             ns <- start fuel next_task ;;
             nm <- get _min_margin_before next_task ;;
             d <- get _duration task ;;
             tg <- get _target task ;;
             set_start fuel task (Z.max tes (Z.min (ns - nm - d) tg))
         | None =>
             (* [next_task.start] on [None] *)
             tes <- earliest_start fuel task ;;
             raise AttributeError
         end
       else ret tt) ;;
      ret improvement
  end.

(** ** [SchedulingResource] *)

Definition schedule (fuel : nat) (self : rid) : M Z :=
  tl <- get_resource tail self ;;
  match tl with
  | Some tail_task => schedule_backward fuel tail_task
  | None => ret tt
  end ;;
  hd <- get_resource head self ;;
  match hd with
  | Some head_task => schedule_forward fuel head_task
  | None => ret 0  (* If there are no tasks, return zero score *)
  end.

(** The [while t:] loop of [improve]; [k] is the budget of the property
    reads, [fuel] that of the loop, which takes one unit per evaluation of
    the exchange. *)
Fixpoint improve_loop (k fuel : nat) (t : option tid) (improvement : Z) : M Z :=
  match fuel with
  | O => out_of_fuel
  | S fuel =>
      match t with
      | Some t =>
          step_improvement <- improvement_move_in k t true ;;
          if step_improvement <? 0 then
            improve_loop k fuel (Some t) (wrap_int (improvement + step_improvement))
          else
            p <- get previous t ;;
            improve_loop k fuel p improvement
      | None => ret improvement
      end
  end.

Definition improve (fuel : nat) (self : rid) : M Z :=
  tl <- get_resource tail self ;;
  match tl with
  | None => ret 0
  | Some t => improve_loop fuel fuel (Some t) 0
  end.

(** ** Observations used in the statements *)

(** Lateness of one task and of a list of tasks, on the stored fields. *)
Definition lateness (s : Store) (t : tid) : Z :=
  Z.max 0 (_start (tasks s t) - _target (tasks s t)).

Definition total_lateness (s : Store) (l : list tid) : Z :=
  fold_right (fun t acc => lateness s t + acc) 0 l.

(** The value returned by a run, and a look at the store in the middle of
    a run. *)
Definition value {A} (o : outcome A) : option A :=
  match o with
  | Done a _ => Some a
  | _ => None
  end.

Definition inspect {A} (f : Store -> A) : M A := fun s => Done (f s) s.

Definition all_clean (s : Store) (l : list tid) : Prop :=
  forall t, In t l -> _dirty (tasks s t) = false.

(** A detached task: what [Task.__init__] and [Task.drop] leave behind. *)
Definition detached (s : Store) (t : tid) : Prop :=
  next (tasks s t) = None /\ previous (tasks s t) = None /\
  resource (tasks s t) = None.

(** ** Concrete stores *)

Definition blank_task : SchedulingTask :=
  mkTask None None None 0 0 0 true 0 0.

(** No resource holds a task and every task is detached. *)
Definition empty_store : Store :=
  mkStore (fun _ => blank_task) (fun _ => mkResource None None).

(** [SchedulingTask(task_id, duration, target, min_margin_before)] stored at
    address [t]; the store is left alone when the constructor raises. *)
Definition new_task (t : tid) (duration target min_margin_before : Z)
           (s : Store) : Store :=
  match SchedulingTask_init duration target min_margin_before with
  | Some x => upd_task t (fun _ => x) s
  | None => s
  end.

(** Resource 0 with task 0 = A (duration 5, target 0) followed by task 1 = B
    (duration 1, target 0), zero margins. *)
Definition store_AB : Store :=
  add_tail 0%nat 1%nat
    (add_tail 0%nat 0%nat
       (new_task 1%nat 1 0 0 (new_task 0%nat 5 0 0 empty_store))).

(** As [store_AB], with target 3 for B. *)
Definition store_AB3 : Store :=
  add_tail 0%nat 1%nat
    (add_tail 0%nat 0%nat
       (new_task 1%nat 1 3 0 (new_task 0%nat 5 0 0 empty_store))).

(** As [store_AB], with margin 10 before A. *)
Definition store_AmB : Store :=
  add_tail 0%nat 1%nat
    (add_tail 0%nat 0%nat
       (new_task 1%nat 1 0 0 (new_task 0%nat 5 0 10 empty_store))).

(** One task with target -5, attached to nothing. *)
Definition store_neg : Store := new_task 0%nat 1 (-5) 0 empty_store.

(** The tasks of [store_AB] in the other order: task 0 (duration 1, target 0)
    followed by task 1 (duration 5, target 0). *)
Definition store_BA : Store :=
  add_tail 0%nat 1%nat
    (add_tail 0%nat 0%nat
       (new_task 1%nat 5 0 0 (new_task 0%nat 1 0 0 empty_store))).

(** Resource 0 with two objects of the base class [Task], 0 followed by 1.
    An object of class [Task] has the three link fields only; the other
    fields of its record are never looked at by the methods of [Task]. *)
Definition store_plain : Store :=
  add_tail 0%nat 1%nat (add_tail 0%nat 0%nat empty_store).


(** Resource 0 with four objects of the base class [Task]: 0, 1, 2, 3. *)
Definition store_plain4 : Store :=
  add_tail 0%nat 3%nat (add_tail 0%nat 2%nat store_plain).
(** ** Chains *)

(** First element of [l], or [n] when [l] is empty; last element of [l], or
    [p] when [l] is empty. *)
Definition hd_or (n : option tid) (l : list tid) : option tid :=
  match l with
  | [] => n
  | x :: _ => Some x
  end.

Fixpoint last_or (p : option tid) (l : list tid) : option tid :=
  match l with
  | [] => p
  | x :: l' => last_or (Some x) l'
  end.

(** [seg s o p l n]: in store [s] the tasks of [l] are linked one after the
    other, the first one has [previous = p], the last one has [next = n], and
    all of them carry the resource reference [o]. *)
Fixpoint seg (s : Store) (o : option rid) (p : option tid) (l : list tid)
         (n : option tid) : Prop :=
  match l with
  | [] => True
  | t :: l' =>
      previous (tasks s t) = p /\
      next (tasks s t) = hd_or n l' /\
      resource (tasks s t) = o /\
      seg s o (Some t) l' n
  end.

(** [chain s o l]: the tasks of [l], in this order, form one complete
    sequence; when it is owned by a resource, the resource's [head] and
    [tail] are its two ends.  [chain s (Some r) []] says that [r] is empty. *)
Definition chain (s : Store) (o : option rid) (l : list tid) : Prop :=
  NoDup l /\
  seg s o None l None /\
  match o with
  | Some r => head (resources s r) = hd_or None l /\
              tail (resources s r) = last_or None l
  | None => True
  end.

(** The link fields and the scheduling parameters of every object are the
    same in two stores. *)
Definition same_static (a b : SchedulingTask) : Prop :=
  next a = next b /\ previous a = previous b /\ resource a = resource b /\
  _duration a = _duration b /\ _target a = _target b /\
  _min_margin_before a = _min_margin_before b.

Definition static_eq (s s' : Store) : Prop :=
  (forall r, resources s' r = resources s r) /\
  (forall t, same_static (tasks s' t) (tasks s t)).

(** The starts left by the backward sweep: each task sits at the later of
    its earliest start and the latest start that its target and its
    successor allow. *)
Fixpoint backward_ok (s : Store) (l : list tid) : Prop :=
  match l with
  | [] => True
  | t :: l' =>
      _start (tasks s t) =
        Z.max (_earliest_start (tasks s t))
              (match l' with
               | [] => _target (tasks s t)
               | n :: _ => Z.min (_target (tasks s t))
                                 (_start (tasks s n)
                                  - _min_margin_before (tasks s n)
                                  - _duration (tasks s t))
               end) /\
      backward_ok s l'
  end.

(** The starts left by the forward sweep run on store [s0]: [p] is the
    predecessor of the first task of [l]. *)
Fixpoint forward_ok (s0 s : Store) (p : option tid) (l : list tid) : Prop :=
  match l with
  | [] => True
  | t :: l' =>
      _start (tasks s t) =
        match p with
        | None => _start (tasks s0 t)
        | Some q =>
            Z.max (_earliest_start (tasks s0 t))
                  (Z.max (_start (tasks s q) + _duration (tasks s0 q)
                          + _min_margin_before (tasks s0 t))
                         (_start (tasks s0 t)))
        end /\
      forward_ok s0 s (Some t) l'
  end.

(** What a read of [earliest_start] or [start] on the last task of the
    segment [A] does to the store: clean tasks are left alone. *)
Definition tidied (A : list tid) (s s' : Store) : Prop :=
  static_eq s s' /\
  (forall u, ~ In u A -> tasks s' u = tasks s u) /\
  (forall u, _dirty (tasks s u) = false -> tasks s' u = tasks s u).

(** What the assignment [t.start = v] does, [t] being the last task of the
    segment [A]. *)
Definition written (A : list tid) (t : tid) (v : Z) (s s' : Store) : Prop :=
  static_eq s s' /\
  (forall u, ~ In u A -> tasks s' u = tasks s u) /\
  (forall u, u <> t -> _dirty (tasks s u) = false -> tasks s' u = tasks s u) /\
  _dirty (tasks s' t) = false /\
  (_dirty (tasks s t) = false ->
   _earliest_start (tasks s' t) = _earliest_start (tasks s t)) /\
  _start (tasks s' t) = Z.max (_earliest_start (tasks s' t)) v.

(** The store after the body of the forward loop has run on [t], all tasks
    of the chain being clean. *)
Definition forward_store (s : Store) (p : option tid) (t : tid) : Store :=
  match p with
  | None => s
  | Some q =>
      set__start t
        (Z.max (_earliest_start (tasks s t))
               (Z.max (_start (tasks s q) + _duration (tasks s q)
                       + _min_margin_before (tasks s t))
                      (_start (tasks s t)))) s
  end.

(** Two task records differ at most in their links and their resource
    reference: the parameters and the caches agree. *)
Definition same_data (a b : SchedulingTask) : Prop :=
  _duration a = _duration b /\ _target a = _target b /\
  _min_margin_before a = _min_margin_before b /\
  _dirty a = _dirty b /\ _earliest_start a = _earliest_start b /\
  _start a = _start b.

(** ** The earliest starts that the reads store *)

(** A read of [earliest_start] or [start] recalculates a dirty task from the
    earliest stop [stop] of its predecessor and leaves a clean task alone:
    [refreshed] is the earliest start that the task has after the read. *)
Definition refreshed (s : Store) (stop : option Z) (t : tid) : Z :=
  if _dirty (tasks s t) then
    match stop with
    | None => 0
    | Some z => z + _min_margin_before (tasks s t)
    end
  else _earliest_start (tasks s t).

(** The refreshed earliest starts of the tasks of [l], in order, and the
    earliest stop behind them; [stop] is the earliest stop of the task in
    front of [l], if there is one. *)
Fixpoint plan (s : Store) (stop : option Z) (l : list tid) : list Z :=
  match l with
  | [] => []
  | t :: l' =>
      refreshed s stop t ::
      plan s (Some (refreshed s stop t + _duration (tasks s t))) l'
  end.

Fixpoint stop_after (s : Store) (stop : option Z) (l : list tid) : option Z :=
  match l with
  | [] => stop
  | t :: l' =>
      stop_after s (Some (refreshed s stop t + _duration (tasks s t))) l'
  end.

(** The range conditions: every refreshed earliest start of the chain is a
    C [int], and so is every target. *)
Definition es_fit (s : Store) (l : list tid) : Prop :=
  Forall (fun e => fits_int e = true) (plan s None l).

Definition targets_fit (s : Store) (l : list tid) : Prop :=
  forall t, In t l -> fits_int (_target (tasks s t)) = true.

(** ** Runs *)

(** [ends m s Q E]: from store [s] the computation [m] comes to an end
    within its budget; it returns with a value and a store that satisfy
    [Q], or raises an exception and leaves a store that satisfy [E]. *)
Definition ends {A} (m : M A) (s : Store) (Q : A -> Store -> Prop)
           (E : exn -> Store -> Prop) : Prop :=
  match m s with
  | Done a s' => Q a s'
  | Raised e s' => E e s'
  | OutOfFuel => False
  end.

(** What a read of [earliest_start] or [start] on [t] leaves when it
    returns, [pre] being the tasks in front of [t] and [post] those behind
    it: [t] is clean, its earliest start is the refreshed one, the plan of
    the chain is the same, and no start has gone down. *)
Definition read_post (pre : list tid) (t : tid) (post : list tid)
           (s s' : Store) : Prop :=
  tidied (pre ++ [t]) s s' /\
  _dirty (tasks s' t) = false /\
  _earliest_start (tasks s' t) = refreshed s (stop_after s None pre) t /\
  plan s' None (pre ++ t :: post) = plan s None (pre ++ t :: post) /\
  (forall u, _start (tasks s u) <= _start (tasks s' u)).

(** What the read leaves when it raises: the exception is [OverflowError],
    and some refreshed earliest start up to [t] is not a C [int]. *)
Definition read_fail (pre : list tid) (t : tid) (s : Store) (e : exn)
           (s' : Store) : Prop :=
  e = OverflowError /\
  tidied (pre ++ [t]) s s' /\
  ~ es_fit s (pre ++ [t]).

(** The same for the assignment [t.start = v]: when it returns, the stored
    start is a C [int]; it raises only if a refreshed earliest start or the
    value [v] is too large. *)
Definition write_post (pre : list tid) (t : tid) (post : list tid) (v : Z)
           (s s' : Store) : Prop :=
  written (pre ++ [t]) t v s s' /\
  _earliest_start (tasks s' t) = refreshed s (stop_after s None pre) t /\
  plan s' None (pre ++ t :: post) = plan s None (pre ++ t :: post) /\
  fits_int (_start (tasks s' t)) = true.

Definition write_fail (pre : list tid) (t : tid) (v : Z) (s : Store)
           (e : exn) (s' : Store) : Prop :=
  e = OverflowError /\
  tidied (pre ++ [t]) s s' /\
  ~ (es_fit s (pre ++ [t]) /\ v <= int_max).

(** The tasks of [l] carry what the backward sweep leaves: they are clean,
    their starts follow [backward_ok] and are C [int]s. *)
Definition swept (s : Store) (l : list tid) : Prop :=
  all_clean s l /\
  backward_ok s l /\
  (forall u, In u l -> fits_int (_start (tasks s u)) = true).

(** What the backward sweep over the chain [l] leaves when it returns and
    when it raises; [A] holds the tasks that it has visited. *)
Definition backward_post (A l : list tid) (s s' : Store) : Prop :=
  static_eq s s' /\
  (forall u, ~ In u A -> tasks s' u = tasks s u) /\
  (forall u, _dirty (tasks s u) = false ->
             _earliest_start (tasks s' u) = _earliest_start (tasks s u)) /\
  swept s' l /\
  plan s' None l = plan s None l.

Definition backward_fail (A l : list tid) (s : Store) (e : exn)
           (s' : Store) : Prop :=
  e = OverflowError /\
  static_eq s s' /\
  (forall u, ~ In u A -> tasks s' u = tasks s u) /\
  ~ (es_fit s l /\ targets_fit s l).

(** The conversion that the body of the forward loop makes on [t] when its
    predecessor is [p]: the start that it assigns must be a C [int]. *)
Definition forward_fits (s : Store) (p : option tid) (t : tid) : bool :=
  match p with
  | None => true
  | Some _ => fits_int (_start (tasks (forward_store s p t) t))
  end.

(** What the forward sweep over [l], entered with [score] on an all-clean
    chain, leaves when it returns [v] and when it raises; [p] is the
    predecessor of the first task of [l]. *)
Definition forward_post (p : option tid) (l : list tid) (score : Z)
           (s : Store) (v : Z) (s' : Store) : Prop :=
  static_eq s s' /\
  (forall u, ~ In u l -> tasks s' u = tasks s u) /\
  (forall u, _dirty (tasks s' u) = _dirty (tasks s u) /\
             _earliest_start (tasks s' u) = _earliest_start (tasks s u)) /\
  forward_ok s s' p l /\
  v = score + total_lateness s' l /\
  fits_int v = true /\
  (forall u, In u l -> fits_int (_start (tasks s u)) = true ->
             fits_int (_start (tasks s' u)) = true).

Definition forward_fail (l : list tid) (s : Store) (e : exn)
           (s' : Store) : Prop :=
  e = OverflowError /\
  static_eq s s' /\
  (forall u, ~ In u l -> tasks s' u = tasks s u) /\
  (forall u, _dirty (tasks s' u) = _dirty (tasks s u) /\
             _earliest_start (tasks s' u) = _earliest_start (tasks s u)).

(** What [schedule()] leaves on the chain [l] when it returns [score]: the
    backward sweep has led from [s] to a store [sb], and the forward sweep
    from [sb] to [s']. *)
Definition schedule_post (l : list tid) (s : Store) (score : Z)
           (s' : Store) : Prop :=
  exists sb, backward_post l l s sb /\ forward_post None l 0 sb score s'.

Definition schedule_fail (l : list tid) (s : Store) (e : exn)
           (s' : Store) : Prop :=
  e = OverflowError /\
  static_eq s s' /\
  (forall u, ~ In u l -> tasks s' u = tasks s u).

(** ** The exchange *)

(** The gain that [improvement_move_in] computes for the exchange of [t1]
    with its successor [t2], from the stored fields of two clean tasks: the
    four terms are Python integers, their combination is C arithmetic. *)
Definition exchange_gain (s : Store) (t1 t2 : tid) : Z :=
  let t1_cs := Z.max 0 (_start (tasks s t1) - _target (tasks s t1)) in
  let t2_cs := Z.max 0 (_start (tasks s t2) - _target (tasks s t2)) in
  let t1_as := Z.max 0 (_earliest_start (tasks s t1)
                        + _min_margin_before (tasks s t2)
                        + _duration (tasks s t2) - _target (tasks s t1)) in
  let t2_as := Z.max 0 (_earliest_start (tasks s t1)
                        - _min_margin_before (tasks s t1)
                        + _min_margin_before (tasks s t2)
                        - _target (tasks s t2)) in
  wrap_int (t1_as + t2_as - t1_cs - t2_cs).

(** The outcome of a call of [improvement_move_in] with [execute=True], from
    the outcome of the dry run: with a negative gain the call goes on to
    [task.move_in()], which raises. *)
Definition executed (o : outcome Z) : outcome Z :=
  match o with
  | Done g s' => if g <? 0 then Raised RuntimeError s' else Done g s'
  | Raised e s' => Raised e s'
  | OutOfFuel => OutOfFuel
  end.

(** [t1] stands immediately in front of [t2] in [l]. *)
Definition adjacent (l : list tid) (t1 t2 : tid) : Prop :=
  exists pre post, l = pre ++ t1 :: t2 :: post.

(** What an evaluation of the exchange of [t1] and [t2] leaves, [pre] being
    the tasks in front of [t1]: when it returns the gain [g], and when it
    raises. *)
Definition gain_post (pre : list tid) (t1 t2 : tid) (s : Store) (g : Z)
           (s' : Store) : Prop :=
  tidied (pre ++ [t1; t2]) s s' /\
  _dirty (tasks s' t1) = false /\
  _dirty (tasks s' t2) = false /\
  g = exchange_gain s' t1 t2.

Definition gain_fail (pre : list tid) (t1 t2 : tid) (s : Store) (e : exn)
           (s' : Store) : Prop :=
  tidied (pre ++ [t1; t2]) s s' /\
  (e = OverflowError \/
   e = RuntimeError /\
   _dirty (tasks s' t1) = false /\ _dirty (tasks s' t2) = false /\
   exchange_gain s' t1 t2 < 0).

(** What [improve()] leaves on the chain [l]: when it returns, no exchange
    of neighbours has a negative gain, nothing has been exchanged and the
    value is 0; it raises [RuntimeError] at the first exchange with a
    negative gain, or [OverflowError] from a conversion. *)
Definition improve_post (l : list tid) (s : Store) (v : Z)
           (s' : Store) : Prop :=
  v = 0 /\
  tidied l s s' /\
  (forall t1 t2, adjacent l t1 t2 -> 0 <= exchange_gain s' t1 t2).

Definition improve_fail (l : list tid) (s : Store) (e : exn)
           (s' : Store) : Prop :=
  tidied l s s' /\
  (e = OverflowError \/
   e = RuntimeError /\
   exists t1 t2, adjacent l t1 t2 /\ exchange_gain s' t1 t2 < 0).

(** ** Valid caches and feasible starts *)

(** The cached earliest starts of the tasks of [l] are the ones [calculate]
    computes: 0 for a task without predecessor, otherwise the predecessor's
    earliest stop plus the margin; [p] is the predecessor of the first task
    of [l]. *)
Fixpoint earliest_ok (s : Store) (p : option tid) (l : list tid) : Prop :=
  match l with
  | [] => True
  | t :: l' =>
      _earliest_start (tasks s t) =
        match p with
        | None => 0
        | Some q => _earliest_start (tasks s q) + _duration (tasks s q)
                    + _min_margin_before (tasks s t)
        end /\
      earliest_ok s (Some t) l'
  end.

(** The state of the caches that [invalidate] and the property reads keep:
    a clean front part whose cached earliest starts are valid, followed by
    dirty tasks only. *)
Definition coherent (s : Store) (l : list tid) : Prop :=
  exists c d,
    l = c ++ d /\
    all_clean s c /\
    earliest_ok s None c /\
    (forall u, In u d -> _dirty (tasks s u) = true).

(** No task of [l] starts before its predecessor has finished and the margin
    has passed. *)
Fixpoint feasible (s : Store) (p : option tid) (l : list tid) : Prop :=
  match l with
  | [] => True
  | t :: l' =>
      match p with
      | None => True
      | Some q => _start (tasks s q) + _duration (tasks s q)
                  + _min_margin_before (tasks s t) <= _start (tasks s t)
      end /\
      feasible s (Some t) l'
  end.

(** The earliest start of [t] when the tasks of [pre] run before it, from
    the durations and margins alone; [stop] is the earliest stop of the task
    in front of [pre], if there is one. *)
Definition earliest_from (s : Store) (stop : option Z) (t : tid) : Z :=
  match stop with
  | None => 0
  | Some z => z + _min_margin_before (tasks s t)
  end.

Fixpoint expected_earliest (s : Store) (stop : option Z) (pre : list tid)
         (t : tid) : Z :=
  match pre with
  | [] => earliest_from s stop t
  | x :: pre' =>
      expected_earliest s
        (Some (earliest_from s stop x + _duration (tasks s x))) pre' t
  end.

(** ** Start times for a fixed order *)

(** [x] gives every task of [l] a start time that the order allows: the
    first task does not start before time 0, every other task not before its
    predecessor's start plus the predecessor's duration plus its own margin;
    [p] is the predecessor of the first task of [l]. *)
Fixpoint admissible (s : Store) (x : tid -> Z) (p : option tid)
         (l : list tid) : Prop :=
  match l with
  | [] => True
  | t :: l' =>
      match p with
      | None => 0 <= x t
      | Some q => x q + _duration (tasks s q) + _min_margin_before (tasks s t)
                  <= x t
      end /\
      admissible s x (Some t) l'
  end.

(** The total lateness of the start times [x] against the targets. *)
Definition lateness_of (s : Store) (x : tid -> Z) (l : list tid) : Z :=
  fold_right (fun t acc => Z.max 0 (x t - _target (tasks s t)) + acc) 0 l.

(** * Basic facts *)

(** ** Store updates *)

Lemma tasks_upd_task_same t f s : tasks (upd_task t f s) t = f (tasks s t).
Proof. simpl. now rewrite Nat.eqb_refl. Qed.

Lemma tasks_upd_task_other t f s x : x <> t -> tasks (upd_task t f s) x = tasks s x.
Proof. intros H. simpl. apply Nat.eqb_neq in H. now rewrite H. Qed.

Lemma resources_upd_resource_same r f s :
  resources (upd_resource r f s) r = f (resources s r).
Proof. simpl. now rewrite Nat.eqb_refl. Qed.

Lemma resources_upd_resource_other r f s x :
  x <> r -> resources (upd_resource r f s) x = resources s x.
Proof. intros H. simpl. apply Nat.eqb_neq in H. now rewrite H. Qed.

Lemma task_ext (a b : SchedulingTask) :
  next a = next b -> previous a = previous b -> resource a = resource b ->
  _duration a = _duration b -> _target a = _target b ->
  _min_margin_before a = _min_margin_before b ->
  _dirty a = _dirty b -> _earliest_start a = _earliest_start b ->
  _start a = _start b -> a = b.
Proof. destruct a, b; simpl; intros; subst; reflexivity. Qed.

Lemma same_static_refl a : same_static a a.
Proof. repeat split. Qed.

Lemma same_static_trans a b c :
  same_static a b -> same_static b c -> same_static a c.
Proof.
  unfold same_static. intros (?&?&?&?&?&?) (?&?&?&?&?&?).
  repeat split; congruence.
Qed.

Lemma static_eq_refl s : static_eq s s.
Proof. split; intros; [reflexivity | apply same_static_refl]. Qed.

Lemma static_eq_trans s1 s2 s3 :
  static_eq s1 s2 -> static_eq s2 s3 -> static_eq s1 s3.
Proof.
  intros [R1 T1] [R2 T2]. split; intros.
  - now rewrite R2, R1.
  - eapply same_static_trans; [apply T2 | apply T1].
Qed.

(** ** Lists *)

Lemma hd_or_app n l1 l2 : hd_or n (l1 ++ l2) = hd_or (hd_or n l2) l1.
Proof. destruct l1; reflexivity. Qed.

Lemma last_or_app p l1 l2 : last_or p (l1 ++ l2) = last_or (last_or p l1) l2.
Proof. revert p. induction l1; simpl; intros; auto. Qed.

Lemma last_or_snoc p l x : last_or p (l ++ [x]) = Some x.
Proof. now rewrite last_or_app. Qed.

Lemma hd_or_In n l x : hd_or n l = Some x -> n = Some x \/ In x l.
Proof. destruct l; simpl; [auto |]. intros [= <-]. auto. Qed.

Lemma last_or_In p l x : last_or p l = Some x -> p = Some x \/ In x l.
Proof.
  revert p. induction l as [|y l IH]; simpl; intros p H; [auto |].
  destruct (IH _ H) as [[= <-] | Hin]; auto.
Qed.

Lemma hd_or_In_None l x : hd_or None l = Some x -> In x l.
Proof. intros H. apply hd_or_In in H. destruct H; [discriminate | assumption]. Qed.

Lemma last_or_In_None l x : last_or None l = Some x -> In x l.
Proof. intros H. apply last_or_In in H. destruct H; [discriminate | assumption]. Qed.

Lemma last_or_None_nil (l : list tid) : last_or None l = None -> l = [].
Proof.
  destruct l as [|x l] using rev_ind; [reflexivity |].
  rewrite last_or_snoc. discriminate.
Qed.

Lemma hd_or_None_nil (l : list tid) : hd_or None l = None -> l = [].
Proof. destruct l; [reflexivity | discriminate]. Qed.

(** ** Segments *)

Lemma seg_app s o p l1 l2 n :
  seg s o p (l1 ++ l2) n <->
  seg s o p l1 (hd_or n l2) /\ seg s o (last_or p l1) l2 n.
Proof.
  revert p. induction l1 as [|x l1 IH]; simpl; intros p.
  - tauto.
  - rewrite IH, hd_or_app. tauto.
Qed.

Lemma seg_static s s' o p l n :
  static_eq s s' -> seg s o p l n -> seg s' o p l n.
Proof.
  intros [_ T]. revert p. induction l as [|x l IH]; simpl; intros p; auto.
  intros (Hp & Hn & Hr & Hs).
  destruct (T x) as (En & Ep & Er & _).
  repeat split; try congruence. auto.
Qed.

Lemma chain_static s s' o l :
  static_eq s s' -> chain s o l -> chain s' o l.
Proof.
  intros E (ND & S & R). split; [assumption | split].
  - eapply seg_static; eauto.
  - destruct o; auto. destruct E as [ER _]. now rewrite ER.
Qed.

Lemma seg_resource s o p l n t :
  seg s o p l n -> In t l -> resource (tasks s t) = o.
Proof.
  revert p. induction l as [|x l IH]; simpl; intros p Hs Hin; [contradiction|].
  destruct Hs as (_ & _ & Hr & Hs). destruct Hin as [<- | Hin]; eauto.
Qed.

(** Walking [next] from the first task of a segment that ends in [None]
    yields the segment; walking [previous] from its last task yields the
    reversed segment. *)
Lemma iter_from_seg s o p l fuel :
  seg s o p l None -> (length l < fuel)%nat ->
  iter_from fuel (hd_or None l) s = Done l s.
Proof.
  revert p fuel. induction l as [|x l IH]; intros p fuel Hs Hf.
  - destruct fuel; [simpl in Hf; lia | reflexivity].
  - destruct fuel; [simpl in Hf; lia |].
    simpl in Hs. destruct Hs as (_ & Hn & _ & Hs).
    simpl. unfold bind, get. rewrite Hn.
    rewrite (IH (Some x) fuel Hs) by (simpl in Hf; lia).
    reflexivity.
Qed.

Lemma iter_back_from_seg s o l n fuel :
  seg s o None l n -> (length l < fuel)%nat ->
  iter_back_from fuel (last_or None l) s = Done (rev l) s.
Proof.
  revert n fuel. induction l as [|x l IH] using rev_ind; intros n fuel Hs Hf.
  - destruct fuel; [simpl in Hf; lia | reflexivity].
  - destruct fuel; [rewrite length_app in Hf; simpl in Hf; lia |].
    apply seg_app in Hs. destruct Hs as (Hs1 & Hs2).
    simpl in Hs2. destruct Hs2 as (Hp & _).
    rewrite last_or_snoc, rev_app_distr. simpl.
    unfold bind, get. rewrite Hp.
    rewrite (IH _ fuel Hs1) by (rewrite length_app in Hf; simpl in Hf; lia).
    reflexivity.
Qed.

Lemma seg_middle s o p pre t post n :
  seg s o p (pre ++ t :: post) n ->
  previous (tasks s t) = last_or p pre /\
  next (tasks s t) = hd_or n post /\
  resource (tasks s t) = o /\
  seg s o p (pre ++ [t]) (hd_or n post).
Proof.
  intros H. apply seg_app in H. destruct H as (H1 & H2).
  simpl in H1, H2. destruct H2 as (Hp & Hn & Hr & H2).
  repeat split; auto.
  apply seg_app. simpl. auto.
Qed.

Lemma NoDup_middle (pre : list tid) t post :
  NoDup (pre ++ t :: post) ->
  ~ In t pre /\ ~ In t post /\
  (forall u, In u post -> ~ In u (pre ++ [t])) /\
  (forall u, In u pre -> ~ In u (t :: post)).
Proof.
  intros H.
  pose proof (NoDup_remove_2 _ _ _ H) as Ht.
  assert (Hd : forall u, In u pre -> In u (t :: post) -> False).
  { clear Ht. induction pre as [|x pre IH]; simpl in *; [tauto |].
    inversion H as [|? ? Hx Hnd]; subst.
    intros u [<- | Hu] Hin.
    - apply Hx. apply in_or_app. right. exact Hin.
    - eauto. }
  split; [| split; [| split]].
  - intros Hin. apply Ht. apply in_or_app; auto.
  - intros Hin. apply Ht. apply in_or_app; auto.
  - intros u Hu Hin. apply in_app_or in Hin. destruct Hin as [Hin | [<- | []]].
    + apply (Hd u Hin). simpl; auto.
    + apply Ht. apply in_or_app; auto.
  - intros u Hu Hin. exact (Hd u Hu Hin).
Qed.

(** * Cache refreshes *)

(** ** Updates that keep links and parameters *)

Lemma static_eq_upd_task t f s :
  (forall x, same_static (f x) x) -> static_eq s (upd_task t f s).
Proof.
  intros Hf. split; intros; [reflexivity |].
  simpl. destruct (Nat.eqb t0 t); [apply Hf | apply same_static_refl].
Qed.

Lemma static_eq_set_dirty t v s : static_eq s (set_dirty t v s).
Proof. apply static_eq_upd_task. intros; repeat split. Qed.

Lemma static_eq_set_earliest_start t v s : static_eq s (set_earliest_start t v s).
Proof. apply static_eq_upd_task. intros; repeat split. Qed.

Lemma static_eq_set__start t v s : static_eq s (set__start t v s).
Proof. apply static_eq_upd_task. intros; repeat split. Qed.

Create HintDb sched.

#[export] Hint Resolve static_eq_refl static_eq_set_dirty
  static_eq_set_earliest_start static_eq_set__start : sched.

Lemma static_eq_step s s1 t f :
  static_eq s s1 -> (forall x, same_static (f x) x) ->
  static_eq s (upd_task t f s1).
Proof.
  intros H Hf. eapply static_eq_trans; [apply H |].
  now apply static_eq_upd_task.
Qed.

Ltac solve_static :=
  unfold set_dirty, set__start, set_earliest_start;
  repeat (apply static_eq_step; [| intros; repeat split]);
  auto with sched.

(** ** The plan of a chain *)

Lemma fits_int_iff z : fits_int z = true <-> int_min <= z <= int_max.
Proof.
  unfold fits_int. rewrite andb_true_iff, !Z.leb_le. tauto.
Qed.

Lemma refreshed_ext s s' stop t :
  _dirty (tasks s' t) = _dirty (tasks s t) ->
  _earliest_start (tasks s' t) = _earliest_start (tasks s t) ->
  _min_margin_before (tasks s' t) = _min_margin_before (tasks s t) ->
  refreshed s' stop t = refreshed s stop t.
Proof. unfold refreshed. intros -> -> ->. reflexivity. Qed.

Lemma plan_ext s s' l : forall stop,
  (forall u, In u l ->
     _dirty (tasks s' u) = _dirty (tasks s u) /\
     _earliest_start (tasks s' u) = _earliest_start (tasks s u) /\
     _min_margin_before (tasks s' u) = _min_margin_before (tasks s u) /\
     _duration (tasks s' u) = _duration (tasks s u)) ->
  plan s' stop l = plan s stop l /\ stop_after s' stop l = stop_after s stop l.
Proof.
  induction l as [|t l IH]; intros stop H; [split; reflexivity |].
  destruct (H t (or_introl eq_refl)) as (Ed & Ee & Em & Eu).
  simpl. rewrite (refreshed_ext s s' stop t Ed Ee Em), Eu.
  destruct (IH (Some (refreshed s stop t + _duration (tasks s t)))) as (E1 & E2).
  { intros u Hu. apply H. now right. }
  now rewrite E1, E2.
Qed.

Lemma plan_same s s' l stop :
  (forall u, In u l -> tasks s' u = tasks s u) ->
  plan s' stop l = plan s stop l /\ stop_after s' stop l = stop_after s stop l.
Proof.
  intros H. apply plan_ext. intros u Hu. rewrite (H u Hu). repeat split.
Qed.

Lemma plan_app s l1 l2 : forall stop,
  plan s stop (l1 ++ l2) = plan s stop l1 ++ plan s (stop_after s stop l1) l2.
Proof.
  induction l1 as [|t l1 IH]; intros stop; simpl; [reflexivity |].
  now rewrite IH.
Qed.

Lemma stop_after_app s l1 l2 : forall stop,
  stop_after s stop (l1 ++ l2) = stop_after s (stop_after s stop l1) l2.
Proof.
  induction l1 as [|t l1 IH]; intros stop; simpl; [reflexivity |].
  now rewrite IH.
Qed.

Lemma stop_after_snoc s l t stop :
  stop_after s stop (l ++ [t]) =
  Some (refreshed s (stop_after s stop l) t + _duration (tasks s t)).
Proof. rewrite stop_after_app. reflexivity. Qed.

Lemma es_fit_app s l1 l2 : es_fit s (l1 ++ l2) -> es_fit s l1.
Proof.
  unfold es_fit. rewrite plan_app. intros H. now apply Forall_app in H.
Qed.

Lemma es_fit_at s pre t post :
  es_fit s (pre ++ t :: post) ->
  fits_int (refreshed s (stop_after s None pre) t) = true.
Proof.
  unfold es_fit. rewrite plan_app. intros H. apply Forall_app in H.
  destruct H as (_ & H). simpl in H. now inversion H.
Qed.

Lemma es_fit_prefix s pre t post :
  es_fit s (pre ++ t :: post) -> es_fit s (pre ++ [t]).
Proof.
  intros H. replace (pre ++ t :: post) with ((pre ++ [t]) ++ post) in H
    by (rewrite <- app_assoc; reflexivity).
  now apply es_fit_app in H.
Qed.

(** The plan is kept when the task at one place becomes clean with its
    refreshed earliest start and the other tasks keep their caches. *)
Lemma plan_refresh s s' pre t post :
  (forall u, In u pre \/ In u post ->
     _dirty (tasks s' u) = _dirty (tasks s u) /\
     _earliest_start (tasks s' u) = _earliest_start (tasks s u) /\
     _min_margin_before (tasks s' u) = _min_margin_before (tasks s u) /\
     _duration (tasks s' u) = _duration (tasks s u)) ->
  _dirty (tasks s' t) = false ->
  _earliest_start (tasks s' t) = refreshed s (stop_after s None pre) t ->
  _duration (tasks s' t) = _duration (tasks s t) ->
  plan s' None (pre ++ t :: post) = plan s None (pre ++ t :: post).
Proof.
  intros Ho Hd He Hu.
  rewrite !plan_app.
  destruct (plan_ext s s' pre None) as (E1 & E2); [intros u H; apply Ho; now left |].
  rewrite E1, E2. f_equal. simpl.
  assert (R : refreshed s' (stop_after s None pre) t
              = refreshed s (stop_after s None pre) t).
  { unfold refreshed at 1. now rewrite Hd. }
  rewrite R, Hu. f_equal.
  apply plan_ext. intros u H. apply Ho. now right.
Qed.

(** ** Reads *)

Lemma as_int_fits z s : fits_int z = true -> as_int z s = Done z s.
Proof. unfold as_int. now intros ->. Qed.

Lemma tidied_refl A s : tidied A s s.
Proof. split; [apply static_eq_refl | split; auto]. Qed.


Lemma tidied_weaken A B s s' :
  (forall u, In u A -> In u B) -> tidied A s s' -> tidied B s s'.
Proof.
  intros H (S1 & O1 & C1). split; [exact S1 | split; [| exact C1]].
  intros u Hu. apply O1. intros Hin. apply Hu. now apply H.
Qed.

Lemma ends_inv {A} (m : M A) s Q E :
  ends m s Q E ->
  (exists a s', m s = Done a s' /\ Q a s') \/
  (exists e s', m s = Raised e s' /\ E e s').
Proof.
  unfold ends. destruct (m s) as [a s' | e s' |]; intros H.
  - left. eauto.
  - right. eauto.
  - contradiction.
Qed.

Lemma ends_done {A} (m : M A) s (Q : A -> Store -> Prop) E a s' :
  m s = Done a s' -> Q a s' -> ends m s Q E.
Proof. unfold ends. now intros ->. Qed.

Lemma ends_raised {A} (m : M A) s (Q : A -> Store -> Prop)
      (E : exn -> Store -> Prop) e s' :
  m s = Raised e s' -> E e s' -> ends m s Q E.
Proof. unfold ends. now intros ->. Qed.

Lemma ends_weaken {A} (m : M A) s (Q Q' : A -> Store -> Prop)
      (E E' : exn -> Store -> Prop) :
  (forall a s', Q a s' -> Q' a s') ->
  (forall e s', E e s' -> E' e s') ->
  ends m s Q E -> ends m s Q' E'.
Proof. unfold ends. destruct (m s); auto. Qed.

(** [calculate] on a task with predecessor [q], in terms of the read of
    [q]. *)
Lemma calculate_step fuel t q s :
  previous (tasks s t) = Some q ->
  calculate (S fuel) t s =
  match (if _dirty (tasks s q) then calculate fuel q else ret tt) s with
  | Done _ s1 =>
      let v := _earliest_start (tasks s1 q) + _duration (tasks s1 q)
               + _min_margin_before (tasks s1 t) in
      if fits_int v then
        Done tt
          (set_dirty t false
             (set__start t (Z.max v (_start (tasks s1 t)))
                (set_earliest_start t v s1)))
      else Raised OverflowError s1
  | Raised e s1 => Raised e s1
  | OutOfFuel => OutOfFuel
  end.
Proof.
  intros Hp. cbn [calculate]. unfold bind at 1. unfold get at 1. rewrite Hp.
  unfold earliest_stop_with, earliest_start_with.
  unfold bind at 1 2 3 4. unfold get at 1.
  unfold bind at 1.
  destruct ((if _dirty (tasks s q) then calculate fuel q else ret tt) s)
    as [[] s1 | e s1 |]; try reflexivity.
  unfold bind, get, lift, ret, as_int. cbv zeta.
  destruct (fits_int _); [| reflexivity].
  do 2 f_equal. f_equal.
  unfold set_earliest_start. rewrite !tasks_upd_task_same. reflexivity.
Qed.

Lemma calculate_head fuel t s :
  previous (tasks s t) = None ->
  calculate (S fuel) t s = Done tt (set_dirty t false (set_earliest_start t 0 s)).
Proof.
  intros Hp. cbn [calculate]. unfold bind, get, lift. now rewrite Hp.
Qed.

(** The conditional call of [calculate] with which the property reads
    begin, on the task [t] that stands behind [pre]. *)
Lemma tidy_ends pre : forall t post s o n fuel,
  NoDup (pre ++ t :: post) ->
  seg s o None (pre ++ [t]) n ->
  (length pre < fuel)%nat ->
  ends (if _dirty (tasks s t) then calculate fuel t else ret tt) s
       (fun _ s' => read_post pre t post s s')
       (read_fail pre t s).
Proof.
  induction pre as [|q pre IH] using rev_ind;
    intros t post s o n fuel Hnd Hseg Hf.
  all: unfold ends; destruct (_dirty (tasks s t)) eqn:Hd.
  all: try (cbn [ret]; split; [apply tidied_refl |];
            split; [exact Hd |];
            split; [unfold refreshed; now rewrite Hd |];
            split; [reflexivity | intros; lia]).
  - (* the first task of the chain *)
    destruct fuel as [|fuel]; [simpl in Hf; lia |].
    simpl in Hseg. destruct Hseg as (Hp & _).
    destruct (NoDup_cons_iff t post) as (Hnd' & _).
    destruct (Hnd' Hnd) as (Htpost & _).
    rewrite (calculate_head fuel t s Hp).
    unfold set_dirty, set_earliest_start.
    split; [| split; [| split; [| split]]].
    + split; [solve_static | split].
      * intros u Hu.
        assert (u <> t) by (intros ->; apply Hu; simpl; auto).
        now rewrite !tasks_upd_task_other.
      * intros u Hu.
        assert (u <> t) by (intros ->; congruence).
        now rewrite !tasks_upd_task_other.
    + now rewrite tasks_upd_task_same.
    + rewrite !tasks_upd_task_same. unfold refreshed. now rewrite Hd.
    + apply (plan_refresh s _ [] t post).
      * intros u [[] | Hu].
        assert (u <> t) by (intros ->; contradiction).
        rewrite !tasks_upd_task_other by assumption. repeat split.
      * now rewrite tasks_upd_task_same.
      * rewrite !tasks_upd_task_same. unfold refreshed. now rewrite Hd.
      * now rewrite !tasks_upd_task_same.
    + intros u. destruct (Nat.eq_dec u t) as [-> | Hne].
      * rewrite !tasks_upd_task_same. simpl. lia.
      * rewrite !tasks_upd_task_other by assumption. lia.
  - (* a task with predecessor [q] *)
    destruct fuel as [|fuel]; [simpl in Hf; lia |].
    rewrite length_app in Hf. simpl in Hf.
    pose proof Hseg as Hseg0.
    apply seg_app in Hseg. destruct Hseg as (Hseg1 & Hseg2).
    rewrite last_or_snoc in Hseg2. simpl in Hseg2.
    destruct Hseg2 as (Hp & _).
    assert (Hl : (pre ++ [q]) ++ t :: post = pre ++ q :: t :: post)
      by (rewrite <- app_assoc; reflexivity).
    pose proof Hnd as Hnd0. rewrite Hl in Hnd.
    destruct (NoDup_middle _ _ _ Hnd0) as (Htpre & Htpost & _ & Hpre).
    assert (Hsub : forall u, In u (pre ++ [q]) -> In u ((pre ++ [q]) ++ [t]))
      by (intros u Hu; apply in_or_app; now left).
    rewrite (calculate_step fuel t q s Hp).
    assert (IHq := IH q (t :: post) s o _ fuel Hnd Hseg1 ltac:(lia)).
    apply ends_inv in IHq.
    destruct IHq as [([] & s1 & E1 & (S1 & O1 & C1) & D1 & V1 & P1 & M1)
                    | (e & s1 & E1 & -> & T1 & F1)]; rewrite E1.
    2: { split; [reflexivity | split].
         - now apply (tidied_weaken (pre ++ [q])).
         - intros Hfit. apply F1. now apply es_fit_app in Hfit. }
    assert (Et : tasks s1 t = tasks s t) by (apply O1; exact Htpre).
    assert (Eq : _duration (tasks s1 q) = _duration (tasks s q))
      by (destruct S1 as (_ & T1); apply (T1 q)).
    assert (Ev : _earliest_start (tasks s1 q) + _duration (tasks s1 q)
                 + _min_margin_before (tasks s1 t)
                 = refreshed s (stop_after s None (pre ++ [q])) t).
    { rewrite stop_after_snoc. unfold refreshed at 1. rewrite Hd.
      now rewrite <- V1, Eq, Et. }
    cbv zeta. rewrite Ev.
    destruct (fits_int _) eqn:Hv.
    2: { split; [reflexivity | split].
         - apply (tidied_weaken (pre ++ [q])); [exact Hsub |].
           split; [exact S1 | split; assumption].
         - intros Hfit. apply es_fit_at in Hfit. congruence. }
    unfold set_dirty, set__start, set_earliest_start.
    split; [| split; [| split; [| split]]].
    + split; [solve_static | split].
      * intros u Hu.
        assert (u <> t) by (intros ->; apply Hu; apply in_or_app; simpl; auto).
        rewrite !tasks_upd_task_other by assumption.
        apply O1. intros Hin. apply Hu. apply in_or_app. auto.
      * intros u Hu.
        assert (u <> t) by (intros ->; congruence).
        rewrite !tasks_upd_task_other by assumption. now apply C1.
    + now rewrite tasks_upd_task_same.
    + rewrite !tasks_upd_task_same. reflexivity.
    + rewrite <- Hl in P1. rewrite <- P1.
      apply (plan_refresh s1 _ (pre ++ [q]) t post).
      * intros u Hu.
        assert (u <> t) by (intros ->; tauto).
        rewrite !tasks_upd_task_other by assumption. repeat split.
      * now rewrite tasks_upd_task_same.
      * rewrite !tasks_upd_task_same. cbn.
        rewrite <- Ev, stop_after_snoc. unfold refreshed.
        rewrite Et, Hd, D1. reflexivity.
      * now rewrite !tasks_upd_task_same.
    + intros u. specialize (M1 u).
      destruct (Nat.eq_dec u t) as [-> | Hne].
      * rewrite !tasks_upd_task_same. cbn. rewrite <- Et. lia.
      * rewrite !tasks_upd_task_other by assumption. exact M1.
Qed.

Lemma ends_bind {A B} (m : M A) (k : A -> M B) s
      (Q1 : A -> Store -> Prop) (E1 : exn -> Store -> Prop)
      (Q : B -> Store -> Prop) (E : exn -> Store -> Prop) :
  ends m s Q1 E1 ->
  (forall a s1, Q1 a s1 -> ends (k a) s1 Q E) ->
  (forall e s1, E1 e s1 -> E e s1) ->
  ends (bind m k) s Q E.
Proof.
  unfold ends, bind. destruct (m s) as [a s1 | e s1 |]; intros H HQ HE.
  - now apply HQ.
  - now apply HE.
  - contradiction.
Qed.

Lemma earliest_start_ends pre t post s o n fuel :
  NoDup (pre ++ t :: post) ->
  seg s o None (pre ++ [t]) n ->
  (length pre < fuel)%nat ->
  ends (earliest_start fuel t) s
       (fun v s' => v = _earliest_start (tasks s' t) /\ read_post pre t post s s')
       (read_fail pre t s).
Proof.
  intros Hnd Hseg Hf.
  pose proof (tidy_ends pre t post s o n fuel Hnd Hseg Hf) as H.
  unfold earliest_start, earliest_start_with.
  unfold ends, bind, get in *.
  destruct ((if _dirty (tasks s t) then calculate fuel t else ret tt) s);
    auto.
Qed.

Lemma start_ends pre t post s o n fuel :
  NoDup (pre ++ t :: post) ->
  seg s o None (pre ++ [t]) n ->
  (length pre < fuel)%nat ->
  ends (start fuel t) s
       (fun v s' => v = _start (tasks s' t) /\ read_post pre t post s s')
       (read_fail pre t s).
Proof.
  intros Hnd Hseg Hf.
  pose proof (tidy_ends pre t post s o n fuel Hnd Hseg Hf) as H.
  unfold start.
  unfold ends, bind, get in *.
  destruct ((if _dirty (tasks s t) then calculate fuel t else ret tt) s);
    auto.
Qed.

Lemma earliest_start_clean fuel t s :
  _dirty (tasks s t) = false ->
  earliest_start fuel t s = Done (_earliest_start (tasks s t)) s.
Proof.
  intros H. unfold earliest_start, earliest_start_with, bind, get, ret.
  now rewrite H.
Qed.

Lemma start_clean fuel t s :
  _dirty (tasks s t) = false ->
  start fuel t s = Done (_start (tasks s t)) s.
Proof.
  intros H. unfold start, bind, get, ret. now rewrite H.
Qed.

(** The assignment [t.start = v] on a clean task. *)
Lemma set_start_clean fuel t v s :
  _dirty (tasks s t) = false ->
  set_start fuel t v s =
  if fits_int (Z.max (_earliest_start (tasks s t)) v)
  then Done tt (set__start t (Z.max (_earliest_start (tasks s t)) v) s)
  else Raised OverflowError s.
Proof.
  intros H. unfold set_start, bind. rewrite earliest_start_clean by assumption.
  unfold as_int, lift. now destruct (fits_int _).
Qed.

Lemma plan_set__start s t v l stop :
  plan (set__start t v s) stop l = plan s stop l.
Proof.
  apply plan_ext. intros u _. unfold set__start. simpl.
  destruct (Nat.eqb u t); repeat split.
Qed.

(** The assignment [t.start = v] on the task [t] that stands behind
    [pre]. *)
Lemma set_start_ends pre t post v s o n fuel :
  NoDup (pre ++ t :: post) ->
  seg s o None (pre ++ [t]) n ->
  (length pre < fuel)%nat ->
  ends (set_start fuel t v) s
       (fun _ s' => write_post pre t post v s s')
       (write_fail pre t v s).
Proof.
  intros Hnd Hseg Hf.
  pose proof (earliest_start_ends pre t post s o n fuel Hnd Hseg Hf) as H.
  apply ends_inv in H.
  destruct H as [(es & s1 & E & -> & (S1 & O1 & C1) & D & V & P & _)
                | (e & s1 & E & -> & T1 & F1)];
    unfold ends, set_start, bind; rewrite E.
  2: { split; [reflexivity | split; [exact T1 | tauto]]. }
  unfold as_int, lift.
  destruct (fits_int (Z.max _ v)) eqn:Hmax.
  2: { split; [reflexivity | split].
       - split; [exact S1 | split; assumption].
       - intros (Hfit & Hv).
         pose proof (es_fit_at s pre t [] Hfit) as Hes. rewrite <- V in Hes.
         apply fits_int_iff in Hes.
         assert (fits_int (Z.max (_earliest_start (tasks s1 t)) v) = true)
           by (apply fits_int_iff; lia).
         congruence. }
  split; [| split; [| split]].
  - unfold written, set__start.
    split; [solve_static | split; [| split; [| split; [| split]]]].
    + intros u Hu.
      assert (u <> t) by (intros ->; apply Hu; apply in_or_app; simpl; auto).
      rewrite tasks_upd_task_other by assumption. now apply O1.
    + intros u Hu Hc. rewrite tasks_upd_task_other by assumption. now apply C1.
    + now rewrite tasks_upd_task_same.
    + intros Hc. rewrite tasks_upd_task_same. simpl. now rewrite (C1 t Hc).
    + rewrite tasks_upd_task_same. reflexivity.
  - unfold set__start. rewrite tasks_upd_task_same. exact V.
  - now rewrite plan_set__start.
  - unfold set__start. rewrite tasks_upd_task_same. exact Hmax.
Qed.

(** With earliest starts in the range of a C [int] the reads return. *)
Lemma earliest_start_spec pre t post s o n fuel :
  NoDup (pre ++ t :: post) ->
  seg s o None (pre ++ [t]) n ->
  (length pre < fuel)%nat ->
  es_fit s (pre ++ [t]) ->
  exists s',
    earliest_start fuel t s = Done (_earliest_start (tasks s' t)) s' /\
    read_post pre t post s s'.
Proof.
  intros Hnd Hseg Hf Hfit.
  pose proof (earliest_start_ends pre t post s o n fuel Hnd Hseg Hf) as H.
  apply ends_inv in H.
  destruct H as [(es & s1 & E & -> & H) | (e & s1 & E & _ & _ & F1)];
    [eauto | contradiction].
Qed.

Lemma start_spec pre t post s o n fuel :
  NoDup (pre ++ t :: post) ->
  seg s o None (pre ++ [t]) n ->
  (length pre < fuel)%nat ->
  es_fit s (pre ++ [t]) ->
  exists s',
    start fuel t s = Done (_start (tasks s' t)) s' /\
    read_post pre t post s s'.
Proof.
  intros Hnd Hseg Hf Hfit.
  pose proof (start_ends pre t post s o n fuel Hnd Hseg Hf) as H.
  apply ends_inv in H.
  destruct H as [(es & s1 & E & -> & H) | (e & s1 & E & _ & _ & F1)];
    [eauto | contradiction].
Qed.

Lemma set_start_spec pre t post v s o n fuel :
  NoDup (pre ++ t :: post) ->
  seg s o None (pre ++ [t]) n ->
  (length pre < fuel)%nat ->
  es_fit s (pre ++ [t]) ->
  v <= int_max ->
  exists s',
    set_start fuel t v s = Done tt s' /\
    write_post pre t post v s s'.
Proof.
  intros Hnd Hseg Hf Hfit Hv.
  pose proof (set_start_ends pre t post v s o n fuel Hnd Hseg Hf) as H.
  apply ends_inv in H.
  destruct H as [([] & s1 & E & H) | (e & s1 & E & _ & _ & F1)];
    [eauto | tauto].
Qed.

(** The range conditions can be checked by evaluation. *)
Lemma es_fit_check s l :
  forallb fits_int (plan s None l) = true -> es_fit s l.
Proof.
  unfold es_fit. intros H. apply Forall_forall. intros e He.
  rewrite forallb_forall in H. now apply H.
Qed.

Lemma targets_fit_check s l :
  forallb (fun t => fits_int (_target (tasks s t))) l = true ->
  targets_fit s l.
Proof.
  intros H t Ht. rewrite forallb_forall in H. now apply H.
Qed.

(** [calculate] on a task without predecessor: the earliest start becomes 0
    and the start is left as it is. *)
Lemma calculate_without_predecessor s t fuel :
  previous (tasks s t) = None ->
  exists s',
    calculate (S fuel) t s = Done tt s' /\
    _dirty (tasks s' t) = false /\
    _earliest_start (tasks s' t) = 0 /\
    _start (tasks s' t) = _start (tasks s t).
Proof.
  intros Hp. rewrite (calculate_head fuel t s Hp).
  eexists. split; [reflexivity |].
  unfold set_dirty, set_earliest_start. rewrite !tasks_upd_task_same.
  repeat split.
Qed.

(** * The sweeps *)

(** ** The backward sweep *)

Lemma backward_ok_same s s' l :
  (forall u, In u l -> tasks s' u = tasks s u) ->
  backward_ok s l -> backward_ok s' l.
Proof.
  induction l as [|t l IH]; simpl; auto.
  intros H (Ht & Hl).
  split.
  - rewrite (H t) by auto. rewrite Ht.
    destruct l as [|n l']; [reflexivity |].
    rewrite (H n) by (simpl; auto). reflexivity.
  - apply IH; auto.
Qed.

Lemma all_clean_same s s' l :
  (forall u, In u l -> tasks s' u = tasks s u) ->
  all_clean s l -> all_clean s' l.
Proof. intros H C u Hu. rewrite H by assumption. now apply C. Qed.

Lemma swept_same s s' l :
  (forall u, In u l -> tasks s' u = tasks s u) ->
  swept s l -> swept s' l.
Proof.
  intros H (C & B & F).
  split; [eapply all_clean_same; eauto | split].
  - eapply backward_ok_same; eauto.
  - intros u Hu. rewrite H by assumption. now apply F.
Qed.

Lemma swept_nil s : swept s [].
Proof. split; [intros u [] | split; [exact I | intros u []]]. Qed.

Lemma backward_loop_done k fuel s :
  (0 < fuel)%nat -> schedule_backward_loop k fuel None s = Done tt s.
Proof. destruct fuel; [lia | reflexivity]. Qed.

Lemma es_fit_same_plan s s' l :
  plan s' None l = plan s None l -> es_fit s l -> es_fit s' l.
Proof. unfold es_fit. now intros ->. Qed.

Lemma targets_fit_static s s' l :
  static_eq s s' -> targets_fit s l -> targets_fit s' l.
Proof.
  intros (_ & T) H u Hu. destruct (T u) as (_ & _ & _ & _ & Et & _).
  rewrite Et. now apply H.
Qed.

Lemma backward_step pre t post s o k fuel :
  NoDup (pre ++ t :: post) ->
  seg s o None (pre ++ t :: post) None ->
  swept s post ->
  (length pre < k)%nat ->
  (exists s1,
     schedule_backward_loop k (S fuel) (Some t) s =
     schedule_backward_loop k fuel (last_or None pre) s1 /\
     static_eq s s1 /\
     (forall u, ~ In u (pre ++ [t]) -> tasks s1 u = tasks s u) /\
     (forall u, _dirty (tasks s u) = false ->
                _dirty (tasks s1 u) = false /\
                _earliest_start (tasks s1 u) = _earliest_start (tasks s u)) /\
     swept s1 (t :: post) /\
     plan s1 None (pre ++ t :: post) = plan s None (pre ++ t :: post)) \/
  (exists s1,
     schedule_backward_loop k (S fuel) (Some t) s = Raised OverflowError s1 /\
     static_eq s s1 /\
     (forall u, ~ In u (pre ++ [t]) -> tasks s1 u = tasks s u) /\
     ~ (es_fit s (pre ++ t :: post) /\ targets_fit s (pre ++ t :: post))).
Proof.
  intros Hnd Hseg (Hclean & Hbw & Hfits) Hk.
  destruct (seg_middle _ _ _ _ _ _ _ Hseg) as (Hp & Hn & _ & Hseg1).
  destruct (NoDup_middle _ _ _ Hnd) as (Htpre & Htpost & Hpost & Hpre).
  assert (Hin : In t (pre ++ t :: post)) by (apply in_or_app; simpl; auto).
  assert (Hset : forall v, v <= _target (tasks s t) ->
    (exists s1, set_start k t v s = Done tt s1 /\ write_post pre t post v s s1) \/
    (exists s1, set_start k t v s = Raised OverflowError s1 /\
                tidied (pre ++ [t]) s s1 /\
                ~ (es_fit s (pre ++ t :: post) /\
                   targets_fit s (pre ++ t :: post)))).
  { intros v Hv.
    pose proof (set_start_ends pre t post v s o _ k Hnd Hseg1 Hk) as H.
    apply ends_inv in H.
    destruct H as [([] & s1 & E & H) | (e & s1 & E & -> & T1 & F1)];
      [left; eauto | right].
    exists s1. split; [exact E | split; [exact T1 |]].
    intros (H1 & H2). apply F1. split; [eapply es_fit_prefix; eauto |].
    specialize (H2 t Hin). apply fits_int_iff in H2. lia. }
  assert (Hstep : forall v,
    v <= _target (tasks s t) ->
    (match post with
     | [] => True
     | n :: _ => v = Z.min (_target (tasks s t))
                           (_start (tasks s n) - _min_margin_before (tasks s n)
                            - _duration (tasks s t))
     end) ->
    (post = [] -> v = _target (tasks s t)) ->
    schedule_backward_loop k (S fuel) (Some t) s =
    (set_start k t v ;; p <- get previous t ;; schedule_backward_loop k fuel p) s).
  { intros v _ Hv1 Hv2. simpl. unfold bind at 1. unfold get at 1. rewrite Hn.
    destruct post as [|n post']; cbn [hd_or].
    - rewrite (Hv2 eq_refl). reflexivity.
    - assert (Hcn : _dirty (tasks s n) = false) by (apply Hclean; simpl; auto).
      unfold bind at 1. unfold bind at 1. unfold get at 1.
      unfold bind at 1. rewrite (start_clean k n s Hcn).
      unfold bind at 1. unfold get at 1. unfold bind at 1. unfold get at 1.
      rewrite Hv1. reflexivity. }
  set (v := match post with
            | [] => _target (tasks s t)
            | n :: _ => Z.min (_target (tasks s t))
                              (_start (tasks s n) - _min_margin_before (tasks s n)
                               - _duration (tasks s t))
            end).
  assert (Hv : v <= _target (tasks s t))
    by (unfold v; destruct post; [lia | apply Z.le_min_l]).
  rewrite (Hstep v Hv).
  2: { unfold v. destruct post; auto. }
  2: { intros ->. reflexivity. }
  destruct (Hset v Hv) as [(s1 & E1 & (S1 & O1 & C1 & D1 & K1 & V1) & Ves & P1 & F1)
                          | (s1 & E1 & (S1 & O1 & _) & N1)].
  2: { right. exists s1. unfold bind. rewrite E1. auto. }
  left. exists s1. unfold bind at 1. rewrite E1.
  unfold bind, get.
  assert (Ep : previous (tasks s1 t) = previous (tasks s t))
    by (destruct S1 as (_ & S1); apply (S1 t)).
  rewrite Ep, Hp.
  split; [reflexivity |].
  split; [exact S1 |].
  split; [exact O1 |].
  split.
  { intros u Hu. destruct (Nat.eq_dec u t) as [-> | Hne].
    - split; [exact D1 | now apply K1].
    - rewrite (C1 u Hne Hu). auto. }
  split; [| exact P1].
  assert (Epost : forall u, In u post -> tasks s1 u = tasks s u)
    by (intros u Hu; apply O1; now apply Hpost).
  split; [| split].
  - intros u [<- | Hu]; [exact D1 |].
    rewrite Epost by assumption. now apply Hclean.
  - simpl. split.
    + rewrite V1. destruct S1 as (_ & S1).
      destruct (S1 t) as (_ & _ & _ & Ed & Et & _).
      unfold v. destruct post as [|n post']; [now rewrite Et |].
      rewrite (Epost n) by (simpl; auto). now rewrite Et, Ed.
    + apply (backward_ok_same s); [| exact Hbw]. exact Epost.
  - intros u [<- | Hu]; [exact F1 |].
    rewrite Epost by assumption. now apply Hfits.
Qed.

Lemma schedule_backward_loop_ends pre : forall t post s o k fuel,
  NoDup (pre ++ t :: post) ->
  seg s o None (pre ++ t :: post) None ->
  swept s post ->
  (length pre < k)%nat ->
  (length pre + 1 < fuel)%nat ->
  ends (schedule_backward_loop k fuel (Some t)) s
       (fun _ s' => backward_post (pre ++ [t]) (pre ++ t :: post) s s')
       (backward_fail (pre ++ [t]) (pre ++ t :: post) s).
Proof.
  induction pre as [|q pre IH] using rev_ind;
    intros t post s o k fuel Hnd Hseg Hsw Hk Hf.
  all: destruct fuel as [|fuel]; [lia |].
  all: destruct (backward_step _ _ _ _ _ _ fuel Hnd Hseg Hsw Hk)
    as [(s1 & E1 & S1 & O1 & C1 & W1 & P1) | (s1 & E1 & S1 & O1 & N1)].
  all: try (eapply ends_raised; [exact E1 |];
            split; [reflexivity | split; [exact S1 | split; [exact O1 | exact N1]]]).
  - eapply ends_done.
    { rewrite E1. simpl last_or. apply backward_loop_done. simpl in Hf. lia. }
    split; [exact S1 |].
    split; [exact O1 |].
    split; [intros u Hu; now apply C1 |].
    split; assumption.
  - rewrite length_app in Hk, Hf. simpl in Hk, Hf.
    assert (Hl : (pre ++ [q]) ++ t :: post = pre ++ q :: t :: post)
      by (rewrite <- app_assoc; reflexivity).
    rewrite Hl in *.
    assert (IH1 := IH q (t :: post) s1 o k fuel Hnd
                      (seg_static _ _ _ _ _ _ S1 Hseg) W1 ltac:(lia) ltac:(lia)).
    rewrite last_or_snoc in E1.
    assert (Hsub : forall u, ~ In u ((pre ++ [q]) ++ [t]) -> ~ In u (pre ++ [q])).
    { intros u Hu Hin. apply Hu. apply in_or_app. now left. }
    unfold ends in *. rewrite E1.
    destruct (schedule_backward_loop k fuel (Some q) s1) as [[] s' | e s' |];
      [| | contradiction].
    + destruct IH1 as (S' & O' & C' & W' & P').
      split; [eapply static_eq_trans; eauto |].
      split.
      { intros u Hu. rewrite O', O1; auto. }
      split.
      { intros u Hu. destruct (C1 u Hu) as (D1 & K1). rewrite C', K1; auto. }
      split; [exact W' | congruence].
    + destruct IH1 as (-> & S' & O' & N').
      split; [reflexivity |].
      split; [eapply static_eq_trans; eauto |].
      split.
      { intros u Hu. rewrite O', O1; auto. }
      intros (H1 & H2). apply N'. split.
      * eapply es_fit_same_plan; eauto.
      * eapply targets_fit_static; eauto.
Qed.

(** ** The forward sweep *)

Lemma forward_loop_done k fuel score s :
  (0 < fuel)%nat -> schedule_forward_loop k fuel None score s = Done score s.
Proof. destruct fuel; [lia | reflexivity]. Qed.

Lemma forward_store_static s p t : static_eq s (forward_store s p t).
Proof. destruct p; simpl; [solve_static | apply static_eq_refl]. Qed.

Lemma forward_store_other s p t u :
  u <> t -> tasks (forward_store s p t) u = tasks s u.
Proof.
  intros H. destruct p; unfold forward_store; [| reflexivity].
  unfold set__start. now rewrite tasks_upd_task_other.
Qed.

Lemma forward_store_cache s p t u :
  _dirty (tasks (forward_store s p t) u) = _dirty (tasks s u) /\
  _earliest_start (tasks (forward_store s p t) u) = _earliest_start (tasks s u).
Proof.
  destruct p; simpl; [| auto].
  destruct (Nat.eqb u t); auto.
Qed.

Lemma forward_store_start s p t :
  _start (tasks (forward_store s p t) t) =
  match p with
  | None => _start (tasks s t)
  | Some q =>
      Z.max (_earliest_start (tasks s t))
            (Z.max (_start (tasks s q) + _duration (tasks s q)
                    + _min_margin_before (tasks s t))
                   (_start (tasks s t)))
  end.
Proof.
  destruct p; unfold forward_store; [| reflexivity].
  unfold set__start. now rewrite tasks_upd_task_same.
Qed.

(** One turn of the loop of [schedule_forward] on an all-clean chain. *)
Lemma forward_step pre t post s o k fuel score :
  seg s o None (pre ++ t :: post) None ->
  all_clean s (pre ++ t :: post) ->
  let p := last_or None pre in
  let s1 := forward_store s p t in
  schedule_forward_loop k (S fuel) (Some t) score s =
  if forward_fits s p t then
    if fits_int (score + lateness s1 t) then
      schedule_forward_loop k fuel (hd_or None post) (score + lateness s1 t) s1
    else Raised OverflowError s1
  else Raised OverflowError s.
Proof.
  intros Hseg Hclean p s1.
  destruct (seg_middle _ _ _ _ _ _ _ Hseg) as (Hp & Hn & _ & _).
  assert (Hct : _dirty (tasks s t) = false)
    by (apply Hclean; apply in_or_app; simpl; auto).
  assert (Hc1 : _dirty (tasks s1 t) = false)
    by (unfold s1; now rewrite (proj1 (forward_store_cache _ _ _ _))).
  assert (Hn1 : next (tasks s1 t) = hd_or None post).
  { destruct (forward_store_static s p t) as (_ & S1).
    destruct (S1 t) as (En & _). fold s1 in En. now rewrite En. }
  simpl. unfold bind at 1 2. unfold get at 1. rewrite Hp.
  fold p. subst s1.
  assert (Hcp : forall x, p = Some x -> _dirty (tasks s x) = false).
  { intros x Hx. apply Hclean. apply in_or_app. left.
    now apply last_or_In_None. }
  clearbody p. destruct p as [x|].
  - unfold forward_fits. rewrite forward_store_start.
    unfold bind at 1. rewrite (start_clean k x s (Hcp x eq_refl)).
    unfold bind at 1. unfold get at 1. unfold bind at 1. unfold get at 1.
    unfold bind at 1. rewrite (start_clean k t s Hct).
    rewrite (set_start_clean k t _ s Hct).
    fold (forward_store s (Some x) t).
    destruct (fits_int _); [| reflexivity].
    unfold bind at 1. rewrite (start_clean k t _ Hc1).
    unfold bind at 1. unfold get at 1.
    unfold bind at 1. unfold as_int. unfold lateness.
    destruct (fits_int _); [| reflexivity].
    unfold bind, get. rewrite Hn1. reflexivity.
  - cbn [forward_fits forward_store] in *. unfold ret at 1.
    unfold bind at 1. rewrite (start_clean k t s Hct).
    unfold bind at 1. unfold get at 1.
    unfold bind at 1. unfold as_int. unfold lateness.
    destruct (fits_int _); [| reflexivity].
    unfold bind, get. rewrite Hn. reflexivity.
Qed.

Lemma forward_ok_base s0 s0' s p l :
  (forall u, same_static (tasks s0' u) (tasks s0 u)) ->
  (forall u, In u l -> tasks s0' u = tasks s0 u) ->
  forward_ok s0 s p l -> forward_ok s0' s p l.
Proof.
  intros Hst. revert p. induction l as [|t l IH]; simpl; auto.
  intros p Hl (Ht & Hrest).
  split; [| apply IH; auto].
  rewrite Ht, (Hl t) by auto.
  destruct p as [q|]; [| reflexivity].
  destruct (Hst q) as (_ & _ & _ & Ed & _). now rewrite Ed.
Qed.

Lemma total_lateness_same s s' l :
  (forall u, In u l -> tasks s' u = tasks s u) ->
  total_lateness s' l = total_lateness s l.
Proof.
  induction l as [|t l IH]; simpl; auto.
  intros H. rewrite IH by auto. unfold lateness. now rewrite (H t) by auto.
Qed.

Lemma schedule_forward_loop_ends post : forall pre t s o k fuel score,
  NoDup (pre ++ t :: post) ->
  seg s o None (pre ++ t :: post) None ->
  all_clean s (pre ++ t :: post) ->
  (length post + 1 < fuel)%nat ->
  ends (schedule_forward_loop k fuel (Some t) score) s
       (forward_post (last_or None pre) (t :: post) score s)
       (forward_fail (t :: post) s).
Proof.
  induction post as [|n post IH]; intros pre t s o k fuel score Hnd Hseg Hclean Hf.
  all: destruct fuel as [|fuel]; [lia |].
  all: unfold ends; rewrite (forward_step pre t _ s o k fuel score Hseg Hclean).
  all: destruct (NoDup_middle _ _ _ Hnd) as (Htpre & Htpost & Hpost & Hpre).
  all: assert (Hq : forall q, last_or None pre = Some q -> q <> t)
    by (intros q Hq; apply last_or_In_None in Hq; intros ->; contradiction).
  all: assert (Hq' : forall q, last_or None pre = Some q -> In q pre)
    by (intros q Hq'; now apply last_or_In_None in Hq').
  all: remember (last_or None pre) as p eqn:Ep; clear Ep.
  all: destruct (forward_fits s p t) eqn:Hfit;
    [| split; [reflexivity | split; [apply static_eq_refl | split; auto]]].
  all: set (s1 := forward_store s p t) in *.
  all: destruct (fits_int (score + lateness s1 t)) eqn:Hscore;
    [| split; [reflexivity |];
       split; [apply forward_store_static |];
       split; [| intros u; apply forward_store_cache];
       intros u Hu; apply forward_store_other; intros ->; apply Hu;
       simpl; auto].
  all: assert (Hst : forall u, In u [t] ->
                 fits_int (_start (tasks s u)) = true ->
                 fits_int (_start (tasks s1 u)) = true).
  all: try (intros u [<- | []] Hu; unfold s1;
            destruct p as [q|]; [exact Hfit | exact Hu]).
  - cbn [hd_or].
    rewrite forward_loop_done by (simpl in Hf; lia).
    split; [apply forward_store_static |].
    split.
    { intros u Hu. apply forward_store_other. intros ->. apply Hu. simpl; auto. }
    split; [intros u; apply forward_store_cache |].
    split.
    { cbn [forward_ok]. split; [| exact I].
      unfold s1. rewrite forward_store_start.
      destruct p as [q|]; [| reflexivity].
      rewrite forward_store_other by (now apply Hq). reflexivity. }
    split; [cbn [total_lateness fold_right]; now rewrite Z.add_0_r |].
    split; [exact Hscore |].
    exact Hst.
  - cbn [hd_or].
    assert (Hl : (pre ++ [t]) ++ n :: post = pre ++ t :: n :: post)
      by (rewrite <- app_assoc; reflexivity).
    assert (IH1 := IH (pre ++ [t]) n s1 o k fuel (score + lateness s1 t)).
    rewrite Hl in IH1. specialize (IH1 Hnd).
    specialize (IH1 (seg_static _ _ _ _ _ _ (forward_store_static s p t) Hseg)).
    assert (Hc1 : all_clean s1 (pre ++ t :: n :: post)).
    { intros u Hu. unfold s1.
      rewrite (proj1 (forward_store_cache _ _ _ _)). now apply Hclean. }
    specialize (IH1 Hc1 ltac:(simpl in Hf; lia)).
    unfold ends in IH1.
    destruct (schedule_forward_loop k fuel (Some n) (score + lateness s1 t) s1)
      as [v s' | e s' |]; [| | contradiction].
    + destruct IH1 as (S' & O' & C' & F' & V' & FV & FS).
      assert (Et : tasks s' t = tasks s1 t).
      { apply O'. intros Hin. apply Htpost. exact Hin. }
      split; [eapply static_eq_trans; [apply forward_store_static | exact S'] |].
      split.
      { intros u Hu. rewrite O'.
        - apply forward_store_other. intros ->. apply Hu. simpl; auto.
        - intros Hin. apply Hu. simpl. auto. }
      split.
      { intros u. destruct (C' u) as (D1 & K1).
        destruct (forward_store_cache s p t u) as (D2 & K2). fold s1 in D2, K2.
        split; congruence. }
      rewrite last_or_snoc in F'.
      split.
      { cbn [forward_ok]. split.
        - rewrite Et. unfold s1. rewrite forward_store_start.
          destruct p as [q|]; [| reflexivity].
          pose proof (Hq q eq_refl) as Hqt.
          rewrite (O' q) by (intros Hin; apply (Hpre q (Hq' q eq_refl)); simpl; auto).
          fold s1. unfold s1 at 1.
          rewrite forward_store_other by assumption. reflexivity.
        - change (forward_ok s s' (Some t) (n :: post)).
          apply (forward_ok_base s1).
          + intros u. destruct (forward_store_static s p t) as (_ & S1).
            destruct (S1 u) as (?&?&?&?&?&?). unfold s1. repeat split; congruence.
          + intros u Hu. symmetry. apply forward_store_other.
            intros ->. apply Htpost. exact Hu.
          + exact F'. }
      split.
      { assert (lateness s' t = lateness s1 t) by (unfold lateness; now rewrite Et).
        cbn [total_lateness fold_right] in *. lia. }
      split; [exact FV |].
      intros u [<- | Hu] Hfu.
      * rewrite Et. apply Hst; simpl; auto.
      * apply FS; [exact Hu |].
        unfold s1. rewrite forward_store_other; [exact Hfu |].
        intros ->. apply Htpost. exact Hu.
    + destruct IH1 as (-> & S' & O' & C').
      split; [reflexivity |].
      split; [eapply static_eq_trans; [apply forward_store_static | exact S'] |].
      split.
      { intros u Hu. rewrite O'.
        - apply forward_store_other. intros ->. apply Hu. simpl; auto.
        - intros Hin. apply Hu. simpl. auto. }
      intros u. destruct (C' u) as (D1 & K1).
      destruct (forward_store_cache s p t u) as (D2 & K2). fold s1 in D2, K2.
      split; congruence.
Qed.

(** ** [schedule] *)

Lemma backward_ok_at s l : forall pre t post,
  backward_ok s l -> l = pre ++ t :: post ->
  _start (tasks s t) =
  Z.max (_earliest_start (tasks s t))
        (match post with
         | [] => _target (tasks s t)
         | n :: _ => Z.min (_target (tasks s t))
                           (_start (tasks s n) - _min_margin_before (tasks s n)
                            - _duration (tasks s t))
         end).
Proof.
  intros pre. revert l. induction pre as [|x pre IH]; intros l t post H ->.
  - simpl in H. apply H.
  - simpl in H. destruct H as (_ & H). eapply IH; eauto.
Qed.

(** The backward sweep run from the tail of a chain. *)
Lemma schedule_backward_ends s o l tail_task fuel :
  NoDup l ->
  seg s o None l None ->
  last_or None l = Some tail_task ->
  (length l < fuel)%nat ->
  ends (schedule_backward fuel tail_task) s
       (fun _ s' => backward_post l l s s')
       (backward_fail l l s).
Proof.
  intros Hnd Hseg Ht Hf.
  destruct l as [|x l'] using rev_ind; [discriminate |]. clear IHl'.
  rewrite last_or_snoc in Ht. injection Ht as <-.
  rewrite length_app in Hf. simpl in Hf.
  apply (schedule_backward_loop_ends l' x [] s o fuel fuel);
    auto using swept_nil; lia.
Qed.

Lemma schedule_empty fuel self s :
  head (resources s self) = None ->
  tail (resources s self) = None ->
  schedule fuel self s = Done 0 s.
Proof.
  intros Hh Ht. unfold schedule, bind, get_resource, ret.
  now rewrite Ht, Hh.
Qed.

Lemma improve_empty fuel self s :
  tail (resources s self) = None ->
  improve fuel self s = Done 0 s.
Proof.
  intros Ht. unfold improve, bind, get_resource, ret.
  now rewrite Ht.
Qed.

(** [schedule()] on a non-empty chain, in terms of the two sweeps. *)
Lemma schedule_unfold s r l h tl fuel :
  chain s (Some r) l -> hd_or None l = Some h -> last_or None l = Some tl ->
  (length l < fuel)%nat ->
  schedule fuel r s =
  match schedule_backward fuel tl s with
  | Done _ sb => schedule_forward fuel h sb
  | Raised e sb => Raised e sb
  | OutOfFuel => OutOfFuel
  end.
Proof.
  intros (Hnd & Hseg & Hh & Ht) Eh Et Hf.
  unfold schedule. unfold bind at 1. unfold get_resource at 1.
  rewrite Ht, Et. unfold bind at 1. unfold bind at 1.
  pose proof (schedule_backward_ends s (Some r) l tl fuel Hnd Hseg Et Hf) as H.
  unfold ends in H.
  destruct (schedule_backward fuel tl s) as [[] sb | e sb |] eqn:Eb;
    try reflexivity.
  unfold get_resource.
  destruct H as ((Rb & _) & _).
  now rewrite Rb, Hh, Eh.
Qed.

Lemma schedule_ends s r l fuel :
  chain s (Some r) l -> l <> [] -> (length l < fuel)%nat ->
  ends (schedule fuel r) s (schedule_post l s) (schedule_fail l s).
Proof.
  intros Hc Hne Hf.
  pose proof Hc as (Hnd & Hseg & Hh & Ht).
  destruct (last_or None l) as [tl|] eqn:Et;
    [| apply last_or_None_nil in Et; contradiction].
  destruct l as [|h post] eqn:El; [contradiction |].
  rewrite <- El in *.
  assert (Eh : hd_or None l = Some h) by (now rewrite El).
  unfold ends. rewrite (schedule_unfold s r l h tl fuel Hc Eh Et Hf).
  pose proof (schedule_backward_ends s (Some r) l tl fuel Hnd Hseg Et Hf) as Hb.
  unfold ends in Hb.
  destruct (schedule_backward fuel tl s) as [[] sb | e sb |];
    [| | contradiction].
  2: { destruct Hb as (-> & Sb & Ob & _). repeat split; auto; apply Sb. }
  pose proof Hb as (Sb & Ob & Cb & (Ab & Bb & Fb) & Pb).
  assert (Hlen : (length post + 1 < fuel)%nat).
  { rewrite El in Hf. simpl in Hf. lia. }
  pose proof (schedule_forward_loop_ends post [] h sb (Some r) fuel fuel 0) as Hfw.
  cbn [app last_or] in Hfw. rewrite <- El in Hfw.
  specialize (Hfw Hnd (seg_static _ _ _ _ _ _ Sb Hseg) Ab Hlen).
  unfold ends in Hfw. unfold schedule_forward.
  destruct (schedule_forward_loop fuel fuel (Some h) 0 sb) as [v s' | e s' |];
    [| | contradiction].
  - exists sb. split; assumption.
  - destruct Hfw as (-> & Sf & Of & _).
    split; [reflexivity |].
    split; [eapply static_eq_trans; eauto |].
    intros u Hu. rewrite Of, Ob; auto.
Qed.

(** What follows from [schedule_post]. *)
Lemma schedule_post_facts l s score s' :
  schedule_post l s score s' ->
  static_eq s s' /\
  (forall u, ~ In u l -> tasks s' u = tasks s u) /\
  (forall u, _dirty (tasks s u) = false ->
             _earliest_start (tasks s' u) = _earliest_start (tasks s u)) /\
  all_clean s' l /\
  score = total_lateness s' l /\
  fits_int score = true /\
  (forall u, In u l -> fits_int (_start (tasks s' u)) = true) /\
  plan s' None l = plan s None l.
Proof.
  intros (sb & (Sb & Ob & Cb & (Ab & Bb & Fb) & Pb)
             & (Sf & Of & Cf & Ff & Vf & FVf & FSf)).
  split; [eapply static_eq_trans; eauto |].
  split; [intros u Hu; rewrite Of, Ob; auto |].
  split; [intros u Hu; rewrite (proj2 (Cf u)); now apply Cb |].
  split; [intros u Hu; rewrite (proj1 (Cf u)); now apply Ab |].
  split; [lia |].
  split; [exact FVf |].
  split; [intros u Hu; apply FSf; auto |].
  rewrite <- Pb. apply plan_ext. intros u Hu.
  destruct (Cf u) as (D & K). destruct Sf as (_ & Tf).
  destruct (Tf u) as (_ & _ & _ & Ed & _ & Em). auto.
Qed.

(** ** The sweeps on a chain that has been scheduled before *)

Lemma same_static_sym a b : same_static a b -> same_static b a.
Proof. intros (?&?&?&?&?&?). repeat split; congruence. Qed.

Lemma lateness_nonneg s t : 0 <= lateness s t.
Proof. unfold lateness. lia. Qed.

Lemma total_lateness_nonneg s l : 0 <= total_lateness s l.
Proof.
  induction l as [|t l IH]; simpl; [lia |].
  pose proof (lateness_nonneg s t). lia.
Qed.

(** One turn of the loop of [schedule_backward] when [t] and its successor
    are clean. *)
Lemma backward_step_clean pre t post s o k fuel :
  seg s o None (pre ++ t :: post) None ->
  all_clean s (t :: post) ->
  let v := Z.max (_earliest_start (tasks s t))
                 (match post with
                  | [] => _target (tasks s t)
                  | n :: _ =>
                      Z.min (_target (tasks s t))
                            (_start (tasks s n) - _min_margin_before (tasks s n)
                             - _duration (tasks s t))
                  end) in
  schedule_backward_loop k (S fuel) (Some t) s =
  if fits_int v then schedule_backward_loop k fuel (last_or None pre)
                       (set__start t v s)
  else Raised OverflowError s.
Proof.
  intros Hseg Hclean v.
  destruct (seg_middle _ _ _ _ _ _ _ Hseg) as (Hp & Hn & _ & _).
  assert (Hct : _dirty (tasks s t) = false) by (apply Hclean; simpl; auto).
  simpl. unfold bind at 1. unfold get at 1. rewrite Hn.
  subst v. destruct post as [|n post']; cbn [hd_or].
  - unfold bind at 1. unfold bind at 1. unfold get at 1.
    rewrite (set_start_clean k t _ s Hct).
    destruct (fits_int _); [| reflexivity].
    unfold bind, get. unfold set__start at 1.
    rewrite tasks_upd_task_same. cbn [previous with_start]. now rewrite Hp.
  - assert (Hcn : _dirty (tasks s n) = false) by (apply Hclean; simpl; auto).
    unfold bind at 1. unfold bind at 1. unfold get at 1.
    unfold bind at 1. rewrite (start_clean k n s Hcn).
    unfold bind at 1. unfold get at 1. unfold bind at 1. unfold get at 1.
    rewrite (set_start_clean k t _ s Hct).
    destruct (fits_int _); [| reflexivity].
    unfold bind, get. unfold set__start at 1.
    rewrite tasks_upd_task_same. cbn [previous with_start]. now rewrite Hp.
Qed.

(** The backward sweep run again: [s] is all clean and has the caches and
    parameters of a store [sb] that a backward sweep has left. *)
Lemma backward_replay_step pre t post s sb o k fuel :
  seg s o None (pre ++ t :: post) None ->
  all_clean s (pre ++ t :: post) ->
  (forall u, In u (pre ++ t :: post) ->
     _earliest_start (tasks sb u) = _earliest_start (tasks s u) /\
     same_static (tasks sb u) (tasks s u)) ->
  backward_ok sb (pre ++ t :: post) ->
  fits_int (_start (tasks sb t)) = true ->
  (forall u, In u post -> _start (tasks s u) = _start (tasks sb u)) ->
  schedule_backward_loop k (S fuel) (Some t) s =
  schedule_backward_loop k fuel (last_or None pre)
    (set__start t (_start (tasks sb t)) s).
Proof.
  intros Hseg Hclean Hsame Hbw Hfit Hpost.
  assert (Hct : all_clean s (t :: post))
    by (intros u Hu; apply Hclean; apply in_or_app; now right).
  rewrite (backward_step_clean pre t post s o k fuel Hseg Hct).
  assert (Hin : In t (pre ++ t :: post)) by (apply in_or_app; simpl; eauto).
  destruct (Hsame t Hin) as (Ee & _ & _ & _ & Ed & Etg & _).
  assert (Ev : Z.max (_earliest_start (tasks s t))
                 (match post with
                  | [] => _target (tasks s t)
                  | n :: _ =>
                      Z.min (_target (tasks s t))
                            (_start (tasks s n) - _min_margin_before (tasks s n)
                             - _duration (tasks s t))
                  end) = _start (tasks sb t)).
  { rewrite (backward_ok_at sb _ pre t post Hbw eq_refl), Ee, Etg.
    destruct post as [|n post']; [reflexivity |].
    rewrite (Hpost n) by (simpl; auto).
    assert (Hn : In n (pre ++ t :: n :: post'))
      by (apply in_or_app; simpl; eauto).
    destruct (Hsame n Hn) as (_ & _ & _ & _ & _ & _ & Em).
    now rewrite Em, Ed. }
  cbv zeta. rewrite Ev, Hfit. reflexivity.
Qed.

Lemma backward_replay pre : forall t post s sb o k fuel,
  NoDup (pre ++ t :: post) ->
  seg s o None (pre ++ t :: post) None ->
  all_clean s (pre ++ t :: post) ->
  (forall u, In u (pre ++ t :: post) ->
     _earliest_start (tasks sb u) = _earliest_start (tasks s u) /\
     same_static (tasks sb u) (tasks s u)) ->
  backward_ok sb (pre ++ t :: post) ->
  (forall u, In u (pre ++ [t]) -> fits_int (_start (tasks sb u)) = true) ->
  (forall u, In u post -> _start (tasks s u) = _start (tasks sb u)) ->
  (length pre + 1 < fuel)%nat ->
  exists s',
    schedule_backward_loop k fuel (Some t) s = Done tt s' /\
    static_eq s s' /\
    (forall u, ~ In u (pre ++ [t]) -> tasks s' u = tasks s u) /\
    (forall u, _dirty (tasks s' u) = _dirty (tasks s u) /\
               _earliest_start (tasks s' u) = _earliest_start (tasks s u)) /\
    (forall u, In u (pre ++ t :: post) ->
               _start (tasks s' u) = _start (tasks sb u)).
Proof.
  induction pre as [|q pre IH] using rev_ind;
    intros t post s sb o k fuel Hnd Hseg Hclean Hsame Hbw Hfit Hpost Hf.
  all: destruct fuel as [|fuel]; [lia |].
  all: rewrite (backward_replay_step _ t post s sb o k fuel Hseg Hclean Hsame Hbw
                  (Hfit t ltac:(apply in_or_app; simpl; auto)) Hpost).
  all: set (s1 := set__start t (_start (tasks sb t)) s).
  all: assert (S1 : static_eq s s1) by (unfold s1; solve_static).
  all: assert (O1 : forall u, u <> t -> tasks s1 u = tasks s u)
    by (intros u Hu; unfold s1, set__start; now rewrite tasks_upd_task_other).
  all: assert (C1 : forall u, _dirty (tasks s1 u) = _dirty (tasks s u) /\
                 _earliest_start (tasks s1 u) = _earliest_start (tasks s u))
    by (intros u; unfold s1, set__start; simpl; destruct (Nat.eqb u t); auto).
  all: assert (V1 : _start (tasks s1 t) = _start (tasks sb t))
    by (unfold s1, set__start; now rewrite tasks_upd_task_same).
  all: destruct (NoDup_middle _ _ _ Hnd) as (Htpre & Htpost & Hpost' & Hpre).
  - exists s1. cbn [last_or].
    split; [apply backward_loop_done; simpl in Hf; lia |].
    split; [exact S1 |].
    split; [intros u Hu; apply O1; intros ->; apply Hu; simpl; auto |].
    split; [exact C1 |].
    intros u [<- | Hu]; [exact V1 |].
    rewrite O1 by (intros ->; contradiction). now apply Hpost.
  - rewrite length_app in Hf. simpl in Hf. rewrite last_or_snoc.
    assert (Hl : (pre ++ [q]) ++ t :: post = pre ++ q :: t :: post)
      by (rewrite <- app_assoc; reflexivity).
    rewrite Hl in *.
    destruct (IH q (t :: post) s1 sb o k fuel) as (s' & E' & S' & O' & C' & V');
      auto; try lia.
    { eapply seg_static; eauto. }
    { intros u Hu. rewrite (proj1 (C1 u)). now apply Hclean. }
    { intros u Hu. destruct (Hsame u Hu) as (K & T).
      split; [now rewrite (proj2 (C1 u)) |].
      eapply same_static_trans; [exact T |].
      apply same_static_sym. destruct S1 as (_ & T1). apply T1. }
    { intros u Hu. apply Hfit. apply in_or_app. now left. }
    { intros u [<- | Hu]; [exact V1 |].
      rewrite O1 by (intros ->; contradiction). now apply Hpost. }
    exists s'.
    split; [exact E' |].
    split; [eapply static_eq_trans; eauto |].
    split.
    { intros u Hu. rewrite O'.
      - apply O1. intros ->. apply Hu. apply in_or_app. simpl; auto.
      - intros Hin. apply Hu. apply in_or_app. now left. }
    split.
    { intros u. destruct (C' u), (C1 u). split; congruence. }
    exact V'.
Qed.

(** The forward sweep run again: [s] is all clean, has the caches and
    parameters of the store [sb] from which a forward sweep has led to
    [s1], the starts of [s1] on the tasks in front of [t] and those of [sb]
    from [t] on. *)
Lemma forward_replay_step pre t post s sb s1 o k fuel score :
  NoDup (pre ++ t :: post) ->
  seg s o None (pre ++ t :: post) None ->
  all_clean s (pre ++ t :: post) ->
  (forall u, In u (pre ++ t :: post) ->
     _earliest_start (tasks sb u) = _earliest_start (tasks s u) /\
     same_static (tasks sb u) (tasks s u) /\
     same_static (tasks s1 u) (tasks s u)) ->
  forward_ok sb s1 (last_or None pre) (t :: post) ->
  (forall u, In u pre -> _start (tasks s u) = _start (tasks s1 u)) ->
  (forall u, In u (t :: post) -> _start (tasks s u) = _start (tasks sb u)) ->
  fits_int (_start (tasks s1 t)) = true ->
  let s2 := forward_store s (last_or None pre) t in
  _start (tasks s2 t) = _start (tasks s1 t) /\
  schedule_forward_loop k (S fuel) (Some t) score s =
  if fits_int (score + lateness s1 t) then
    schedule_forward_loop k fuel (hd_or None post) (score + lateness s1 t) s2
  else Raised OverflowError s2.
Proof.
  intros Hnd Hseg Hclean Hsame Hfw Hpre Hpost Hfit s2.
  rewrite (forward_step pre t _ s o k fuel score Hseg Hclean).
  assert (Hin : In t (pre ++ t :: post)) by (apply in_or_app; simpl; auto).
  destruct (Hsame t Hin)
    as (Ee & (_ & _ & _ & _ & _ & Em) & (_ & _ & _ & _ & Etg & _)).
  assert (Hq : forall q, last_or None pre = Some q -> In q pre)
    by (intros q Hq'; now apply last_or_In_None in Hq').
  cbv zeta.
  assert (V1 : _start (tasks s2 t) = _start (tasks s1 t)).
  { unfold s2. rewrite forward_store_start.
    cbn [forward_ok] in Hfw. destruct Hfw as (Hfw & _). rewrite Hfw.
    destruct (last_or None pre) as [q|] eqn:Eq; [| apply Hpost; simpl; auto].
    assert (Hinq : In q (pre ++ t :: post))
      by (apply in_or_app; left; now apply Hq).
    destruct (Hsame q Hinq) as (_ & (_ & _ & _ & Ed & _) & _).
    rewrite (Hpre q (Hq q eq_refl)), (Hpost t (or_introl eq_refl)).
    now rewrite Ee, Ed, Em. }
  split; [exact V1 |].
  assert (Hff : forward_fits s (last_or None pre) t = true).
  { unfold forward_fits. destruct (last_or None pre); [| reflexivity].
    fold s2. now rewrite V1. }
  rewrite Hff. fold s2.
  assert (L2 : lateness s2 t = lateness s1 t).
  { unfold lateness. rewrite V1.
    destruct (forward_store_static s (last_or None pre) t) as (_ & T2).
    destruct (T2 t) as (_ & _ & _ & _ & Et2 & _). fold s2 in Et2.
    now rewrite Et2, Etg. }
  now rewrite L2.
Qed.

Lemma forward_replay post : forall pre t s sb s1 o k fuel score,
  NoDup (pre ++ t :: post) ->
  seg s o None (pre ++ t :: post) None ->
  all_clean s (pre ++ t :: post) ->
  (forall u, In u (pre ++ t :: post) ->
     _earliest_start (tasks sb u) = _earliest_start (tasks s u) /\
     same_static (tasks sb u) (tasks s u) /\
     same_static (tasks s1 u) (tasks s u)) ->
  forward_ok sb s1 (last_or None pre) (t :: post) ->
  (forall u, In u pre -> _start (tasks s u) = _start (tasks s1 u)) ->
  (forall u, In u (t :: post) -> _start (tasks s u) = _start (tasks sb u)) ->
  (forall u, In u (t :: post) -> fits_int (_start (tasks s1 u)) = true) ->
  0 <= score ->
  fits_int (score + total_lateness s1 (t :: post)) = true ->
  (length post + 1 < fuel)%nat ->
  exists s',
    schedule_forward_loop k fuel (Some t) score s =
    Done (score + total_lateness s1 (t :: post)) s' /\
    static_eq s s' /\
    (forall u, ~ In u (t :: post) -> tasks s' u = tasks s u) /\
    (forall u, _dirty (tasks s' u) = _dirty (tasks s u) /\
               _earliest_start (tasks s' u) = _earliest_start (tasks s u)) /\
    (forall u, In u (t :: post) -> _start (tasks s' u) = _start (tasks s1 u)).
Proof.
  induction post as [|n post IH];
    intros pre t s sb s1 o k fuel score Hnd Hseg Hclean Hsame Hfw Hpre Hpost
           Hfit Hscore Hfs Hf.
  all: destruct fuel as [|fuel]; [lia |].
  all: destruct (forward_replay_step pre t _ s sb s1 o k fuel score
                   Hnd Hseg Hclean Hsame Hfw Hpre Hpost
                   (Hfit t (or_introl eq_refl))) as (V1 & E1).
  all: rewrite E1; clear E1.
  all: destruct (NoDup_middle _ _ _ Hnd) as (Htpre & Htpost & Hpost' & Hpre').
  all: set (s2 := forward_store s (last_or None pre) t) in *.
  all: assert (S2 : static_eq s s2) by apply forward_store_static.
  all: pose proof (lateness_nonneg s1 t) as Hl1.
  all: assert (O2 : forall u, u <> t -> tasks s2 u = tasks s u)
    by (intros u Hu; now apply forward_store_other).
  - cbn [total_lateness fold_right] in *. rewrite Z.add_0_r in *.
    rewrite Hfs. cbn [hd_or].
    rewrite forward_loop_done by (simpl in Hf; lia).
    exists s2. split; [reflexivity |].
    split; [exact S2 |].
    split; [intros u Hu; apply O2; intros ->; apply Hu; simpl; auto |].
    split; [intros u; apply forward_store_cache |].
    intros u [<- | []]. exact V1.
  - cbn [total_lateness fold_right] in Hfs |- *.
    pose proof (total_lateness_nonneg s1 (n :: post)) as Hrest.
    cbn [total_lateness fold_right] in Hrest.
    assert (Hsc : fits_int (score + lateness s1 t) = true).
    { apply fits_int_iff in Hfs. apply fits_int_iff.
      unfold int_min, int_max in *. lia. }
    rewrite Hsc. cbn [hd_or].
    assert (Hl : (pre ++ [t]) ++ n :: post = pre ++ t :: n :: post)
      by (rewrite <- app_assoc; reflexivity).
    destruct (IH (pre ++ [t]) n s2 sb s1 o k fuel (score + lateness s1 t))
      as (s' & E' & S' & O' & C' & V'); try (simpl in Hf; lia).
    { now rewrite Hl. }
    { rewrite Hl. eapply seg_static; eauto. }
    { rewrite Hl. intros u Hu. unfold s2.
      rewrite (proj1 (forward_store_cache _ _ _ _)). now apply Hclean. }
    { rewrite Hl. intros u Hu. destruct (Hsame u Hu) as (K & T & T').
      destruct S2 as (_ & T2).
      split; [unfold s2; now rewrite (proj2 (forward_store_cache _ _ _ _)) |].
      split; (eapply same_static_trans; [eassumption |]);
        apply same_static_sym; apply T2. }
    { rewrite last_or_snoc. cbn [forward_ok] in Hfw. apply Hfw. }
    { intros u Hu. apply in_app_or in Hu. destruct Hu as [Hu | [<- | []]].
      - rewrite O2; [now apply Hpre |]. intros ->. contradiction.
      - exact V1. }
    { intros u Hu. rewrite O2.
      - apply Hpost. now right.
      - intros ->. contradiction. }
    { intros u Hu. apply Hfit. now right. }
    { cbn [total_lateness fold_right].
      now rewrite Z.add_assoc in Hfs. }
    exists s'. rewrite E'.
    split.
    { f_equal. cbn [total_lateness fold_right]. lia. }
    split; [eapply static_eq_trans; eauto |].
    split.
    { intros u Hu. rewrite O'.
      - apply O2. intros ->. apply Hu. simpl; auto.
      - intros Hin'. apply Hu. now right. }
    split.
    { intros u. destruct (C' u) as (D1 & K1).
      destruct (forward_store_cache s (last_or None pre) t u) as (D2 & K2).
      fold s2 in D2, K2. split; congruence. }
    intros u [<- | Hu]; [| now apply V'].
    rewrite O'; [exact V1 |]. exact Htpost.
Qed.

Lemma last_or_split (l : list tid) x :
  last_or None l = Some x -> exists l', l = l' ++ [x].
Proof.
  destruct l as [|y l'] using rev_ind; [discriminate |].
  rewrite last_or_snoc. intros [= <-]. eauto.
Qed.

Lemma hd_or_split (l : list tid) x :
  hd_or None l = Some x -> exists l', l = x :: l'.
Proof. destruct l; [discriminate |]. intros [= <-]. eauto. Qed.

(** [schedule()] called on the store that [schedule()] has left. *)
Lemma schedule_again s r l fuel score s1 :
  chain s (Some r) l -> l <> [] -> (length l < fuel)%nat ->
  schedule_post l s score s1 ->
  exists s2,
    schedule fuel r s1 = Done score s2 /\
    (forall t, tasks s2 t = tasks s1 t) /\
    (forall r', resources s2 r' = resources s1 r').
Proof.
  intros Hc Hne Hf Hpost.
  pose proof (schedule_post_facts l s score s1 Hpost)
    as (S1 & O1 & _ & A1 & Escore & Fscore & Fs1 & _).
  destruct Hpost as (sb & (Sb & Ob & Cb & (Ab & Bb & Fb) & Pb)
                        & (Sf & Of & Cf & Ff & Vf & FVf & FSf)).
  assert (Hc1 : chain s1 (Some r) l) by (eapply chain_static; eauto).
  pose proof Hc1 as (Hnd & Hseg & Hh & Ht).
  destruct (last_or None l) as [tl|] eqn:Et;
    [| apply last_or_None_nil in Et; contradiction].
  destruct (hd_or None l) as [h|] eqn:Eh;
    [| apply hd_or_None_nil in Eh; contradiction].
  rewrite (schedule_unfold s1 r l h tl fuel Hc1 Eh Et Hf).
  assert (Hsame : forall u, In u l ->
            _earliest_start (tasks sb u) = _earliest_start (tasks s1 u) /\
            same_static (tasks sb u) (tasks s1 u)).
  { intros u _. split; [symmetry; apply Cf |].
    apply same_static_sym. destruct Sf as (_ & Tf). apply Tf. }
  destruct (last_or_split l tl Et) as (l' & El').
  destruct (hd_or_split l h Eh) as (post & El).
  (* the backward sweep *)
  pose proof (backward_replay l' tl [] s1 sb (Some r) fuel fuel) as Hb.
  rewrite <- El' in Hb.
  destruct Hb as (sb' & Eb & Sb' & Ob' & Cb' & Vb'); auto.
  { intros u []. }
  { apply (f_equal (@length tid)) in El'. rewrite length_app in El'.
    simpl in El'. lia. }
  unfold schedule_backward. rewrite Eb.
  (* the forward sweep *)
  pose proof (forward_replay post [] h sb' sb s1 (Some r) fuel fuel 0) as Hfw.
  cbn [app last_or] in Hfw. rewrite <- El in Hfw.
  destruct Hfw as (s2 & Ef & Sf' & Of' & Cf' & Vf'); auto; try lia.
  { eapply seg_static; eauto. }
  { intros u Hu. rewrite (proj1 (Cb' u)). now apply A1. }
  { intros u Hu. destruct (Hsame u Hu) as (K & T).
    destruct Sb' as (_ & Tb').
    split; [rewrite (proj2 (Cb' u)); exact K |].
    split.
    - eapply same_static_trans; [exact T |].
      apply same_static_sym. apply Tb'.
    - apply same_static_sym. apply Tb'. }
  { intros u []. }
  { now rewrite <- Vf. }
  { apply (f_equal (@length tid)) in El. simpl in El. lia. }
  exists s2. unfold schedule_forward. rewrite Ef.
  split; [f_equal; lia |].
  split.
  - intros t. destruct (in_dec Nat.eq_dec t l) as [Hin | Hout].
    + destruct Sb' as (_ & Tb'). destruct Sf' as (_ & Tf').
      destruct (same_static_trans _ _ _ (Tf' t) (Tb' t)) as (?&?&?&?&?&?).
      destruct (Cf' t) as (D2 & K2). destruct (Cb' t) as (D1 & K1).
      apply task_ext; auto; congruence.
    + rewrite Of' by exact Hout. now apply Ob'.
  - intros r'. destruct Sb' as (Rb' & _). destruct Sf' as (Rf' & _).
    now rewrite Rf', Rb'.
Qed.

(** * Local search *)

(** ** The overriding link methods *)

(** Each of the four overrides stops at [super()]. *)
Lemma move_in_raises fuel t s : move_in fuel t s = Raised RuntimeError s.
Proof. reflexivity. Qed.

Lemma move_out_raises fuel t s : move_out fuel t s = Raised RuntimeError s.
Proof. reflexivity. Qed.

Lemma insert_raises fuel t u s : insert fuel t u s = Raised RuntimeError s.
Proof. reflexivity. Qed.

Lemma drop_after_invalidate fuel t s :
  drop fuel t s =
  match invalidate fuel t s with
  | Done _ s' => Raised RuntimeError s'
  | Raised e s' => Raised e s'
  | OutOfFuel => OutOfFuel
  end.
Proof. unfold drop, bind. destruct (invalidate fuel t s); reflexivity. Qed.

(** ** The evaluation of an exchange *)

Lemma bind_executed {A} (m : M A) (k1 k2 : A -> M Z) s :
  (forall a s', k1 a s' = executed (k2 a s')) ->
  bind m k1 s = executed (bind m k2 s).
Proof. intros H. unfold bind. destruct (m s); auto. Qed.

Lemma improvement_move_in_execute fuel task s :
  improvement_move_in fuel task true s =
  executed (improvement_move_in fuel task false s).
Proof.
  unfold improvement_move_in.
  apply bind_executed. intros [t1|] s0; [| reflexivity].
  do 16 (apply bind_executed; intros).
  cbv zeta. cbn [andb].
  destruct (_ <? 0) eqn:Hg;
    unfold bind, ret, executed, move_in, super_call, raise;
    rewrite Hg; reflexivity.
Qed.

Lemma ends_bind_get {A B} (f : SchedulingTask -> A) t (k : A -> M B) s Q E :
  ends (k (f (tasks s t))) s Q E -> ends (bind (get f t) k) s Q E.
Proof. auto. Qed.

Lemma ends_bind_as_int {B} z (k : Z -> M B) s Q (E : exn -> Store -> Prop) :
  (fits_int z = true -> ends (k z) s Q E) ->
  (fits_int z = false -> E OverflowError s) ->
  ends (bind (as_int z) k) s Q E.
Proof.
  unfold ends, bind, as_int. destruct (fits_int z); intros H1 H2.
  - now apply H1.
  - now apply H2.
Qed.

Lemma tidied_trans A B s1 s2 s3 :
  (forall u, In u A -> In u B) ->
  tidied A s1 s2 -> tidied B s2 s3 -> tidied B s1 s3.
Proof.
  intros Hsub (S1 & O1 & C1) (S2 & O2 & C2).
  split; [eapply static_eq_trans; eauto | split].
  - intros u Hu. rewrite O2 by assumption. apply O1.
    intros Hin. apply Hu. now apply Hsub.
  - intros u Hu. rewrite <- (C1 u Hu). apply C2. now rewrite (C1 u Hu).
Qed.

Lemma exchange_gain_same s s' t1 t2 :
  tasks s' t1 = tasks s t1 -> tasks s' t2 = tasks s t2 ->
  exchange_gain s' t1 t2 = exchange_gain s t1 t2.
Proof. unfold exchange_gain. now intros -> ->. Qed.

(** The dry run on the task [t2] whose predecessor is [t1]. *)
Lemma improvement_dry_ends pre t1 t2 post s o n fuel :
  NoDup (pre ++ t1 :: t2 :: post) ->
  seg s o None (pre ++ [t1; t2]) n ->
  (length pre + 1 < fuel)%nat ->
  ends (improvement_move_in fuel t2 false) s
       (gain_post pre t1 t2 s)
       (fun e s' => e = OverflowError /\ tidied (pre ++ [t1; t2]) s s').
Proof.
  intros Hnd Hseg Hf.
  assert (Hl : pre ++ [t1; t2] = (pre ++ [t1]) ++ [t2])
    by (rewrite <- app_assoc; reflexivity).
  assert (Hl' : pre ++ t1 :: t2 :: post = (pre ++ [t1]) ++ t2 :: post)
    by (rewrite <- app_assoc; reflexivity).
  pose proof Hseg as Hseg0. rewrite Hl in Hseg0.
  apply seg_app in Hseg0. destruct Hseg0 as (Hseg1 & Hseg2).
  rewrite last_or_snoc in Hseg2. destruct Hseg2 as (Hp & _).
  assert (Hsub : forall u, In u (pre ++ [t1]) -> In u (pre ++ [t1; t2])).
  { intros u Hu. rewrite Hl. apply in_or_app. now left. }
  unfold improvement_move_in.
  apply ends_bind_get. rewrite Hp.
  (* t1_cs *)
  eapply ends_bind;
    [apply (start_ends pre t1 (t2 :: post) s o _ fuel Hnd Hseg1); lia | |].
  2: { intros e s1 (-> & T1 & _). split; [reflexivity |].
       now apply (tidied_weaken (pre ++ [t1])). }
  intros v1 s1 (-> & T1 & D1 & _).
  apply ends_bind_get. apply ends_bind_as_int.
  2: { intros _. split; [reflexivity |].
       now apply (tidied_weaken (pre ++ [t1])). }
  intros F1.
  (* t2_cs *)
  assert (Hseg' : seg s1 o None ((pre ++ [t1]) ++ [t2]) n).
  { rewrite <- Hl. eapply seg_static; [apply T1 | exact Hseg]. }
  rewrite Hl' in Hnd.
  eapply ends_bind;
    [apply (start_ends (pre ++ [t1]) t2 post s1 o n fuel Hnd Hseg');
     rewrite length_app; simpl; lia | |].
  2: { intros e s2 (-> & T2 & _). split; [reflexivity |].
       rewrite Hl. eapply tidied_trans; [| exact T1 | exact T2].
       rewrite <- Hl. exact Hsub. }
  intros v2 s2 (-> & T2 & D2 & _).
  assert (T12 : tidied (pre ++ [t1; t2]) s s2).
  { rewrite Hl. eapply tidied_trans; [| exact T1 | exact T2].
    rewrite <- Hl. exact Hsub. }
  assert (E1 : tasks s2 t1 = tasks s1 t1) by (apply T2; exact D1).
  assert (D1' : _dirty (tasks s2 t1) = false) by (now rewrite E1).
  apply ends_bind_get. apply ends_bind_as_int; [| intros _; now split].
  intros F2.
  (* t1_as *)
  unfold ends. unfold bind at 1. rewrite (earliest_start_clean fuel t1 s2 D1').
  fold (ends (A := Z)).
  do 3 apply ends_bind_get.
  apply ends_bind_as_int; [| intros _; now split].
  intros F3.
  (* t2_as *)
  unfold ends. unfold bind at 1. rewrite (earliest_start_clean fuel t1 s2 D1').
  fold (ends (A := Z)).
  do 3 apply ends_bind_get.
  apply ends_bind_as_int; [| intros _; now split].
  intros F4.
  cbv zeta. cbn [andb]. unfold ends, bind, ret.
  split; [exact T12 | split; [exact D1' | split; [exact D2 |]]].
  unfold exchange_gain. rewrite E1. reflexivity.
Qed.

(** The call with [execute=True]. *)
Lemma improvement_exec_ends pre t1 t2 post s o n fuel :
  NoDup (pre ++ t1 :: t2 :: post) ->
  seg s o None (pre ++ [t1; t2]) n ->
  (length pre + 1 < fuel)%nat ->
  ends (improvement_move_in fuel t2 true) s
       (fun g s' => 0 <= g /\ gain_post pre t1 t2 s g s')
       (gain_fail pre t1 t2 s).
Proof.
  intros Hnd Hseg Hf.
  pose proof (improvement_dry_ends pre t1 t2 post s o n fuel Hnd Hseg Hf) as H.
  unfold ends in *. rewrite improvement_move_in_execute.
  destruct (improvement_move_in fuel t2 false s) as [g s' | e s' |];
    [| | contradiction]; cbn [executed].
  - destruct (g <? 0) eqn:Hg.
    + apply Z.ltb_lt in Hg. destruct H as (T & D1 & D2 & ->).
      split; [exact T |]. right. auto.
    + apply Z.ltb_ge in Hg. auto.
  - destruct H as (-> & T). split; [exact T | now left].
Qed.

Lemma improvement_head fuel t execute s :
  previous (tasks s t) = None ->
  improvement_move_in fuel t execute s = Done 0 s.
Proof.
  intros Hp. unfold improvement_move_in, bind, get. now rewrite Hp.
Qed.

(** ** [improve] *)

Lemma adjacent_snoc l q t t1 t2 :
  adjacent ((l ++ [q]) ++ [t]) t1 t2 ->
  (t1 = q /\ t2 = t) \/ adjacent (l ++ [q]) t1 t2.
Proof.
  intros (a & b & E).
  destruct b as [|y b'] using rev_ind.
  - left.
    change (a ++ [t1; t2]) with (a ++ [t1] ++ [t2]) in E.
    rewrite app_assoc in E.
    apply app_inj_tail in E. destruct E as (E & <-).
    apply app_inj_tail in E. destruct E as (_ & <-). auto.
  - right. clear IHb'.
    change (a ++ t1 :: t2 :: b' ++ [y]) with (a ++ (t1 :: t2 :: b') ++ [y]) in E.
    rewrite app_assoc in E.
    apply app_inj_tail in E. destruct E as (E & _).
    exists a, b'. exact E.
Qed.

Lemma adjacent_single t t1 t2 : ~ adjacent [t] t1 t2.
Proof.
  intros (a & b & E). apply (f_equal (@length tid)) in E.
  rewrite length_app in E. simpl in E. lia.
Qed.

Lemma adjacent_nil t1 t2 : ~ adjacent [] t1 t2.
Proof.
  intros (a & b & E). apply (f_equal (@length tid)) in E.
  rewrite length_app in E. simpl in E. lia.
Qed.

Lemma adjacent_last l q t : adjacent ((l ++ [q]) ++ [t]) q t.
Proof. exists l, []. now rewrite <- app_assoc. Qed.

Lemma adjacent_app l l' t1 t2 : adjacent l t1 t2 -> adjacent (l ++ l') t1 t2.
Proof.
  intros (a & b & ->). exists a, (b ++ l').
  rewrite <- app_assoc. reflexivity.
Qed.

Lemma improve_loop_done k fuel imp s :
  (0 < fuel)%nat -> improve_loop k fuel None imp s = Done imp s.
Proof. destruct fuel; [lia | reflexivity]. Qed.

(** The loop of [improve] with the cursor on [t], [pre] being the tasks in
    front of it. *)
Lemma improve_loop_ends pre : forall t post s o n k fuel imp,
  NoDup (pre ++ t :: post) ->
  seg s o None (pre ++ [t]) n ->
  (length pre < k)%nat ->
  (length pre + 1 < fuel)%nat ->
  ends (improve_loop k fuel (Some t) imp) s
       (fun v s' =>
          v = imp /\ tidied (pre ++ [t]) s s' /\
          (forall t1 t2, adjacent (pre ++ [t]) t1 t2 ->
                         0 <= exchange_gain s' t1 t2))
       (fun e s' =>
          tidied (pre ++ [t]) s s' /\
          (e = OverflowError \/
           e = RuntimeError /\
           exists t1 t2, adjacent (pre ++ [t]) t1 t2 /\
                         exchange_gain s' t1 t2 < 0)).
Proof.
  induction pre as [|q pre IH] using rev_ind;
    intros t post s o n k fuel imp Hnd Hseg Hk Hf.
  all: destruct fuel as [|fuel]; [lia |].
  - simpl in Hseg. destruct Hseg as (Hp & _).
    unfold ends. cbn [improve_loop]. unfold bind at 1.
    rewrite (improvement_head k t true s Hp). cbn.
    unfold bind, get. rewrite Hp.
    rewrite improve_loop_done by (simpl in Hf; lia).
    split; [reflexivity | split; [apply tidied_refl |]].
    intros t1 t2 H. now apply adjacent_single in H.
  - rewrite length_app in Hk, Hf. simpl in Hk, Hf.
    assert (Hl : (pre ++ [q]) ++ t :: post = pre ++ q :: t :: post)
      by (rewrite <- app_assoc; reflexivity).
    assert (Hl2 : (pre ++ [q]) ++ [t] = pre ++ [q; t])
      by (rewrite <- app_assoc; reflexivity).
    pose proof Hnd as Hnd0. rewrite Hl in Hnd.
    pose proof Hseg as Hseg0. rewrite Hl2 in Hseg.
    pose proof (improvement_exec_ends pre q t post s o n k Hnd Hseg ltac:(lia))
      as Hg.
    apply seg_app in Hseg0. destruct Hseg0 as (Hseg1 & Hseg2).
    rewrite last_or_snoc in Hseg2. destruct Hseg2 as (Hp & _).
    assert (Hsub : forall u, In u (pre ++ [q]) -> In u ((pre ++ [q]) ++ [t])).
    { intros u Hu. apply in_or_app. now left. }
    unfold ends in *. cbn [improve_loop]. unfold bind at 1.
    destruct (improvement_move_in k t true s) as [g s1 | e s1 |];
      [| | contradiction].
    2: { destruct Hg as (T & Hg). rewrite <- Hl2 in T. split; [exact T |].
         destruct Hg as [-> | (-> & D1 & D2 & Hg)]; [now left | right].
         split; [reflexivity |]. exists q, t. split; [apply adjacent_last | exact Hg]. }
    destruct Hg as (Hg0 & T1 & D1 & D2 & Eg).
    rewrite <- Hl2 in T1.
    assert (Hlt : (g <? 0) = false) by (now apply Z.ltb_ge).
    rewrite Hlt. unfold bind, get.
    assert (Ep : previous (tasks s1 t) = Some q).
    { destruct T1 as ((_ & S1) & _). destruct (S1 t) as (_ & Ep & _).
      now rewrite Ep. }
    rewrite Ep.
    assert (IH1 := IH q (t :: post) s1 o (Some t) k fuel imp Hnd).
    assert (Hseg1' : seg s1 o None (pre ++ [q]) (Some t))
      by (eapply seg_static; [apply T1 | exact Hseg1]).
    specialize (IH1 Hseg1' ltac:(lia) ltac:(lia)).
    destruct (improve_loop k fuel (Some q) imp s1) as [v s' | e s' |];
      [| | contradiction].
    + destruct IH1 as (-> & T' & G').
      split; [reflexivity |].
      split; [eapply tidied_trans; [| exact T1 |];
              [auto | eapply tidied_weaken; eauto] |].
      intros t1 t2 H. apply adjacent_snoc in H.
      destruct H as [(-> & ->) | H]; [| now apply G'].
      rewrite (exchange_gain_same s1 s' q t); [lia | |];
        apply T'; assumption.
    + destruct IH1 as (T' & G').
      split; [eapply tidied_trans; [| exact T1 |];
              [auto | eapply tidied_weaken; eauto] |].
      destruct G' as [-> | (-> & t1 & t2 & Ha & Hlt')]; [now left | right].
      split; [reflexivity |]. exists t1, t2.
      split; [now apply adjacent_app | exact Hlt'].
Qed.

Lemma improve_ends s r l fuel :
  chain s (Some r) l -> (length l < fuel)%nat ->
  ends (improve fuel r) s (improve_post l s) (improve_fail l s).
Proof.
  intros (Hnd & Hseg & Hh & Ht) Hf.
  unfold ends, improve, bind, get_resource. rewrite Ht.
  destruct (last_or None l) as [tl|] eqn:Et.
  - destruct (last_or_split l tl Et) as (l' & ->).
    rewrite length_app in Hf. simpl in Hf.
    pose proof (improve_loop_ends l' tl [] s (Some r) None fuel fuel 0
                  Hnd Hseg ltac:(lia) ltac:(lia)) as H.
    unfold ends in H.
    destruct (improve_loop fuel fuel (Some tl) 0 s); auto.
  - apply last_or_None_nil in Et. subst l. cbn.
    split; [reflexivity | split; [apply tidied_refl |]].
    intros t1 t2 H. now apply adjacent_nil in H.
Qed.

(** A larger budget of turns does not change the outcome of the loop. *)
Lemma improve_loop_mono k : forall f1 f2 t imp s,
  (f1 <= f2)%nat ->
  improve_loop k f1 t imp s <> OutOfFuel ->
  improve_loop k f2 t imp s = improve_loop k f1 t imp s.
Proof.
  induction f1 as [|f1 IH]; intros f2 t imp s Hle Hne.
  - now contradiction Hne.
  - destruct f2 as [|f2]; [lia |].
    destruct t as [t|]; [| reflexivity].
    cbn [improve_loop] in *. unfold bind at 1 in Hne. unfold bind at 1 3.
    destruct (improvement_move_in k t true s) as [g s1 | e s1 |];
      try reflexivity.
    destruct (g <? 0).
    + apply IH; [lia | exact Hne].
    + unfold bind, get in *. apply IH; [lia | exact Hne].
Qed.

(** On a chain of [n] tasks the loop of [improve] needs [n + 1] turns. *)
Lemma improve_turns s r l fuel :
  chain s (Some r) l -> (length l < fuel)%nat ->
  improve fuel r s =
  match last_or None l with
  | None => Done 0 s
  | Some t => improve_loop fuel (S (length l)) (Some t) 0 s
  end.
Proof.
  intros (Hnd & Hseg & Hh & Ht) Hf.
  unfold improve, bind, get_resource. rewrite Ht.
  destruct (last_or None l) as [tl|] eqn:Et; [| reflexivity].
  apply improve_loop_mono; [lia |].
  destruct (last_or_split l tl Et) as (l' & ->).
  assert (Hlen : length (l' ++ [tl]) = S (length l'))
    by (rewrite length_app; simpl; lia).
  pose proof (improve_loop_ends l' tl [] s (Some r) None fuel
                (S (length (l' ++ [tl]))) 0 Hnd Hseg ltac:(lia) ltac:(lia)) as H.
  unfold ends in H. intros E. now rewrite E in H.
Qed.
(** * Link surgery *)

Lemma tasks_upd_resource r f s u : tasks (upd_resource r f s) u = tasks s u.
Proof. reflexivity. Qed.

Lemma resources_upd_task t f s r : resources (upd_task t f s) r = resources s r.
Proof. reflexivity. Qed.

(** Resolve the reads of a store built by field assignments. *)
Ltac lk_unfold :=
  unfold set_next, set_previous, set_resource,
    set_dirty, set_earliest_start, set__start, set_head, set_tail in *.

Ltac lk_step :=
  match goal with
  | |- context [tasks (upd_task ?t ?f ?s) ?t] =>
      rewrite (tasks_upd_task_same t f s)
  | |- context [tasks (upd_task ?t ?f ?s) ?u] =>
      rewrite (tasks_upd_task_other t f s u) by congruence
  | |- context [tasks (upd_resource ?r ?f ?s) ?u] =>
      rewrite (tasks_upd_resource r f s u)
  | |- context [resources (upd_task ?t ?f ?s) ?r] =>
      rewrite (resources_upd_task t f s r)
  | |- context [resources (upd_resource ?r ?f ?s) ?r] =>
      rewrite (resources_upd_resource_same r f s)
  | |- context [resources (upd_resource ?r ?f ?s) ?x] =>
      rewrite (resources_upd_resource_other r f s x) by congruence
  end.

Ltac lk :=
  repeat (lk_step;
          cbn [next previous resource _duration _target _min_margin_before
               _dirty _earliest_start _start head tail
               with_next with_previous with_resource with_dirty
               with_earliest_start with_start with_head with_tail]).

Lemma seg_frame s s' o p l n :
  (forall u, In u l -> tasks s' u = tasks s u) ->
  seg s o p l n -> seg s' o p l n.
Proof.
  revert p. induction l as [|x l IH]; simpl; intros p H; auto.
  intros (Hp & Hn & Hr & Hs).
  rewrite (H x) by auto. repeat split; auto.
Qed.

(** A segment whose last task gets a new [next]. *)
Lemma seg_relink_last s s' o p l n n' :
  seg s o p l n -> NoDup l ->
  (forall u, In u l -> last_or None l <> Some u -> tasks s' u = tasks s u) ->
  (forall x, last_or None l = Some x -> tasks s' x = with_next n' (tasks s x)) ->
  seg s' o p l n'.
Proof.
  revert p. induction l as [|x l IH]; simpl; intros p Hs Hnd Hsame Hlast; auto.
  destruct Hs as (Hp & Hn & Hr & Hs).
  apply NoDup_cons_iff in Hnd. destruct Hnd as (Hx & Hnd').
  destruct l as [|y l'].
  - rewrite (Hlast x eq_refl). simpl. auto.
  - assert (Hxl : last_or None (x :: y :: l') <> Some x).
    { simpl. intros H. apply last_or_In in H.
      destruct H as [[= ->] | H]; apply Hx; simpl; auto. }
    change (previous (tasks s' x) = p /\
            next (tasks s' x) = hd_or n' (y :: l') /\
            resource (tasks s' x) = o /\
            seg s' o (Some x) (y :: l') n').
    rewrite (Hsame x (or_introl eq_refl) Hxl).
    split; [exact Hp | split; [exact Hn | split; [exact Hr |]]].
    apply IH; [exact Hs | exact Hnd' | |].
    + intros u Hu Hl. apply Hsame; [right; exact Hu | exact Hl].
    + intros z Hz. apply Hlast. exact Hz.
Qed.

(** A segment whose first task gets a new [previous]. *)
Lemma seg_relink_first s s' o p p' l n :
  seg s o p l n -> NoDup l ->
  (forall u, In u l -> hd_or None l <> Some u -> tasks s' u = tasks s u) ->
  (forall x, hd_or None l = Some x -> tasks s' x = with_previous p' (tasks s x)) ->
  seg s' o p' l n.
Proof.
  destruct l as [|x l]; simpl; auto.
  intros (Hp & Hn & Hr & Hs) Hnd Hsame Hfirst.
  apply NoDup_cons_iff in Hnd. destruct Hnd as (Hx & Hnd').
  rewrite (Hfirst x eq_refl). simpl.
  repeat split; auto.
  apply (seg_frame s); auto.
  intros u Hu. apply Hsame; auto.
  intros [= ->]. contradiction.
Qed.

Ltac inj_some :=
  repeat match goal with
         | H : Some _ = Some _ |- _ => injection H as ->
         end.

Lemma add_tail_fields s self task tl hd :
  tail (resources s self) = tl ->
  head (resources s self) = hd ->
  tl <> Some task ->
  let s' := add_tail self task s in
  (tasks s' task =
     with_previous tl (with_next None (with_resource (Some self) (tasks s task))) /\
   (forall x, tl = Some x -> tasks s' x = with_next (Some task) (tasks s x)) /\
   (forall u, u <> task -> tl <> Some u -> tasks s' u = tasks s u)) /\
  ((forall r, r <> self -> resources s' r = resources s r) /\
   head (resources s' self) = match hd with None => Some task | Some _ => hd end /\
   tail (resources s' self) = Some task).
Proof.
  intros Ht Hh D1 s'. subst s'.
  unfold add_tail. lk_unfold.
  destruct tl as [tx|], hd as [hx|].
  all: repeat (lk; rewrite ?Ht, ?Hh).
  all: split; [repeat split |].
  all: try (intros; try discriminate; inj_some; lk; reflexivity).
  all: split; [intros r' Hr'; lk; reflexivity |].
  all: lk; split; reflexivity.
Qed.

Lemma add_head_fields s self task tl hd :
  tail (resources s self) = tl ->
  head (resources s self) = hd ->
  hd <> Some task ->
  let s' := add_head self task s in
  (tasks s' task =
     with_next hd (with_previous None (with_resource (Some self) (tasks s task))) /\
   (forall x, hd = Some x -> tasks s' x = with_previous (Some task) (tasks s x)) /\
   (forall u, u <> task -> hd <> Some u -> tasks s' u = tasks s u)) /\
  ((forall r, r <> self -> resources s' r = resources s r) /\
   tail (resources s' self) = match tl with None => Some task | Some _ => tl end /\
   head (resources s' self) = Some task).
Proof.
  intros Ht Hh D1 s'. subst s'.
  unfold add_head. lk_unfold.
  destruct tl as [tx|], hd as [hx|].
  all: repeat (lk; rewrite ?Ht, ?Hh).
  all: split; [repeat split |].
  all: try (intros; try discriminate; inj_some; lk; reflexivity).
  all: split; [intros r' Hr'; lk; reflexivity |].
  all: lk; split; reflexivity.
Qed.

Lemma add_tail_chain s r l task :
  chain s (Some r) l ->
  ~ In task l ->
  let s' := add_tail r task s in
  chain s' (Some r) (l ++ [task]) /\
  (forall u, u <> task -> ~ In u l -> tasks s' u = tasks s u) /\
  (forall r', r' <> r -> resources s' r' = resources s r').
Proof.
  intros (Hnd & Hseg & Hh & Ht) Hout s'.
  pose proof (last_or_In_None l) as Hl.
  assert (D1 : tail (resources s r) <> Some task)
    by (rewrite Ht; intros H; apply Hl in H; contradiction).
  destruct (add_tail_fields s r task _ _ eq_refl eq_refl D1)
    as ((Ft & Fl & Fo) & (Ro & Rh & Rt)).
  fold s' in Ft, Fl, Fo, Ro, Rh, Rt.
  split; [| split; [| exact Ro]].
  - split; [| split; [| split]].
    + eapply Permutation_NoDup; [apply Permutation_cons_append |].
      constructor; assumption.
    + apply seg_app. cbn [seg hd_or].
      split; [| split; [| split; [| split]]].
      * apply (seg_relink_last s s' (Some r) None l None); auto.
        -- intros u Hu Hlu.
           apply Fo; [intros ->; contradiction | now rewrite Ht].
        -- intros x Hx. apply Fl. now rewrite Ht.
      * rewrite Ft. cbn. exact Ht.
      * rewrite Ft. reflexivity.
      * rewrite Ft. reflexivity.
      * exact I.
    + rewrite Rh, Hh, hd_or_app. destruct l; reflexivity.
    + rewrite Rt, last_or_snoc. reflexivity.
  - intros u Hu1 Hu2. apply Fo; [exact Hu1 |].
    rewrite Ht. intros H. apply Hl in H. contradiction.
Qed.

Lemma add_head_chain s r l task :
  chain s (Some r) l ->
  ~ In task l ->
  let s' := add_head r task s in
  chain s' (Some r) (task :: l) /\
  (forall u, u <> task -> ~ In u l -> tasks s' u = tasks s u) /\
  (forall r', r' <> r -> resources s' r' = resources s r').
Proof.
  intros (Hnd & Hseg & Hh & Ht) Hout s'.
  pose proof (hd_or_In_None l) as Hl.
  assert (D1 : head (resources s r) <> Some task)
    by (rewrite Hh; intros H; apply Hl in H; contradiction).
  destruct (add_head_fields s r task _ _ eq_refl eq_refl D1)
    as ((Ft & Fl & Fo) & (Ro & Rt & Rh)).
  fold s' in Ft, Fl, Fo, Ro, Rh, Rt.
  split; [| split; [| exact Ro]].
  - split; [| split; [| split]].
    + constructor; assumption.
    + cbn [seg].
      split; [| split; [| split]].
      * rewrite Ft. reflexivity.
      * rewrite Ft. cbn. exact Hh.
      * rewrite Ft. reflexivity.
      * apply (seg_relink_first s s' (Some r) None (Some task) l None); auto.
        -- intros u Hu Hlu.
           apply Fo; [intros ->; contradiction | now rewrite Hh].
        -- intros x Hx. apply Fl. now rewrite Hh.
    + rewrite Rh. reflexivity.
    + rewrite Rt, Ht. cbn [last_or].
      destruct l as [|x l']; [reflexivity |].
      change (last_or (Some task) (x :: l')) with (last_or None (x :: l')).
      destruct (last_or None (x :: l')) eqn:E; [reflexivity |].
      apply last_or_None_nil in E. discriminate.
  - intros u Hu1 Hu2. apply Fo; [exact Hu1 |].
    rewrite Hh. intros H. apply Hl in H. contradiction.
Qed.

(** ** Invalidation *)

(** [invalidate] marks the task and all its successors. *)
Lemma invalidate_spec post : forall t s o p fuel,
  seg s o p (t :: post) None ->
  (length post < fuel)%nat ->
  exists s',
    invalidate fuel t s = Done tt s' /\
    static_eq s s' /\
    (forall u, tasks s' u = tasks s u \/ tasks s' u = with_dirty true (tasks s u)) /\
    (forall u, ~ In u (t :: post) -> tasks s' u = tasks s u) /\
    (forall u, In u (t :: post) -> _dirty (tasks s' u) = true).
Proof.
  induction post as [|n post IH]; intros t s o p fuel Hs Hf.
  all: destruct fuel as [|fuel]; [simpl in Hf; lia |].
  all: cbn [seg hd_or] in Hs; destruct Hs as (Hp & Hn & Hr & Hs).
  all: assert (Hn1 : next (tasks (set_dirty t true s) t) = next (tasks s t))
    by (unfold set_dirty; rewrite tasks_upd_task_same; reflexivity).
  all: assert (Hd1 : forall u, tasks (set_dirty t true s) u = tasks s u \/
                     tasks (set_dirty t true s) u = with_dirty true (tasks s u))
    by (intros u; unfold set_dirty; simpl; destruct (Nat.eqb u t); auto).
  all: cbn [invalidate]; unfold bind, lift, get; rewrite Hn1, Hn.
  - eexists. split; [reflexivity |].
    split; [solve_static |].
    split; [exact Hd1 |].
    split.
    + intros u Hu. unfold set_dirty. rewrite tasks_upd_task_other; auto.
      intros ->. apply Hu. simpl; auto.
    + intros u [<- | []]. unfold set_dirty. now rewrite tasks_upd_task_same.
  - destruct (IH n (set_dirty t true s) o (Some t) fuel) as (s' & E & S' & D' & O' & A').
    { eapply seg_static; [apply static_eq_set_dirty |].
      cbn [seg hd_or]. exact Hs. }
    { simpl in Hf. lia. }
    exists s'. split; [exact E |].
    split; [eapply static_eq_trans; [apply static_eq_set_dirty | exact S'] |].
    split.
    { intros u. destruct (D' u) as [-> | ->], (Hd1 u) as [-> | ->]; auto. }
    split.
    + intros u Hu. rewrite O' by (intros H; apply Hu; simpl; auto).
      unfold set_dirty. rewrite tasks_upd_task_other; auto.
      intros ->. apply Hu. simpl; auto.
    + intros u [<- | Hu]; [| now apply A'].
      destruct (D' t) as [-> | ->]; [| reflexivity].
      unfold set_dirty. now rewrite tasks_upd_task_same.
Qed.

(** ** What [add_tail] and [add_head] keep *)

Lemma same_data_refl a : same_data a a.
Proof. repeat split. Qed.

Lemma same_data_trans a b c : same_data a b -> same_data b c -> same_data a c.
Proof.
  unfold same_data. intros (?&?&?&?&?&?) (?&?&?&?&?&?).
  repeat split; congruence.
Qed.

Lemma data_upd_task x f s u :
  (forall a, same_data (f a) a) ->
  same_data (tasks (upd_task x f s) u) (tasks s u).
Proof.
  intros H. simpl. destruct (Nat.eqb u x); [apply H | apply same_data_refl].
Qed.

Ltac data_steps :=
  repeat match goal with
         | |- same_data (tasks ?s ?u) (tasks ?s ?u) => apply same_data_refl
         | |- same_data (tasks (upd_task ?x ?f ?s0) ?u) _ =>
             apply (same_data_trans _ (tasks s0 u));
             [apply data_upd_task; intros a; repeat split |]
         | |- same_data (tasks (upd_resource ?x ?f ?s0) ?u) _ =>
             change (tasks (upd_resource x f s0) u) with (tasks s0 u)
         end.

Ltac data_cases :=
  lk_unfold;
  repeat match goal with
         | |- context [match ?x with _ => _ end] => destruct x
         end;
  data_steps.

Lemma add_tail_data s r task u :
  same_data (tasks (add_tail r task s) u) (tasks s u).
Proof. unfold add_tail. data_cases. Qed.

Lemma add_head_data s r task u :
  same_data (tasks (add_head r task s) u) (tasks s u).
Proof. unfold add_head. data_cases. Qed.

(** * Valid caches *)

Lemma earliest_ok_app s p l1 l2 :
  earliest_ok s p (l1 ++ l2) <->
  earliest_ok s p l1 /\ earliest_ok s (last_or p l1) l2.
Proof.
  revert p. induction l1 as [|x l1 IH]; simpl; intros p; [tauto |].
  rewrite IH. tauto.
Qed.

Lemma earliest_ok_same s s' p l :
  static_eq s s' ->
  (forall u, In u l -> _earliest_start (tasks s' u) = _earliest_start (tasks s u)) ->
  (forall q, p = Some q -> _earliest_start (tasks s' q) = _earliest_start (tasks s q)) ->
  earliest_ok s p l -> earliest_ok s' p l.
Proof.
  intros (_ & St). revert p. induction l as [|t l IH]; simpl; intros p Hl Hp; auto.
  intros (Ht & Hrest). split.
  - rewrite (Hl t) by auto. rewrite Ht.
    destruct p as [q|]; [| reflexivity].
    rewrite (Hp q eq_refl).
    destruct (St q) as (_ & _ & _ & Ed & _).
    destruct (St t) as (_ & _ & _ & _ & _ & Em).
    now rewrite Ed, Em.
  - apply IH; auto. intros q [= <-]. apply Hl. auto.
Qed.

Lemma coherent_of_clean s l :
  all_clean s l -> earliest_ok s None l -> coherent s l.
Proof.
  intros Hc Ho. exists l, []. rewrite app_nil_r.
  split; [reflexivity | split; [exact Hc | split; [exact Ho |]]].
  intros u [].
Qed.

Lemma coherent_prefix s l1 l2 : coherent s (l1 ++ l2) -> coherent s l1.
Proof.
  intros (c & d & E & Hc & Ho & Hd).
  apply app_eq_app in E. destruct E as (m & [(E1 & E2) | (E1 & E2)]).
  - exists c, m. split; [exact E1 | split; [exact Hc | split; [exact Ho |]]].
    intros u Hu. apply Hd. rewrite E2. apply in_or_app. auto.
  - apply coherent_of_clean.
    + intros u Hu. apply Hc. rewrite E1. apply in_or_app. auto.
    + rewrite E1 in Ho. apply earliest_ok_app in Ho. apply Ho.
Qed.

Lemma coherent_last_clean s l p :
  coherent s (l ++ [p]) -> _dirty (tasks s p) = false ->
  all_clean s (l ++ [p]) /\ earliest_ok s None (l ++ [p]).
Proof.
  intros (c & d & E & Hc & Ho & Hd) Hp.
  destruct d as [|x d _] using rev_ind.
  - rewrite app_nil_r in E. subst c. auto.
  - rewrite app_assoc in E. apply app_inj_tail in E. destruct E as (_ & <-).
    rewrite Hd in Hp by (apply in_or_app; simpl; auto). discriminate.
Qed.

Lemma coherent_dirty_suffix s pre t post :
  coherent s (pre ++ t :: post) -> _dirty (tasks s t) = true ->
  forall u, In u post -> _dirty (tasks s u) = true.
Proof.
  intros (c & d & E & Hc & Ho & Hd) Ht u Hu.
  apply app_eq_app in E. destruct E as (m & [(E1 & E2) | (E1 & E2)]).
  - apply Hd. rewrite E2. apply in_or_app. right. simpl. auto.
  - destruct m as [|x m].
    + simpl in E2. apply Hd. rewrite <- E2. simpl. auto.
    + simpl in E2. injection E2 as <- E2.
      rewrite (Hc t) in Ht; [discriminate |].
      rewrite E1. apply in_or_app. simpl. auto.
Qed.

Lemma earliest_ok_fields s s' l : forall p,
  (forall u, In u l \/ p = Some u ->
     _earliest_start (tasks s' u) = _earliest_start (tasks s u) /\
     _duration (tasks s' u) = _duration (tasks s u) /\
     _min_margin_before (tasks s' u) = _min_margin_before (tasks s u)) ->
  earliest_ok s p l -> earliest_ok s' p l.
Proof.
  induction l as [|t l IH]; intros p He H; [exact I |].
  destruct H as (Ht & H). split.
  - destruct (He t (or_introl (or_introl eq_refl))) as (E1 & _ & E3).
    rewrite E1. destruct p as [q|]; [| exact Ht].
    destruct (He q (or_intror eq_refl)) as (F1 & F2 & _).
    rewrite F1, F2, E3. exact Ht.
  - apply IH; [| exact H]. intros u [Hu | [= <-]]; apply He.
    + left. now right.
    + left. now left.
Qed.

(** Coherence is kept when a front part of the chain keeps its caches and
    everything behind it is dirty. *)
Lemma coherent_cut s s' pre rest rest' :
  coherent s (pre ++ rest) ->
  (forall u, In u pre ->
     _dirty (tasks s' u) = _dirty (tasks s u) /\
     _earliest_start (tasks s' u) = _earliest_start (tasks s u) /\
     _duration (tasks s' u) = _duration (tasks s u) /\
     _min_margin_before (tasks s' u) = _min_margin_before (tasks s u)) ->
  (forall u, In u rest' -> _dirty (tasks s' u) = true) ->
  coherent s' (pre ++ rest').
Proof.
  intros (c & d & E0 & Hc & Ho & Hd) Hkeep Hrest.
  assert (Hfront : forall c', (forall u, In u c' -> In u pre) ->
             all_clean s c' -> earliest_ok s None c' ->
             all_clean s' c' /\ earliest_ok s' None c').
  { intros c' Hsub Hc' Ho'. split.
    - intros u Hu. rewrite (proj1 (Hkeep u (Hsub u Hu))). now apply Hc'.
    - apply (earliest_ok_fields s); [| exact Ho'].
      intros u [Hu | Hu]; [| discriminate].
      destruct (Hkeep u (Hsub u Hu)) as (_ & H). exact H. }
  symmetry in E0. apply app_eq_app in E0.
  destruct E0 as (m & [(E1 & E2) | (E1 & E2)]).
  - destruct (Hfront pre) as (Hc' & Ho'); auto.
    + intros u Hu. apply Hc. rewrite E1. apply in_or_app. auto.
    + rewrite E1 in Ho. apply earliest_ok_app in Ho. apply Ho.
    + exists pre, rest'. repeat (split; [auto |]). exact Hrest.
  - destruct (Hfront c) as (Hc' & Ho'); auto.
    + intros u Hu. rewrite E1. apply in_or_app. auto.
    + exists c, (m ++ rest').
      split; [rewrite E1, <- app_assoc; reflexivity |].
      split; [exact Hc' | split; [exact Ho' |]].
      intros u Hu. apply in_app_or in Hu. destruct Hu as [Hu | Hu].
      * rewrite (proj1 (Hkeep u ltac:(rewrite E1; apply in_or_app; auto))).
        apply Hd. rewrite E2. apply in_or_app. auto.
      * now apply Hrest.
Qed.

(** ** Valid caches and reads *)

Lemma expected_earliest_static s s' stop pre t :
  static_eq s s' -> expected_earliest s' stop pre t = expected_earliest s stop pre t.
Proof.
  intros (_ & St). revert stop. induction pre as [|x pre IH]; intros stop; simpl.
  - unfold earliest_from. destruct stop; [| reflexivity].
    destruct (St t) as (_ & _ & _ & _ & _ & Em). now rewrite Em.
  - rewrite IH. f_equal. f_equal. unfold earliest_from.
    destruct (St x) as (_ & _ & _ & Ed & _ & Em).
    destruct stop; rewrite ?Em, Ed; reflexivity.
Qed.

Lemma earliest_ok_expected s pre : forall p stop t,
  stop = match p with
         | None => None
         | Some q => Some (_earliest_start (tasks s q) + _duration (tasks s q))
         end ->
  earliest_ok s p (pre ++ [t]) ->
  _earliest_start (tasks s t) = expected_earliest s stop pre t.
Proof.
  induction pre as [|x pre IH]; intros p stop t Hstop H.
  - simpl in H. destruct H as (H & _). rewrite H. subst stop.
    destruct p; reflexivity.
  - simpl in H. destruct H as (Hx & H). simpl.
    apply (IH (Some x)); [| exact H].
    f_equal. f_equal. rewrite Hx. subst stop. destruct p; reflexivity.
Qed.

(** The conditional [calculate] of a read, on a chain with coherent
    caches: when it returns, the tasks up to the one read are clean and
    their cached earliest starts are valid. *)
Lemma tidy_valid pre : forall t post s o n fuel s',
  NoDup (pre ++ t :: post) ->
  seg s o None (pre ++ [t]) n ->
  coherent s (pre ++ t :: post) ->
  (if _dirty (tasks s t) then calculate fuel t else ret tt) s = Done tt s' ->
  all_clean s' (pre ++ [t]) /\ earliest_ok s' None (pre ++ [t]).
Proof.
  induction pre as [|q pre IH] using rev_ind;
    intros t post s o n fuel s' Hnd Hseg Hco E.
  all: assert (Hco' : coherent s ((_ ++ [t]) ++ post))
    by (rewrite <- app_assoc; exact Hco).
  all: apply coherent_prefix in Hco'.
  all: destruct (_dirty (tasks s t)) eqn:Hd;
    [| injection E as <-; now apply coherent_last_clean].
  all: destruct fuel as [|fuel]; [discriminate |].
  - simpl in Hseg. destruct Hseg as (Hp & _).
    rewrite (calculate_head fuel t s Hp) in E. injection E as <-.
    unfold set_dirty, set_earliest_start. split.
    + intros u [<- | []]. now rewrite tasks_upd_task_same.
    + simpl. rewrite Nat.eqb_refl. simpl. auto.
  - pose proof Hseg as Hseg0.
    apply seg_app in Hseg0. destruct Hseg0 as (Hseg1 & Hseg2).
    rewrite last_or_snoc in Hseg2. destruct Hseg2 as (Hp & _).
    assert (Hl : (pre ++ [q]) ++ t :: post = pre ++ q :: t :: post)
      by (rewrite <- app_assoc; reflexivity).
    destruct (NoDup_middle _ _ _ Hnd) as (Htpre & _).
    rewrite Hl in Hnd, Hco.
    rewrite (calculate_step fuel t q s Hp) in E.
    destruct ((if _dirty (tasks s q) then calculate fuel q else ret tt) s)
      as [[] s1 | e s1 |] eqn:E1; try discriminate.
    destruct (IH q (t :: post) s o _ fuel s1 Hnd Hseg1 Hco E1) as (A1 & K1).
    cbv zeta in E. destruct (fits_int _); [| discriminate].
    injection E as <-.
    unfold set_dirty, set__start, set_earliest_start.
    assert (Hother : forall u, In u (pre ++ [q]) -> u <> t)
      by (intros u Hu ->; contradiction).
    split.
    + intros u Hu. apply in_app_or in Hu. destruct Hu as [Hu | [<- | []]].
      * rewrite !tasks_upd_task_other by (now apply Hother). now apply A1.
      * now rewrite tasks_upd_task_same.
    + apply earliest_ok_app. split.
      * apply (earliest_ok_fields s1); [| exact K1].
        intros u [Hu | Hu]; [| discriminate].
        rewrite !tasks_upd_task_other by (now apply Hother). auto.
      * rewrite last_or_snoc. simpl. rewrite Nat.eqb_refl. simpl.
        split; [| exact I].
        assert (Hq : q <> t) by (apply Hother; apply in_or_app; simpl; auto).
        apply Nat.eqb_neq in Hq. rewrite Hq. reflexivity.
Qed.

(** A read on a chain with coherent caches leaves the caches coherent. *)
Lemma read_coherent pre t post s s' :
  coherent s (pre ++ t :: post) ->
  read_post pre t post s s' ->
  all_clean s' (pre ++ [t]) ->
  earliest_ok s' None (pre ++ [t]) ->
  NoDup (pre ++ t :: post) ->
  coherent s' (pre ++ t :: post).
Proof.
  intros Hco ((S' & O' & C') & D' & _) A' K' Hnd.
  destruct (NoDup_middle _ _ _ Hnd) as (_ & _ & Hpost & _).
  destruct (_dirty (tasks s t)) eqn:Hd.
  - exists (pre ++ [t]), post.
    split; [rewrite <- app_assoc; reflexivity |].
    split; [exact A' | split; [exact K' |]].
    intros u Hu. rewrite O' by (now apply Hpost).
    now apply (coherent_dirty_suffix s pre t post).
  - destruct Hco as (c & d & E0 & Hc & Ho & Hdd).
    assert (Hsame : forall u, In u c -> tasks s' u = tasks s u)
      by (intros u Hu; apply C'; now apply Hc).
    exists c, d. split; [exact E0 |].
    split; [intros u Hu; rewrite Hsame by assumption; now apply Hc |].
    split.
    + apply (earliest_ok_fields s); [| exact Ho].
      intros u [Hu | Hu]; [| discriminate]. rewrite Hsame by assumption. auto.
    + intros u Hu.
      assert (Hu' : In u post).
      { assert (Hin : In u (pre ++ t :: post))
          by (rewrite E0; apply in_or_app; now right).
        apply in_app_or in Hin. destruct Hin as [Hin | [Heq | Hin]]; auto.
        - assert (Hcl : all_clean s (pre ++ [t]) /\ earliest_ok s None (pre ++ [t])).
          { apply coherent_last_clean; [| exact Hd].
            apply (coherent_prefix s (pre ++ [t]) post).
            rewrite <- app_assoc. exists c, d. auto. }
          destruct Hcl as (Hcl & _).
          specialize (Hcl u ltac:(apply in_or_app; now left)).
          rewrite (Hdd u Hu) in Hcl. discriminate.
        - subst u. rewrite (Hdd t Hu) in Hd. discriminate. }
      rewrite O' by (now apply Hpost). now apply Hdd.
Qed.

(** ** The starts that the sweeps leave *)

Lemma seg_previous_some s o l n u pre post :
  seg s o None l n -> l = pre ++ u :: post -> pre <> [] ->
  previous (tasks s u) <> None.
Proof.
  intros Hseg -> Hpre.
  destruct (seg_middle _ _ _ _ _ _ _ Hseg) as (Hp & _).
  rewrite Hp. intros H. apply last_or_None_nil in H. contradiction.
Qed.

Lemma backward_ok_floor s l :
  backward_ok s l ->
  forall u, In u l -> _earliest_start (tasks s u) <= _start (tasks s u).
Proof.
  induction l as [|t l IH]; intros H u Hu; [destruct Hu |].
  destruct H as (Ht & H). destruct Hu as [<- | Hu]; [| now apply IH].
  rewrite Ht. lia.
Qed.

Lemma forward_ok_raises s0 s l : forall p,
  forward_ok s0 s p l ->
  forall u, In u l -> _start (tasks s0 u) <= _start (tasks s u).
Proof.
  induction l as [|t l IH]; intros p H u Hu; [destruct Hu |].
  destruct H as (Ht & H). destruct Hu as [<- | Hu]; [| now apply (IH (Some t))].
  rewrite Ht. destruct p; lia.
Qed.

Lemma forward_ok_feasible s0 s l : forall p,
  static_eq s0 s -> forward_ok s0 s p l -> feasible s p l.
Proof.
  intros p (_ & St). revert p.
  induction l as [|t l IH]; intros p H; [exact I |].
  destruct H as (Ht & H). split; [| now apply IH].
  destruct p as [q|]; [| exact I].
  destruct (St q) as (_ & _ & _ & Ed & _).
  destruct (St t) as (_ & _ & _ & _ & _ & Em).
  rewrite Ht, Ed, Em. lia.
Qed.

(** With valid earliest starts the backward sweep leaves room for every
    task. *)
Lemma backward_feasible s l : forall p t,
  backward_ok s (t :: l) -> earliest_ok s p (t :: l) -> feasible s (Some t) l.
Proof.
  induction l as [|n l IH]; intros p t Hb Ho; [exact I |].
  destruct Hb as (Bt & Hb). destruct Ho as (_ & Ho).
  split; [| now apply (IH (Some t))].
  destruct Hb as (Bn & _). destruct Ho as (On & _).
  assert (_earliest_start (tasks s n) <= _start (tasks s n)) by (rewrite Bn; lia).
  lia.
Qed.

(** The forward sweep changes no start that already leaves room. *)
Lemma forward_ok_keeps sb s l : forall p,
  forward_ok sb s p l ->
  feasible sb p l ->
  (forall u, In u l -> _earliest_start (tasks sb u) <= _start (tasks sb u)) ->
  (forall q, p = Some q -> _start (tasks s q) = _start (tasks sb q)) ->
  forall u, In u l -> _start (tasks s u) = _start (tasks sb u).
Proof.
  induction l as [|t l IH]; intros p Hf Hr Hfl Hp u Hu; [destruct Hu |].
  destruct Hf as (Ft & Hf). destruct Hr as (Rt & Hr).
  assert (Et : _start (tasks s t) = _start (tasks sb t)).
  { rewrite Ft. destruct p as [q|]; [| reflexivity].
    rewrite (Hp q eq_refl). specialize (Hfl t (or_introl eq_refl)). lia. }
  destruct Hu as [<- | Hu]; [exact Et |].
  apply (IH (Some t)); auto.
  - intros v Hv. apply Hfl. now right.
  - now intros q [= <-].
Qed.

(** No admissible start time lies before the valid earliest start. *)
Lemma admissible_floor s x l : forall p,
  earliest_ok s p l -> admissible s x p l ->
  (forall q, p = Some q -> _earliest_start (tasks s q) <= x q) ->
  forall u, In u l -> _earliest_start (tasks s u) <= x u.
Proof.
  induction l as [|t l IH]; intros p Ho Ha Hp u Hu; [destruct Hu |].
  destruct Ho as (Ot & Ho). destruct Ha as (At & Ha).
  assert (Et : _earliest_start (tasks s t) <= x t).
  { rewrite Ot. destruct p as [q|]; [| exact At].
    specialize (Hp q eq_refl). lia. }
  destruct Hu as [<- | Hu]; [exact Et |].
  apply (IH (Some t)); auto. now intros q [= <-].
Qed.

Lemma admissible_static s s' x l : forall p,
  static_eq s s' -> admissible s x p l -> admissible s' x p l.
Proof.
  intros p (_ & St). revert p.
  induction l as [|t l IH]; intros p H; [exact I |].
  destruct H as (Ht & H). split; [| now apply IH].
  destruct p as [q|]; [| exact Ht].
  destruct (St q) as (_ & _ & _ & Ed & _).
  destruct (St t) as (_ & _ & _ & _ & _ & Em).
  rewrite Ed, Em. exact Ht.
Qed.

Lemma feasible_admissible s l : forall p,
  feasible s p l ->
  (p = None -> forall t, hd_or None l = Some t -> 0 <= _start (tasks s t)) ->
  admissible s (fun u => _start (tasks s u)) p l.
Proof.
  induction l as [|t l IH]; intros p H H0; [exact I |].
  destruct H as (Ht & H). split.
  - destruct p as [q|]; [exact Ht |]. now apply H0.
  - apply IH; [exact H | discriminate].
Qed.

Lemma backward_ok_ceiling s l :
  backward_ok s l ->
  forall u, In u l ->
    _start (tasks s u) <= Z.max (_earliest_start (tasks s u)) (_target (tasks s u)).
Proof.
  induction l as [|t l IH]; intros H u Hu; [destruct Hu |].
  destruct H as (Ht & H). destruct Hu as [<- | Hu]; [| now apply IH].
  rewrite Ht. destruct l; lia.
Qed.

Lemma total_lateness_le s s' x l :
  (forall u, In u l ->
     _target (tasks s' u) = _target (tasks s u) /\
     _start (tasks s' u) <= Z.max (x u) (_target (tasks s u))) ->
  total_lateness s' l <= lateness_of s x l.
Proof.
  induction l as [|t l IH]; intros H; simpl; [lia |].
  destruct (H t (or_introl eq_refl)) as (Etg & Hle).
  assert (total_lateness s' l <= lateness_of s x l)
    by (apply IH; intros u Hu; apply H; now right).
  unfold lateness. rewrite Etg. unfold lateness_of in *. lia.
Qed.



Lemma earliest_start_inv fuel t s v s' :
  earliest_start fuel t s = Done v s' ->
  (if _dirty (tasks s t) then calculate fuel t else ret tt) s = Done tt s'.
Proof.
  unfold earliest_start, earliest_start_with, bind, get.
  destruct ((if _dirty (tasks s t) then calculate fuel t else ret tt) s)
    as [[] s1 | |]; [| discriminate..].
  now intros [= _ <-].
Qed.


(** ** Coherent caches and the plan *)

Lemma refreshed_dirty s stop t :
  _dirty (tasks s t) = true -> refreshed s stop t = earliest_from s stop t.
Proof. unfold refreshed, earliest_from. now intros ->. Qed.

Lemma refreshed_clean s stop t :
  _dirty (tasks s t) = false -> refreshed s stop t = _earliest_start (tasks s t).
Proof. unfold refreshed. now intros ->. Qed.

(** With coherent caches the plan holds the earliest starts that the order
    of the tasks gives. *)
Lemma coherent_refreshed s pre : forall l p stop t post,
  (exists c d,
     l = c ++ d /\ all_clean s c /\ earliest_ok s p c /\
     (forall u, In u d -> _dirty (tasks s u) = true) /\
     (c <> [] ->
      stop = match p with
             | None => None
             | Some q => Some (_earliest_start (tasks s q) + _duration (tasks s q))
             end)) ->
  l = pre ++ t :: post ->
  refreshed s (stop_after s stop pre) t = expected_earliest s stop pre t.
Proof.
  assert (Hbase : forall l p stop x rest,
    (exists c d,
       l = c ++ d /\ all_clean s c /\ earliest_ok s p c /\
       (forall u, In u d -> _dirty (tasks s u) = true) /\
       (c <> [] ->
        stop = match p with
               | None => None
               | Some q => Some (_earliest_start (tasks s q) + _duration (tasks s q))
               end)) ->
    l = x :: rest ->
    refreshed s stop x = earliest_from s stop x).
  { intros l p stop x rest (c & d & E & Hc & Ho & Hd & Hs) El.
    destruct (_dirty (tasks s x)) eqn:Dx; [now apply refreshed_dirty |].
    rewrite refreshed_clean by assumption.
    destruct c as [|y c'].
    - simpl in E. subst l. subst d.
      rewrite Hd in Dx by (simpl; auto). discriminate.
    - rewrite El in E. injection E as <- _.
      destruct Ho as (Hy & _). rewrite Hy.
      rewrite Hs by discriminate. destruct p; reflexivity. }
  induction pre as [|x pre IH]; intros l p stop t post H El.
  - simpl. eapply Hbase; eauto.
  - simpl in El. simpl.
    rewrite (Hbase l p stop x (pre ++ t :: post) H El).
    apply (IH (pre ++ t :: post) (Some x) _ t post); [| reflexivity].
    destruct H as (c & d & E & Hc & Ho & Hd & Hs).
    destruct c as [|y c'].
    + simpl in E. subst d. exists (@nil tid), (pre ++ t :: post).
      split; [reflexivity |]. split; [intros u [] |]. split; [exact I |].
      split; [| congruence].
      intros u Hu. apply Hd. rewrite El. now right.
    + rewrite El in E. injection E as <- E.
      exists c', d. split; [exact E |].
      split; [intros u Hu; apply Hc; now right |].
      destruct Ho as (Hx & Ho). split; [exact Ho |].
      split; [exact Hd |].
      intros _. f_equal. f_equal. rewrite Hx.
      rewrite Hs by discriminate. destruct p; reflexivity.
Qed.

Lemma expected_ok s l : forall p stop,
  stop = match p with
         | None => None
         | Some q => Some (_earliest_start (tasks s q) + _duration (tasks s q))
         end ->
  (forall pre t post, l = pre ++ t :: post ->
     _earliest_start (tasks s t) = expected_earliest s stop pre t) ->
  earliest_ok s p l.
Proof.
  induction l as [|x l IH]; intros p stop Hs H; [exact I |].
  assert (Hx : _earliest_start (tasks s x) = earliest_from s stop x)
    by (apply (H [] x l); reflexivity).
  split.
  - rewrite Hx, Hs. destruct p; reflexivity.
  - apply (IH (Some x) (Some (_earliest_start (tasks s x) + _duration (tasks s x))));
      [reflexivity |].
    intros pre t post El.
    rewrite (H (x :: pre) t post) by (simpl; now rewrite El).
    simpl. now rewrite Hx.
Qed.

Lemma length_plan s l : forall stop, length (plan s stop l) = length l.
Proof. induction l as [|t l IH]; intros stop; simpl; auto. Qed.

Lemma app_eq_length {A} (a a' b b' : list A) :
  length a = length a' -> a ++ b = a' ++ b' -> a = a' /\ b = b'.
Proof.
  revert a'. induction a as [|x a IH]; intros [|y a'] Hl E;
    try discriminate; simpl in *; auto.
  injection E as -> E. injection Hl as Hl.
  destruct (IH a' Hl E) as (-> & ->). auto.
Qed.

(** An all-clean chain with the plan of a chain with coherent caches has
    valid cached earliest starts. *)
Lemma plan_earliest_ok s s' l :
  static_eq s s' ->
  coherent s l ->
  all_clean s' l ->
  plan s' None l = plan s None l ->
  earliest_ok s' None l.
Proof.
  intros S' Hco A' P'.
  apply (expected_ok s' l None None); [reflexivity |].
  intros pre t post El.
  rewrite (expected_earliest_static s s' None pre t S').
  rewrite <- (coherent_refreshed s pre l None None t post); [| | exact El].
  2: { destruct Hco as (c & d & E & Hc & Ho & Hd). exists c, d. auto. }
  rewrite El in P'. rewrite !plan_app in P'.
  apply app_eq_length in P'; [| now rewrite !length_plan].
  destruct P' as (_ & P'). simpl in P'. injection P' as P' _.
  rewrite <- P'. symmetry. apply refreshed_clean.
  apply A'. rewrite El. apply in_or_app. simpl. auto.
Qed.

Lemma forward_ok_self s l : forall p,
  feasible s p l ->
  (forall u, In u l -> _earliest_start (tasks s u) <= _start (tasks s u)) ->
  forward_ok s s p l.
Proof.
  induction l as [|t l IH]; intros p H Hfl; [exact I |].
  destruct H as (Ht & H). split.
  - destruct p as [q|]; [| reflexivity].
    specialize (Hfl t (or_introl eq_refl)). lia.
  - apply IH; [exact H |]. intros u Hu. apply Hfl. now right.
Qed.

Lemma feasible_same s s' l : forall p,
  (forall u, In u l \/ p = Some u -> tasks s' u = tasks s u) ->
  feasible s p l -> feasible s' p l.
Proof.
  induction l as [|t l IH]; intros p Hs H; [exact I |].
  destruct H as (Ht & H). split.
  - rewrite (Hs t) by (left; now left).
    destruct p as [q|]; [| exact I]. now rewrite (Hs q) by (now right).
  - apply IH; [| exact H]. intros u [Hu | [= <-]]; apply Hs; left;
      [now right | now left].
Qed.

(** [schedule] on a chain with coherent caches, when the ranges allow it:
    the store [sb] that the backward sweep leaves has the starts that the
    forward sweep keeps. *)
Lemma schedule_coherent s r l fuel :
  chain s (Some r) l -> l <> [] ->
  coherent s l ->
  es_fit s l ->
  targets_fit s l ->
  (exists x, admissible s x None l /\ lateness_of s x l <= int_max) ->
  (length l < fuel)%nat ->
  exists s',
    schedule fuel r s = Done (total_lateness s' l) s' /\
    static_eq s s' /\
    (forall u, ~ In u l -> tasks s' u = tasks s u) /\
    all_clean s' l /\
    earliest_ok s' None l /\
    backward_ok s' l /\
    feasible s' None l.
Proof.
  intros Hc Hne Hco Hes Htg (x & Hx & Hxl) Hf.
  pose proof Hc as (Hnd & Hseg & Hh & Ht).
  destruct (last_or None l) as [tl|] eqn:Et;
    [| apply last_or_None_nil in Et; contradiction].
  destruct (hd_or None l) as [h|] eqn:Eh;
    [| apply hd_or_None_nil in Eh; contradiction].
  rewrite (schedule_unfold s r l h tl fuel Hc Eh Et Hf).
  (* the backward sweep *)
  pose proof (schedule_backward_ends s (Some r) l tl fuel Hnd Hseg Et Hf) as Hb.
  apply ends_inv in Hb.
  destruct Hb as [([] & sb & Eb & Sb & Ob & Cb & (Ab & Bb & Fb) & Pb)
                 | (e & sb & Eb & _ & _ & _ & N)]; [| tauto].
  rewrite Eb.
  assert (Kb : earliest_ok sb None l) by (now apply (plan_earliest_ok s sb)).
  assert (Hfloor : forall u, In u l ->
            _earliest_start (tasks sb u) <= _start (tasks sb u))
    by (now apply backward_ok_floor).
  destruct (hd_or_split l h Eh) as (post & El).
  assert (Hfeas : feasible sb None l).
  { rewrite El in *. split; [exact I |]. now apply (backward_feasible sb post None h). }
  assert (Hlate : total_lateness sb l <= lateness_of s x l).
  { apply total_lateness_le. intros u Hu.
    pose proof Sb as (_ & Tb). destruct (Tb u) as (_ & _ & _ & _ & Etg & _).
    split; [exact Etg |].
    pose proof (backward_ok_ceiling sb _ Bb u Hu) as Hceil.
    assert (Hfl : _earliest_start (tasks sb u) <= x u).
    { apply (admissible_floor sb x l None Kb); auto.
      - apply (admissible_static s); [exact Sb | exact Hx].
      - discriminate. }
    rewrite Etg in Hceil. lia. }
  (* the forward sweep *)
  pose proof (forward_replay post [] h sb sb sb (Some r) fuel fuel 0) as Hfw.
  cbn [app last_or] in Hfw. rewrite <- El in Hfw.
  assert (Hfits : fits_int (0 + total_lateness sb l) = true).
  { apply fits_int_iff. pose proof (total_lateness_nonneg sb l).
    unfold int_min, int_max in *. lia. }
  assert (Hlen : (length post + 1 < fuel)%nat).
  { apply (f_equal (@length tid)) in El. simpl in El. lia. }
  destruct (Hfw Hnd (seg_static _ _ _ _ _ _ Sb Hseg) Ab
              (fun u _ => conj eq_refl (conj (same_static_refl _) (same_static_refl _)))
              (forward_ok_self sb l None Hfeas Hfloor)
              (fun u (H : In u []) => match H with end)
              (fun u _ => eq_refl) Fb (Z.le_refl 0) Hfits Hlen)
    as (s' & Ef & Sf & Of & Cf & Vf).
  assert (Hsame : forall u, In u l -> tasks s' u = tasks sb u).
  { intros u Hu. destruct Sf as (_ & Tf).
    destruct (Tf u) as (?&?&?&?&?&?). destruct (Cf u).
    apply task_ext; auto. }
  exists s'. unfold schedule_forward. rewrite Ef.
  split; [f_equal; rewrite (total_lateness_same sb s' l Hsame); lia |].
  split; [eapply static_eq_trans; eauto |].
  split; [intros u Hu; rewrite Of, Ob; auto |].
  split; [now apply (all_clean_same sb) |].
  split.
  { apply (earliest_ok_fields sb); [| exact Kb].
    intros u [Hu | Hu]; [| discriminate]. rewrite Hsame by assumption. auto. }
  split; [now apply (backward_ok_same sb) |].
  apply (feasible_same sb); [| exact Hfeas].
  intros u [Hu | Hu]; [now apply Hsame | discriminate].
Qed.
(** * The link methods of [Task] *)

Lemma NoDup_swap (pre : list tid) a b post :
  NoDup (pre ++ a :: b :: post) -> NoDup (pre ++ b :: a :: post).
Proof.
  apply Permutation_NoDup. apply Permutation_app_head. apply perm_swap.
Qed.

Lemma NoDup_two (pre : list tid) a b post :
  NoDup (pre ++ a :: b :: post) ->
  a <> b /\ ~ In a pre /\ ~ In b pre /\ ~ In a post /\ ~ In b post /\
  (forall u, In u pre -> ~ In u post) /\ NoDup pre /\ NoDup post.
Proof.
  intros H.
  pose proof (NoDup_remove_2 _ _ _ H) as Ha.
  pose proof (NoDup_remove_1 _ _ _ H) as H1.
  pose proof (NoDup_remove_2 _ _ _ H1) as Hb.
  pose proof (NoDup_remove_1 _ _ _ H1) as H2.
  rewrite in_app_iff in Ha, Hb. simpl in Ha.
  split; [intros ->; tauto |].
  split; [tauto |]. split; [tauto |]. split; [tauto |]. split; [tauto |].
  split; [| split].
  - intros u Hu Hv. clear - H2 Hu Hv.
    induction pre as [|x pre IH]; simpl in *; [contradiction |].
    apply NoDup_cons_iff in H2. destruct H2 as (Hx & H2).
    destruct Hu as [<- | Hu]; [| auto].
    apply Hx. apply in_or_app. auto.
  - apply NoDup_app_remove_r in H2. exact H2.
  - apply NoDup_app_remove_l in H2. exact H2.
Qed.

(** Run the statements of a link method. *)
Ltac run_links :=
  unfold bind, get, lift, ret, raise, set_head_of, set_tail_of;
  cbv beta iota.

Lemma Task_move_out_fields s self nxt p n o :
  next (tasks s self) = Some nxt ->
  previous (tasks s self) = p ->
  next (tasks s nxt) = n ->
  resource (tasks s self) = o ->
  self <> nxt -> n <> Some self -> n <> Some nxt ->
  p <> Some self -> p <> Some nxt ->
  (forall x, n = Some x -> p <> Some x) ->
  (o = None \/ (p <> None /\ n <> None)) ->
  exists s',
    Task_move_out self s = Done tt s' /\
    (tasks s' self = with_previous (Some nxt) (with_next n (tasks s self)) /\
     tasks s' nxt = with_previous p (with_next (Some self) (tasks s nxt)) /\
     (forall x, n = Some x -> tasks s' x = with_previous (Some self) (tasks s x)) /\
     (forall x, p = Some x -> tasks s' x = with_next (Some nxt) (tasks s x)) /\
     (forall u, u <> self -> u <> nxt -> n <> Some u -> p <> Some u ->
                tasks s' u = tasks s u)) /\
    (forall r, resources s' r = resources s r).
Proof.
  intros Hn Hp Hnn Ho D1 D2 D3 D4 D5 D6 Hok.
  unfold Task_move_out. run_links. rewrite Hn. lk_unfold.
  destruct n as [nx|], p as [px|], o as [r|].
  all: try (destruct Hok as [Hok | (Hok1 & Hok2)]; congruence).
  all: try pose proof (D6 _ eq_refl).
  all: repeat first [ progress lk
                    | progress (rewrite ?Hn, ?Hp, ?Hnn, ?Ho)
                    | progress (unfold ret, raise)
                    | progress cbv beta iota ].
  all: eexists; split; [reflexivity |].
  all: split; [repeat split | intros r'; lk; reflexivity].
  all: try (intros; try discriminate; inj_some; lk; reflexivity).
Qed.

Lemma Task_move_in_fields s self prev pp n o :
  previous (tasks s self) = Some prev ->
  next (tasks s self) = n ->
  previous (tasks s prev) = pp ->
  resource (tasks s self) = o ->
  self <> prev -> n <> Some self -> n <> Some prev ->
  pp <> Some self -> pp <> Some prev ->
  (forall x, n = Some x -> pp <> Some x) ->
  (o = None \/ (pp <> None /\ n <> None)) ->
  exists s',
    Task_move_in self s = Done tt s' /\
    (tasks s' self = with_previous pp (with_next (Some prev) (tasks s self)) /\
     tasks s' prev = with_previous (Some self) (with_next n (tasks s prev)) /\
     (forall x, n = Some x -> tasks s' x = with_previous (Some prev) (tasks s x)) /\
     (forall x, pp = Some x -> tasks s' x = with_next (Some self) (tasks s x)) /\
     (forall u, u <> self -> u <> prev -> n <> Some u -> pp <> Some u ->
                tasks s' u = tasks s u)) /\
    (forall r, resources s' r = resources s r).
Proof.
  intros Hp Hn Hpp Ho D1 D2 D3 D4 D5 D6 Hok.
  unfold Task_move_in. run_links. rewrite Hp. lk_unfold.
  destruct n as [nx|], pp as [ppx|], o as [r|].
  all: try (destruct Hok as [Hok | (Hok1 & Hok2)]; congruence).
  all: try pose proof (D6 _ eq_refl).
  all: repeat first [ progress lk
                    | progress (rewrite ?Hn, ?Hp, ?Hpp, ?Ho)
                    | progress (unfold ret, raise)
                    | progress cbv beta iota ].
  all: eexists; split; [reflexivity |].
  all: split; [repeat split | intros r'; lk; reflexivity].
  all: try (intros; try discriminate; inj_some; lk; reflexivity).
Qed.

Lemma same_data_links a p n :
  same_data (with_previous p (with_next n a)) a.
Proof. repeat split. Qed.

Lemma same_data_next a n : same_data (with_next n a) a.
Proof. repeat split. Qed.

Lemma same_data_previous a p : same_data (with_previous p a) a.
Proof. repeat split. Qed.

(** The exchange of two neighbours [a], [b] of a chain, from the fields
    that the two link methods leave. *)
Lemma exchange_chain s s' o pre a b post :
  chain s o (pre ++ a :: b :: post) ->
  tasks s' a = with_previous (Some b) (with_next (hd_or None post) (tasks s a)) ->
  tasks s' b = with_previous (last_or None pre) (with_next (Some a) (tasks s b)) ->
  (forall x, hd_or None post = Some x ->
             tasks s' x = with_previous (Some a) (tasks s x)) ->
  (forall x, last_or None pre = Some x ->
             tasks s' x = with_next (Some b) (tasks s x)) ->
  (forall u, u <> a -> u <> b -> hd_or None post <> Some u ->
             last_or None pre <> Some u -> tasks s' u = tasks s u) ->
  (forall r, resources s' r = resources s r) ->
  (o = None \/ (pre <> [] /\ post <> [])) ->
  chain s' o (pre ++ b :: a :: post) /\
  (forall u, ~ In u (pre ++ a :: b :: post) -> tasks s' u = tasks s u) /\
  (forall u, same_data (tasks s' u) (tasks s u)).
Proof.
  intros (Hnd & Hseg & Hres) Fa Fb Fn Fpp Fo Ro Hok.
  destruct (NoDup_two _ _ _ _ Hnd) as (Dab & Ha1 & Hb1 & Ha2 & Hb2 & Hpp & Nd1 & Nd2).
  apply seg_app in Hseg. destruct Hseg as (Hseg1 & Hseg2).
  cbn [seg hd_or] in Hseg1, Hseg2.
  destruct Hseg2 as (Pa & Na & Ra & Pb & Nb & Rb & Hseg3).
  pose proof (hd_or_In_None post) as Hn.
  pose proof (last_or_In_None pre) as Hl.
  split; [| split].
  - split; [now apply NoDup_swap | split].
    + apply seg_app. cbn [seg hd_or].
      split; [| split; [| split; [| split; [| split; [| split; [| split]]]]]].
      * apply (seg_relink_last s s' o None pre (Some a)); auto.
        intros u Hu Hlu. apply Fo; try congruence.
        intros H. apply Hn in H. apply (Hpp u); auto.
      * rewrite Fb. reflexivity.
      * rewrite Fb. reflexivity.
      * rewrite Fb. exact Rb.
      * rewrite Fa. reflexivity.
      * rewrite Fa. reflexivity.
      * rewrite Fa. exact Ra.
      * apply (seg_relink_first s s' o (Some b) (Some a) post None); auto.
        intros u Hu Hlu. apply Fo; try congruence.
        intros H. apply Hl in H. apply (Hpp u); auto.
    + destruct o as [r|]; [| exact I].
      destruct Hok as [Hok | (Hpre & Hpost)]; [discriminate |].
      destruct Hres as (Hh & Ht). rewrite !Ro, Hh, Ht.
      rewrite !hd_or_app, !last_or_app. cbn [hd_or last_or].
      split.
      * destruct pre; [contradiction | reflexivity].
      * destruct post; [contradiction | reflexivity].
  - intros u Hu. apply Fo.
    + intros ->. apply Hu. apply in_or_app. simpl. auto.
    + intros ->. apply Hu. apply in_or_app. simpl. auto.
    + intros H. apply Hn in H. apply Hu. apply in_or_app. simpl. auto.
    + intros H. apply Hl in H. apply Hu. apply in_or_app. auto.
  - intros u.
    destruct (Nat.eq_dec u a) as [-> | N1];
      [rewrite Fa; apply same_data_links |].
    destruct (Nat.eq_dec u b) as [-> | N2];
      [rewrite Fb; apply same_data_links |].
    destruct (hd_or None post) as [x|] eqn:Ex;
      [destruct (Nat.eq_dec u x) as [-> | N3];
         [rewrite (Fn x eq_refl); apply same_data_previous |] |];
      (destruct (last_or None pre) as [y|] eqn:Ey;
         [destruct (Nat.eq_dec u y) as [-> | N4];
            [rewrite (Fpp y eq_refl); apply same_data_next |] |]);
      rewrite Fo; try congruence; apply same_data_refl.
Qed.

Lemma chain_neighbours s o pre a b post :
  chain s o (pre ++ a :: b :: post) ->
  previous (tasks s a) = last_or None pre /\
  next (tasks s a) = Some b /\
  resource (tasks s a) = o /\
  previous (tasks s b) = Some a /\
  next (tasks s b) = hd_or None post /\
  resource (tasks s b) = o /\
  a <> b /\
  hd_or None post <> Some a /\ hd_or None post <> Some b /\
  last_or None pre <> Some a /\ last_or None pre <> Some b /\
  (forall x, hd_or None post = Some x -> last_or None pre <> Some x).
Proof.
  intros (Hnd & Hseg & Hres).
  destruct (NoDup_two _ _ _ _ Hnd) as (Dab & Ha1 & Hb1 & Ha2 & Hb2 & Hpp & Nd1 & Nd2).
  apply seg_app in Hseg. destruct Hseg as (Hseg1 & Hseg2).
  cbn [seg hd_or] in Hseg1, Hseg2.
  destruct Hseg2 as (Pa & Na & Ra & Pb & Nb & Rb & Hseg3).
  pose proof (hd_or_In_None post) as Hn.
  pose proof (last_or_In_None pre) as Hl.
  repeat (split; [assumption |]).
  split; [intros H; apply Hn in H; contradiction |].
  split; [intros H; apply Hn in H; contradiction |].
  split; [intros H; apply Hl in H; contradiction |].
  split; [intros H; apply Hl in H; contradiction |].
  intros x Hx Hy. apply (Hpp x); auto.
Qed.

Lemma ends_to_links (pre post : list tid) (o : option rid) :
  (o = None \/ (pre <> [] /\ post <> [])) ->
  o = None \/ (last_or None pre <> None /\ hd_or None post <> None).
Proof.
  intros [H | (H1 & H2)]; [now left | right]. split.
  - intros H. now apply last_or_None_nil in H.
  - intros H. now apply hd_or_None_nil in H.
Qed.

(** [Task.move_out] on a task with a successor: the two change places, when
    the chain has no resource or the two stand inside it. *)
Lemma Task_move_out_chain s o pre self nxt post :
  chain s o (pre ++ self :: nxt :: post) ->
  (o = None \/ (pre <> [] /\ post <> [])) ->
  exists s',
    Task_move_out self s = Done tt s' /\
    chain s' o (pre ++ nxt :: self :: post) /\
    (forall u, ~ In u (pre ++ self :: nxt :: post) -> tasks s' u = tasks s u) /\
    (forall u, same_data (tasks s' u) (tasks s u)) /\
    (forall r, resources s' r = resources s r).
Proof.
  intros Hc Hok.
  destruct (chain_neighbours _ _ _ _ _ _ Hc)
    as (Ps & Ns & Rs & Pn & Nn & Rn & D1 & D2 & D3 & D4 & D5 & D6).
  destruct (Task_move_out_fields s self nxt _ _ o Ns Ps Nn Rs D1 D2 D3 D4 D5 D6
              (ends_to_links pre post o Hok))
    as (s' & E & (Fs & Fx & Fn & Fpp & Fo) & Ro).
  exists s'. split; [exact E |].
  destruct (exchange_chain s s' o pre self nxt post Hc Fs Fx Fn Fpp Fo Ro Hok)
    as (H1 & H2 & H3).
  auto.
Qed.

(** [Task.move_in] on a task with a predecessor. *)
Lemma Task_move_in_chain s o pre prev self post :
  chain s o (pre ++ prev :: self :: post) ->
  (o = None \/ (pre <> [] /\ post <> [])) ->
  exists s',
    Task_move_in self s = Done tt s' /\
    chain s' o (pre ++ self :: prev :: post) /\
    (forall u, ~ In u (pre ++ prev :: self :: post) -> tasks s' u = tasks s u) /\
    (forall u, same_data (tasks s' u) (tasks s u)) /\
    (forall r, resources s' r = resources s r).
Proof.
  intros Hc Hok.
  destruct (chain_neighbours _ _ _ _ _ _ Hc)
    as (Pp & Np & Rp & Ps & Ns & Rs & D1 & D2 & D3 & D4 & D5 & D6).
  destruct (Task_move_in_fields s self prev _ _ o Ps Ns Pp Rs (not_eq_sym D1)
              D3 D2 D5 D4 D6 (ends_to_links pre post o Hok))
    as (s' & E & (Fs & Fp & Fn & Fpp & Fo) & Ro).
  exists s'. split; [exact E |].
  destruct (exchange_chain s s' o pre prev self post Hc) as (H1 & H2 & H3); auto.
Qed.

(** ** The link methods at the ends of an owned chain *)

Lemma iter_from_nexts s l fuel :
  (forall pre x post, l = pre ++ x :: post ->
                      next (tasks s x) = hd_or None post) ->
  (length l < fuel)%nat ->
  iter_from fuel (hd_or None l) s = Done l s.
Proof.
  revert fuel. induction l as [|x l IH]; intros fuel H Hf.
  - destruct fuel; [simpl in Hf; lia | reflexivity].
  - destruct fuel; [simpl in Hf; lia |].
    simpl. unfold bind, get. rewrite (H [] x l eq_refl).
    rewrite IH.
    + reflexivity.
    + intros pre y post ->. apply (H (x :: pre) y post). reflexivity.
    + simpl in Hf. lia.
Qed.

Lemma iter_back_from_previouses s l fuel :
  (forall pre x post, l = pre ++ x :: post ->
                      previous (tasks s x) = last_or None pre) ->
  (length l < fuel)%nat ->
  iter_back_from fuel (last_or None l) s = Done (rev l) s.
Proof.
  revert fuel. induction l as [|x l IH] using rev_ind; intros fuel H Hf.
  - destruct fuel; [simpl in Hf; lia | reflexivity].
  - rewrite length_app in Hf. simpl in Hf.
    destruct fuel; [lia |].
    rewrite last_or_snoc, rev_app_distr. simpl.
    unfold bind, get. rewrite (H l x [] eq_refl).
    rewrite IH.
    + reflexivity.
    + intros pre y post ->. apply (H pre y (post ++ [x])).
      rewrite <- app_assoc. reflexivity.
    + lia.
Qed.

Lemma seg_at s o p pre x post n :
  seg s o p (pre ++ x :: post) n ->
  previous (tasks s x) = last_or p pre /\ next (tasks s x) = hd_or n post.
Proof.
  intros H. apply seg_app in H. destruct H as (_ & H).
  simpl in H. destruct H as (Hp & Hn & _). auto.
Qed.

Lemma last_or_cons (p q : option tid) (l : list tid) :
  l <> [] -> last_or p l = last_or q l.
Proof. destruct l; [contradiction | reflexivity]. Qed.

(** [head.move_out()] on an owned chain: the successor loses its
    [previous], then the assignment to [resource.head] raises. *)
Lemma Task_move_out_head s r self nxt post :
  chain s (Some r) (self :: nxt :: post) ->
  Task_move_out self s = Raised AttributeError (set_previous nxt None s).
Proof.
  intros Hc.
  destruct (chain_neighbours s (Some r) [] self nxt post Hc)
    as (Ps & Ns & Rs & _ & _ & _ & D1 & _).
  simpl in Ps.
  unfold Task_move_out. run_links. rewrite Ns. lk_unfold.
  repeat first [ progress lk
               | progress (rewrite ?Ns, ?Ps, ?Rs)
               | progress (unfold ret, raise)
               | progress cbv beta iota ].
  reflexivity.
Qed.

Lemma walks_after_move_out_head s r self nxt post fuel :
  chain s (Some r) (self :: nxt :: post) ->
  (length (self :: nxt :: post) < fuel)%nat ->
  iter_tasks fuel r (set_previous nxt None s)
  = Done (self :: nxt :: post) (set_previous nxt None s) /\
  iter_tasks_back fuel r (set_previous nxt None s)
  = Done (rev (nxt :: post)) (set_previous nxt None s).
Proof.
  intros (Hnd & Hseg & Hh & Ht) Hf. split.
  - unfold iter_tasks, bind, get_resource. lk_unfold. lk. rewrite Hh.
    apply iter_from_nexts; [| exact Hf].
    intros pre x post' E. rewrite E in Hseg.
    destruct (seg_at _ _ _ _ _ _ _ Hseg) as (_ & Hn).
    destruct (Nat.eq_dec x nxt) as [-> | N]; lk; exact Hn.
  - unfold iter_tasks_back, bind, get_resource. lk_unfold. lk. rewrite Ht.
    change (last_or None (self :: nxt :: post)) with (last_or None (nxt :: post)).
    apply iter_back_from_previouses; [| simpl in *; lia].
    intros pre x post' E.
    simpl in Hseg. destruct Hseg as (_ & _ & _ & Hseg).
    change (seg s (Some r) (Some self) (nxt :: post) None) in Hseg.
    rewrite E in Hseg.
    destruct (seg_at _ _ _ _ _ _ _ Hseg) as (Hp & _).
    destruct pre as [|y pre].
    + simpl in E. injection E as <- _. lk. reflexivity.
    + assert (x <> nxt) as N.
      { apply NoDup_cons_iff in Hnd. destruct Hnd as (_ & Hnd).
        rewrite E in Hnd. simpl in E. injection E as <- _.
        simpl in Hnd. apply NoDup_cons_iff in Hnd. destruct Hnd as (Hn & _).
        intros ->. apply Hn. apply in_or_app. simpl. auto. }
      lk. rewrite Hp. reflexivity.
Qed.

Ltac run_raise H1 H2 H3 :=
  run_links; rewrite ?H1; lk_unfold;
  repeat first [ progress lk
               | progress (rewrite ?H1, ?H2, ?H3)
               | progress (unfold ret, raise)
               | progress cbv beta iota ].

(** [t.move_out()] on the task before the tail of an owned chain: the
    links are rewritten up to the assignment to [resource.tail], which
    raises, and [t] is no longer on the chain. *)
Lemma Task_move_out_last s r pre self nxt :
  chain s (Some r) (pre ++ [self; nxt]) -> pre <> [] ->
  exists s',
    Task_move_out self s = Raised AttributeError s' /\
    chain s' (Some r) (pre ++ [nxt]) /\
    tasks s' self = with_previous (Some nxt) (with_next None (tasks s self)) /\
    (forall u, ~ In u (pre ++ [self; nxt]) -> tasks s' u = tasks s u) /\
    (forall u, same_data (tasks s' u) (tasks s u)) /\
    (forall r', resources s' r' = resources s r').
Proof.
  intros Hc Hpre.
  destruct (exists_last Hpre) as (pre' & pv & ->).
  destruct (chain_neighbours _ _ _ _ _ _ Hc)
    as (Ps & Ns & Rs & Pn & Nn & Rn & D1 & _ & _ & D4 & D5 & _).
  rewrite last_or_snoc in Ps, D4, D5. cbn [hd_or] in Nn.
  assert (pv <> self) as D4' by congruence.
  assert (pv <> nxt) as D5' by congruence.
  destruct Hc as (Hnd & Hseg & Hh & Ht).
  destruct (NoDup_two _ _ _ _ Hnd) as (_ & Ha1 & Hb1 & _ & _ & _ & Nd1 & _).
  apply seg_app in Hseg. destruct Hseg as (Hseg1 & Hseg2).
  cbn [seg hd_or] in Hseg2.
  set (s' := set_next self None
               (set_previous self (Some nxt)
                  (set_next pv (Some nxt) (set_previous nxt (Some pv) s)))).
  assert (Fs : tasks s' self
               = with_previous (Some nxt) (with_next None (tasks s self)))
    by (unfold s'; lk_unfold; lk; reflexivity).
  assert (Fx : tasks s' nxt = with_previous (Some pv) (tasks s nxt))
    by (unfold s'; lk_unfold; lk; reflexivity).
  assert (Fp : tasks s' pv = with_next (Some nxt) (tasks s pv))
    by (unfold s'; lk_unfold; lk; reflexivity).
  assert (Fo : forall u, u <> self -> u <> nxt -> u <> pv ->
                         tasks s' u = tasks s u)
    by (intros u N1 N2 N3; unfold s'; lk_unfold; lk; reflexivity).
  assert (Ro : forall r', resources s' r' = resources s r')
    by (intros r'; unfold s'; lk_unfold; lk; reflexivity).
  exists s'. split; [| split; [| split; [| split; [| split]]]].
  - unfold Task_move_out. run_raise Ns Ps Nn. rewrite Rs. reflexivity.
  - split; [| split].
    + apply NoDup_remove_1 in Hnd. exact Hnd.
    + apply seg_app. split.
      * cbn [hd_or].
        apply (seg_relink_last s s' (Some r) None (pre' ++ [pv]) (Some self));
          auto.
        -- intros u Hu Hlu. rewrite last_or_snoc in Hlu.
           apply Fo; congruence.
        -- intros x Hx. rewrite last_or_snoc in Hx. injection Hx as <-.
           exact Fp.
      * cbn [seg hd_or]. rewrite last_or_snoc, Fx.
        destruct Hseg2 as (_ & _ & _ & _ & Hnn & Hrn & _).
        repeat split; assumption.
    + cbn [chain]. rewrite !Ro, Hh, Ht.
      rewrite !hd_or_app, !last_or_app. cbn [hd_or last_or].
      split; [| reflexivity].
      destruct (pre' ++ [pv]) eqn:E; [destruct pre'; discriminate | reflexivity].
  - exact Fs.
  - intros u Hu. apply Fo.
    + intros ->. apply Hu. apply in_or_app. simpl. auto.
    + intros ->. apply Hu. apply in_or_app. simpl. auto.
    + intros ->. apply Hu. apply in_or_app. left. apply in_or_app. simpl. auto.
  - intros u.
    destruct (Nat.eq_dec u self) as [-> | N1];
      [rewrite Fs; apply same_data_links |].
    destruct (Nat.eq_dec u nxt) as [-> | N2];
      [rewrite Fx; apply same_data_previous |].
    destruct (Nat.eq_dec u pv) as [-> | N3];
      [rewrite Fp; apply same_data_next |].
    rewrite Fo by assumption. apply same_data_refl.
  - exact Ro.
Qed.

(** [tail.move_in()] on an owned chain: the predecessor loses its [next],
    then the assignment to [resource.tail] raises. *)
Lemma Task_move_in_tail s r pre prev self :
  chain s (Some r) (pre ++ [prev; self]) ->
  Task_move_in self s = Raised AttributeError (set_next prev None s).
Proof.
  intros Hc.
  destruct (chain_neighbours _ _ _ _ _ _ Hc)
    as (_ & _ & _ & Ps & Ns & Rs & D1 & _).
  cbn [hd_or] in Ns.
  unfold Task_move_in. run_raise Ps Ns Rs. reflexivity.
Qed.

Lemma walks_after_move_in_tail s r pre prev self fuel :
  chain s (Some r) (pre ++ [prev; self]) ->
  (length (pre ++ [prev; self]) < fuel)%nat ->
  iter_tasks fuel r (set_next prev None s)
  = Done (pre ++ [prev]) (set_next prev None s) /\
  iter_tasks_back fuel r (set_next prev None s)
  = Done (rev (pre ++ [prev; self])) (set_next prev None s).
Proof.
  intros (Hnd & Hseg & Hh & Ht) Hf.
  destruct (NoDup_two _ _ _ _ Hnd) as (D1 & Ha1 & _).
  split.
  - unfold iter_tasks, bind, get_resource. lk_unfold. lk. rewrite Hh.
    replace (hd_or None (pre ++ [prev; self]))
      with (hd_or None (pre ++ [prev]))
      by (rewrite !hd_or_app; reflexivity).
    apply iter_from_nexts;
      [| rewrite length_app in *; simpl in *; lia].
    intros pre' x post' E.
    destruct post' as [|y post'].
    + apply app_inj_tail in E. destruct E as (_ & <-). lk. reflexivity.
    + assert (x <> prev) as N.
      { intros ->. apply Ha1.
        assert (In prev (removelast (pre ++ [prev]))) as Hi.
        { rewrite E. rewrite removelast_app by discriminate.
          apply in_or_app. right. simpl. auto. }
        revert Hi. rewrite removelast_last.
        intros Hi. exact Hi. }
      lk.
      assert (pre ++ [prev; self] = pre' ++ x :: (y :: post') ++ [self]) as E'.
      { change [prev; self] with ([prev] ++ [self]).
        rewrite app_assoc, E, <- app_assoc. reflexivity. }
      rewrite E' in Hseg.
      destruct (seg_at _ _ _ _ _ _ _ Hseg) as (_ & Hn).
      rewrite Hn. reflexivity.
  - unfold iter_tasks_back, bind, get_resource. lk_unfold. lk. rewrite Ht.
    apply iter_back_from_previouses; [| exact Hf].
    intros pre' x post' E. rewrite E in Hseg.
    destruct (seg_at _ _ _ _ _ _ _ Hseg) as (Hp & _).
    destruct (Nat.eq_dec x prev) as [-> | N]; lk; exact Hp.
Qed.

(** [t.move_in()] on the task behind the head of an owned chain: raises at
    the assignment to [resource.head], and [t] is no longer on the chain. *)
Lemma Task_move_in_second s r prev self post :
  chain s (Some r) (prev :: self :: post) -> post <> [] ->
  exists s',
    Task_move_in self s = Raised AttributeError s' /\
    chain s' (Some r) (prev :: post) /\
    tasks s' self = with_previous None (with_next (Some prev) (tasks s self)) /\
    (forall u, ~ In u (prev :: self :: post) -> tasks s' u = tasks s u) /\
    (forall u, same_data (tasks s' u) (tasks s u)) /\
    (forall r', resources s' r' = resources s r').
Proof.
  intros Hc Hpost.
  destruct post as [|nx post]; [contradiction |].
  destruct (chain_neighbours s (Some r) [] prev self (nx :: post) Hc)
    as (Pp & Np & Rp & Ps & Ns & Rs & D1 & D2 & D3 & _).
  cbn [hd_or last_or] in Pp, Ns, D2, D3.
  assert (nx <> prev) as D2' by congruence.
  assert (nx <> self) as D3' by congruence.
  destruct Hc as (Hnd & Hseg & Hh & Ht).
  cbn [seg hd_or] in Hseg.
  destruct Hseg as (_ & _ & _ & _ & _ & _ & Pnx & Nnx & Rnx & Hseg).
  apply NoDup_cons_iff in Hnd. destruct Hnd as (Hp1 & Hnd).
  apply NoDup_cons_iff in Hnd. destruct Hnd as (Hs1 & Hnd).
  apply NoDup_cons_iff in Hnd. destruct Hnd as (Hx1 & Hnd).
  set (s' := set_previous self None
               (set_next self (Some prev)
                  (set_previous nx (Some prev) (set_next prev (Some nx) s)))).
  assert (Fs : tasks s' self
               = with_previous None (with_next (Some prev) (tasks s self)))
    by (unfold s'; lk_unfold; lk; reflexivity).
  assert (Fx : tasks s' nx = with_previous (Some prev) (tasks s nx))
    by (unfold s'; lk_unfold; lk; reflexivity).
  assert (Fp : tasks s' prev = with_next (Some nx) (tasks s prev))
    by (unfold s'; lk_unfold; lk; reflexivity).
  assert (Fo : forall u, u <> self -> u <> nx -> u <> prev ->
                         tasks s' u = tasks s u)
    by (intros u N1 N2 N3; unfold s'; lk_unfold; lk; reflexivity).
  assert (Ro : forall r', resources s' r' = resources s r')
    by (intros r'; unfold s'; lk_unfold; lk; reflexivity).
  exists s'. split; [| split; [| split; [| split; [| split]]]].
  - unfold Task_move_in. run_raise Ps Ns Pp. rewrite Rs. reflexivity.
  - split; [| split].
    + constructor; [| constructor; assumption].
      simpl in *. tauto.
    + cbn [seg hd_or]. rewrite Fp, Fx. cbn.
      repeat (split; [assumption || reflexivity |]).
      apply (seg_frame s s'); [| exact Hseg].
      intros u Hu. apply Fo.
      * intros ->. apply Hs1. simpl. auto.
      * intros ->. contradiction.
      * intros ->. apply Hp1. simpl. auto.
    + cbn [chain]. rewrite !Ro, Hh, Ht. split; reflexivity.
  - exact Fs.
  - intros u Hu. apply Fo.
    + intros ->. apply Hu. simpl. auto.
    + intros ->. apply Hu. simpl. auto.
    + intros ->. apply Hu. simpl. auto.
  - intros u.
    destruct (Nat.eq_dec u self) as [-> | N1];
      [rewrite Fs; apply same_data_links |].
    destruct (Nat.eq_dec u nx) as [-> | N2];
      [rewrite Fx; apply same_data_previous |].
    destruct (Nat.eq_dec u prev) as [-> | N3];
      [rewrite Fp; apply same_data_next |].
    rewrite Fo by assumption. apply same_data_refl.
  - exact Ro.
Qed.

(** ** [Task.drop] and [Task.insert] *)

Lemma Task_drop_fields s self p n o :
  previous (tasks s self) = p ->
  next (tasks s self) = n ->
  resource (tasks s self) = o ->
  p <> Some self -> n <> Some self ->
  (forall x, n = Some x -> p <> Some x) ->
  (o = None \/ (p <> None /\ n <> None)) ->
  exists s',
    Task_drop self s = Done tt s' /\
    (tasks s' self
     = with_resource None (with_next None (with_previous None (tasks s self))) /\
     (forall x, p = Some x -> tasks s' x = with_next n (tasks s x)) /\
     (forall x, n = Some x -> tasks s' x = with_previous p (tasks s x)) /\
     (forall u, u <> self -> p <> Some u -> n <> Some u ->
                tasks s' u = tasks s u)) /\
    (forall r, resources s' r = resources s r).
Proof.
  intros Hp Hn Ho D1 D2 D3 Hok.
  unfold Task_drop. run_links. lk_unfold.
  destruct n as [nx|], p as [px|], o as [r|].
  all: try (destruct Hok as [Hok | (Hok1 & Hok2)]; congruence).
  all: try pose proof (D3 _ eq_refl).
  all: repeat first [ progress lk
                    | progress (rewrite ?Hn, ?Hp, ?Ho)
                    | progress (unfold ret, raise)
                    | progress cbv beta iota ].
  all: eexists; split; [reflexivity |].
  all: split; [repeat split | intros r'; lk; reflexivity].
  all: try (intros; try discriminate; inj_some; lk; reflexivity).
Qed.

Lemma same_data_detach a :
  same_data (with_resource None (with_next None (with_previous None a))) a.
Proof. repeat split. Qed.

(** [Task.drop] on a task of a chain without resource, or inside an owned
    chain: the task is cut out and detached. *)
Lemma Task_drop_chain s o pre self post :
  chain s o (pre ++ self :: post) ->
  (o = None \/ (pre <> [] /\ post <> [])) ->
  exists s',
    Task_drop self s = Done tt s' /\
    chain s' o (pre ++ post) /\
    detached s' self /\
    (forall u, ~ In u (pre ++ self :: post) -> tasks s' u = tasks s u) /\
    (forall u, same_data (tasks s' u) (tasks s u)) /\
    (forall r, resources s' r = resources s r).
Proof.
  intros (Hnd & Hseg & Hres) Hok.
  destruct (NoDup_middle _ _ _ Hnd) as (Hs1 & Hs2 & Hpp1 & Hpp2).
  pose proof (NoDup_remove_1 _ _ _ Hnd) as Hnd'.
  pose proof (hd_or_In_None post) as Hn.
  pose proof (last_or_In_None pre) as Hl.
  destruct (seg_at _ _ _ _ _ _ _ Hseg) as (Ps & Ns).
  apply seg_app in Hseg. destruct Hseg as (Hseg1 & Hseg2).
  cbn [seg hd_or] in Hseg1, Hseg2.
  destruct Hseg2 as (_ & _ & Rs & Hseg2).
  destruct (Task_drop_fields s self _ _ o Ps Ns Rs)
    as (s' & E & (Fs & Fp & Fn & Fo) & Ro).
  { intros H. apply Hl in H. contradiction. }
  { intros H. apply Hn in H. contradiction. }
  { intros x Hx Hy. apply Hn in Hx. apply Hl in Hy.
    apply (Hpp2 x Hy). simpl. auto. }
  { now apply ends_to_links. }
  assert (Pre : forall u, In u pre -> u <> self /\ hd_or None post <> Some u).
  { intros u Hu. split; [congruence |].
    intros H. apply Hn in H. apply (Hpp2 u Hu). simpl. auto. }
  assert (Post : forall u, In u post -> u <> self /\ last_or None pre <> Some u).
  { intros u Hu. split; [congruence |].
    intros H. apply Hl in H. apply (Hpp2 u H). simpl. auto. }
  exists s'. split; [exact E |].
  split; [| split; [| split; [| split]]].
  - split; [exact Hnd' | split].
    + apply seg_app. split.
      * apply (seg_relink_last s s' o None pre (Some self));
          [exact Hseg1 | now apply NoDup_app_remove_r in Hnd' | | exact Fp].
        intros u Hu Hlu. destruct (Pre u Hu). apply Fo; auto.
      * apply (seg_relink_first s s' o (Some self) (last_or None pre) post None);
          [exact Hseg2 | now apply NoDup_app_remove_l in Hnd' | | exact Fn].
        intros u Hu Hlu. destruct (Post u Hu). apply Fo; auto.
    + destruct o as [r|]; [| exact I].
      destruct Hok as [Hok | (Hpre & Hpost)]; [discriminate |].
      destruct Hres as (Hh & Ht). rewrite !Ro, Hh, Ht.
      rewrite !hd_or_app, !last_or_app. cbn [hd_or last_or].
      split.
      * destruct pre; [contradiction | reflexivity].
      * destruct post; [contradiction | reflexivity].
  - unfold detached. rewrite Fs. repeat split.
  - intros u Hu. apply Fo.
    + intros ->. apply Hu. apply in_or_app. simpl. auto.
    + intros H. apply Hl in H. apply Hu. apply in_or_app. auto.
    + intros H. apply Hn in H. apply Hu. apply in_or_app. simpl. auto.
  - intros u.
    destruct (Nat.eq_dec u self) as [-> | N1];
      [rewrite Fs; apply same_data_detach |].
    destruct (last_or None pre) as [y|] eqn:Ey;
      [destruct (Nat.eq_dec u y) as [-> | N4];
         [rewrite (Fp y eq_refl); apply same_data_next |] |];
      (destruct (hd_or None post) as [x|] eqn:Ex;
         [destruct (Nat.eq_dec u x) as [-> | N3];
            [rewrite (Fn x eq_refl); apply same_data_previous |] |]);
      rewrite Fo; try congruence; apply same_data_refl.
  - exact Ro.
Qed.

(** [Task.drop] at the head of an owned chain raises at once; at the tail
    it first cuts the [next] of the predecessor. *)
Lemma Task_drop_head s r self post :
  chain s (Some r) (self :: post) ->
  Task_drop self s = Raised AttributeError s.
Proof.
  intros (_ & Hseg & _). cbn [seg] in Hseg.
  destruct Hseg as (Ps & _ & Rs & _).
  unfold Task_drop. run_links. rewrite Ps, Rs. reflexivity.
Qed.

Lemma Task_drop_tail s r pre pv self :
  chain s (Some r) (pre ++ [pv; self]) ->
  Task_drop self s = Raised AttributeError (set_next pv None s).
Proof.
  intros Hc.
  destruct (chain_neighbours _ _ _ _ _ _ Hc)
    as (_ & _ & _ & Ps & Ns & Rs & D1 & _).
  cbn [hd_or] in Ns.
  unfold Task_drop. run_raise Ps Ns Rs. reflexivity.
Qed.

Lemma NoDup_middle_insert (pre : list tid) x post :
  NoDup (pre ++ post) -> ~ In x (pre ++ post) -> NoDup (pre ++ x :: post).
Proof.
  induction pre as [|y pre IH]; simpl; intros Hnd Hx.
  - constructor; assumption.
  - apply NoDup_cons_iff in Hnd. destruct Hnd as (Hy & Hnd).
    constructor.
    + rewrite in_app_iff in *. simpl. intros [H | [-> | H]]; tauto.
    + apply IH; tauto.
Qed.

Lemma Task_drop_detached s task :
  detached s task ->
  exists s0,
    Task_drop task s = Done tt s0 /\
    (forall u, tasks s0 u = tasks s u) /\
    (forall r, resources s0 r = resources s r).
Proof.
  intros (Hn & Hp & Hr).
  destruct (Task_drop_fields s task None None None Hp Hn Hr)
    as (s0 & E & (Fs & _ & _ & Fo) & Ro); try discriminate; auto.
  exists s0. split; [exact E | split; [| exact Ro]].
  intros u. destruct (Nat.eq_dec u task) as [-> | N].
  - rewrite Fs. apply task_ext; simpl; auto.
  - apply Fo; auto; discriminate.
Qed.

Lemma same_data_insert a p n o :
  same_data (with_previous p (with_next n (with_resource o a))) a.
Proof. repeat split. Qed.

(** [self.insert(task)] once [task.drop()] has returned and left [task]
    detached: [task] is linked in front of [self], when the chain has no
    resource or [self] is not its head. *)
Lemma Task_insert_after_drop s0 s o pre self post task :
  Task_drop task s0 = Done tt s ->
  chain s o (pre ++ self :: post) ->
  ~ In task (pre ++ self :: post) ->
  (o = None \/ pre <> []) ->
  exists s',
    Task_insert self task s0 = Done tt s' /\
    chain s' o (pre ++ task :: self :: post) /\
    (forall u, ~ In u (pre ++ task :: self :: post) -> tasks s' u = tasks s u) /\
    (forall u, same_data (tasks s' u) (tasks s u)) /\
    (forall r, resources s' r = resources s r).
Proof.
  intros E (Hnd & Hseg & Hres) Hout Hok.
  destruct (NoDup_middle _ _ _ Hnd) as (Hs1 & Hs2 & Hpp1 & Hpp2).
  pose proof (last_or_In_None pre) as Hl.
  destruct (seg_at _ _ _ _ _ _ _ Hseg) as (Ps & Ns).
  apply seg_app in Hseg. destruct Hseg as (Hseg1 & Hseg2).
  cbn [seg hd_or] in Hseg1, Hseg2.
  destruct Hseg2 as (_ & _ & Rs & Hseg2).
  assert (task <> self) as D1
    by (intros ->; apply Hout; apply in_or_app; simpl; auto).
  assert (last_or None pre <> Some task) as D2
    by (intros H; apply Hl in H; apply Hout; apply in_or_app; auto).
  assert (last_or None pre <> Some self) as D3
    by (intros H; apply Hl in H; contradiction).
  set (s1 := match last_or None pre with
             | Some pv => set_next pv (Some task) (set_resource task o s)
             | None => set_resource task o s
             end).
  set (s' := set_previous self (Some task)
               (set_previous task (last_or None pre)
                  (set_next task (Some self) s1))).
  assert (Fs : tasks s' self = with_previous (Some task) (tasks s self)).
  { unfold s', s1. destruct (last_or None pre) as [pv|];
      lk_unfold; lk; reflexivity. }
  assert (Ft : tasks s' task
               = with_previous (last_or None pre)
                   (with_next (Some self) (with_resource o (tasks s task)))).
  { unfold s', s1. destruct (last_or None pre) as [pv|];
      lk_unfold; lk; reflexivity. }
  assert (Fp : forall x, last_or None pre = Some x ->
                         tasks s' x = with_next (Some task) (tasks s x)).
  { intros x Hx. unfold s', s1. rewrite Hx in *.
    lk_unfold. lk. reflexivity. }
  assert (Fo : forall u, u <> self -> u <> task -> last_or None pre <> Some u ->
                         tasks s' u = tasks s u).
  { intros u N1 N2 N3. unfold s', s1. destruct (last_or None pre) as [pv|];
      lk_unfold; lk; reflexivity. }
  assert (Ro : forall r, resources s' r = resources s r).
  { intros r. unfold s', s1. destruct (last_or None pre) as [pv|];
      lk_unfold; lk; reflexivity. }
  exists s'. split; [| split; [| split; [| split]]].
  - unfold Task_insert, Task_insert_with. unfold bind at 1. rewrite E.
    run_links. lk_unfold.
    repeat first [ progress lk
                 | progress (rewrite ?Ps, ?Rs)
                 | progress (unfold ret, raise)
                 | progress cbv beta iota ].
    unfold s', s1. lk_unfold.
    destruct (last_or None pre) as [pv|] eqn:El.
    + repeat first [ progress lk
                   | progress (rewrite ?Ps, ?Rs)
                   | progress (unfold ret, raise)
                   | progress cbv beta iota ].
      reflexivity.
    + apply last_or_None_nil in El.
      destruct Hok as [-> | Hpre]; [| contradiction].
      repeat first [ progress lk
                   | progress (rewrite ?Ps, ?Rs)
                   | progress (unfold ret, raise)
                   | progress cbv beta iota ].
      reflexivity.
  - split; [| split].
    + apply NoDup_middle_insert; assumption.
    + apply seg_app. cbn [seg hd_or].
      split; [| split; [| split; [| split; [| split; [| split; [| split]]]]]].
      * apply (seg_relink_last s s' o None pre (Some self));
          [exact Hseg1 | now apply NoDup_app_remove_r in Hnd | | exact Fp].
        intros u Hu Hlu. apply Fo; auto.
        -- congruence.
        -- intros ->. apply Hout. apply in_or_app. auto.
      * rewrite Ft. reflexivity.
      * rewrite Ft. reflexivity.
      * rewrite Ft. reflexivity.
      * rewrite Fs. reflexivity.
      * rewrite Fs. exact Ns.
      * rewrite Fs. exact Rs.
      * apply (seg_frame s s'); [| exact Hseg2].
        intros u Hu. apply Fo.
        -- congruence.
        -- intros ->. apply Hout. apply in_or_app. simpl. auto.
        -- intros H. apply Hl in H. apply (Hpp2 u H). simpl. auto.
    + destruct o as [r|]; [| exact I].
      destruct Hok as [Hok | Hpre]; [discriminate |].
      destruct Hres as (Hh & Ht). rewrite !Ro, Hh, Ht.
      rewrite !hd_or_app, !last_or_app. cbn [hd_or last_or].
      split; [| reflexivity].
      destruct pre; [contradiction | reflexivity].
  - intros u Hu. apply Fo.
    + intros ->. apply Hu. apply in_or_app. simpl. auto.
    + intros ->. apply Hu. apply in_or_app. simpl. auto.
    + intros H. apply Hl in H. apply Hu. apply in_or_app. auto.
  - intros u.
    destruct (Nat.eq_dec u self) as [-> | N1];
      [rewrite Fs; apply same_data_previous |].
    destruct (Nat.eq_dec u task) as [-> | N2];
      [rewrite Ft; apply same_data_insert |].
    destruct (last_or None pre) as [y|] eqn:Ey;
      [destruct (Nat.eq_dec u y) as [-> | N4];
         [rewrite (Fp y eq_refl); apply same_data_next |] |];
      rewrite Fo; try congruence; apply same_data_refl.
  - exact Ro.
Qed.

(** [head.insert(task)] on an owned chain: [task] gets the resource, then
    the assignment to [resource.head] raises and [task] is not linked. *)
Lemma Task_insert_head s r self post task :
  chain s (Some r) (self :: post) ->
  detached s task ->
  ~ In task (self :: post) ->
  exists s',
    Task_insert self task s = Raised AttributeError s' /\
    chain s' (Some r) (self :: post) /\
    tasks s' task = with_resource (Some r) (tasks s task) /\
    (forall u, u <> task -> tasks s' u = tasks s u) /\
    (forall r', resources s' r' = resources s r').
Proof.
  intros Hc Hdet Hout.
  pose proof Hc as (Hnd & Hseg & Hres).
  cbn [seg] in Hseg. destruct Hseg as (Ps & _ & Rs & _).
  destruct (Task_drop_detached s task Hdet) as (s0 & E & T0 & R0).
  assert (task <> self) as D1 by (intros ->; apply Hout; simpl; auto).
  exists (set_resource task (Some r) s0).
  split; [| split; [| split; [| split]]].
  - unfold Task_insert, Task_insert_with. unfold bind at 1. rewrite E.
    run_links. lk_unfold.
    repeat first [ progress lk
                 | progress (rewrite ?T0, ?Ps, ?Rs)
                 | progress (unfold ret, raise)
                 | progress cbv beta iota ].
    reflexivity.
  - destruct Hc as (_ & Hseg & _).
    split; [exact Hnd | split].
    + apply (seg_frame s); [| exact Hseg].
      intros u Hu. lk_unfold.
      assert (u <> task) by (intros ->; contradiction).
      lk. apply T0.
    + cbn [chain]. lk_unfold. lk. rewrite R0. exact Hres.
  - lk_unfold. lk. rewrite T0. reflexivity.
  - intros u N. lk_unfold. lk. apply T0.
  - intros r'. lk_unfold. lk. apply R0.
Qed.

(** ** Stores that agree *)

Lemma chain_frame s s' o l :
  (forall u, In u l -> tasks s' u = tasks s u) ->
  (forall r, resources s' r = resources s r) ->
  chain s o l -> chain s' o l.
Proof.
  intros T R (Hnd & Hseg & Hres).
  split; [exact Hnd | split].
  - now apply (seg_frame s).
  - destruct o as [r|]; [| exact I]. cbn [chain] in *. now rewrite !R.
Qed.

(** Two stores that hold the same chain and the same data hold the same
    task records. *)
Lemma chain_tasks_eq s s' o l :
  chain s o l -> chain s' o l ->
  (forall u, same_data (tasks s' u) (tasks s u)) ->
  (forall u, ~ In u l -> tasks s' u = tasks s u) ->
  forall u, tasks s' u = tasks s u.
Proof.
  intros (_ & Hseg & _) (_ & Hseg' & _) D O u.
  destruct (in_dec Nat.eq_dec u l) as [Hin | Hout]; [| now apply O].
  pose proof (seg_resource _ _ _ _ _ _ Hseg Hin) as R.
  pose proof (seg_resource _ _ _ _ _ _ Hseg' Hin) as R'.
  apply in_split in Hin. destruct Hin as (a & b & ->).
  destruct (seg_at _ _ _ _ _ _ _ Hseg) as (P & N).
  destruct (seg_at _ _ _ _ _ _ _ Hseg') as (P' & N').
  destruct (D u) as (D1 & D2 & D3 & D4 & D5 & D6).
  apply task_ext; congruence.
Qed.

Lemma not_in_swap (pre : list tid) a b post u :
  ~ In u (pre ++ a :: b :: post) -> ~ In u (pre ++ b :: a :: post).
Proof.
  intros H Hin. apply H. apply in_app_or in Hin. apply in_or_app.
  simpl in *. tauto.
Qed.

Lemma not_in_insert (pre : list tid) x post u :
  ~ In u (pre ++ x :: post) -> ~ In u (pre ++ post).
Proof.
  intros H Hin. apply H. apply in_app_or in Hin. apply in_or_app.
  simpl. tauto.
Qed.

(** * Claims *)

Lemma tidied_clean s s' l :
  tidied l s s' -> all_clean s l ->
  (forall t, tasks s' t = tasks s t) /\
  (forall r, resources s' r = resources s r).
Proof.
  intros ((R & _) & O & C) A. split; [| exact R].
  intros t. destruct (in_dec Nat.eq_dec t l) as [Hin | Hout]; auto.
Qed.

Lemma chain_same s s' o l :
  (forall t, tasks s' t = tasks s t) ->
  (forall r, resources s' r = resources s r) ->
  chain s o l -> chain s' o l.
Proof.
  intros T R. apply chain_static. split; [exact R |].
  intros t. rewrite T. apply same_static_refl.
Qed.

(** ** Invalidation and the cached start *)

(** C1 (the code departs from the claim).  Tasks A, B on one resource, all
    caches clean after [schedule()].  [A.move_out()] is a structural
    mutation at position 0, after which A and B should be dirty with B in
    front.  The call raises [RuntimeError] at [super()], before the links
    are touched and before [invalidate()]: the order is still A, B and both
    tasks are still clean.  [B.move_in()] and [A.insert(B)] do the same;
    [A.drop()] marks A and B and then raises, so that A stays where it
    was. *)
Theorem move_out_raises_and_marks_nothing :
  value ((schedule 3 0%nat ;;
          before <- iter_tasks 3 0%nat ;;
          dirty_before <- inspect (fun s => map (fun t => _dirty (tasks s t)) before) ;;
          r <- catch (move_out 3 0%nat) ;;
          after <- iter_tasks 3 0%nat ;;
          dirty_after <- inspect (fun s => map (fun t => _dirty (tasks s t)) after) ;;
          ret (before, dirty_before, r, after, dirty_after)) store_AB)
  = Some ([0%nat; 1%nat], [false; false], inr RuntimeError,
          [0%nat; 1%nat], [false; false]) /\
  value ((schedule 3 0%nat ;;
          r <- catch (move_in 3 1%nat) ;;
          after <- iter_tasks 3 0%nat ;;
          dirty_after <- inspect (fun s => map (fun t => _dirty (tasks s t)) after) ;;
          ret (r, after, dirty_after)) store_AB)
  = Some (inr RuntimeError, [0%nat; 1%nat], [false; false]) /\
  value ((schedule 3 0%nat ;;
          r <- catch (insert 3 0%nat 1%nat) ;;
          after <- iter_tasks 3 0%nat ;;
          dirty_after <- inspect (fun s => map (fun t => _dirty (tasks s t)) after) ;;
          ret (r, after, dirty_after)) store_AB)
  = Some (inr RuntimeError, [0%nat; 1%nat], [false; false]) /\
  value ((schedule 3 0%nat ;;
          r <- catch (drop 3 0%nat) ;;
          after <- iter_tasks 3 0%nat ;;
          dirty_after <- inspect (fun s => map (fun t => _dirty (tasks s t)) after) ;;
          ret (r, after, dirty_after)) store_AB)
  = Some (inr RuntimeError, [0%nat; 1%nat], [true; true]).
Proof. split; [| split; [| split]]; vm_compute; reflexivity. Qed.

(** C2 (the code departs from the claim).  A freshly constructed task with
    target -5 and no predecessor is dirty; reading [start] runs
    [calculate], which clears [dirty] and sets the earliest start to 0 but
    leaves the start at -5, below the earliest start. *)
Theorem calculate_no_predecessor_keeps_start :
  (previous (tasks store_neg 0%nat), _dirty (tasks store_neg 0%nat))
  = (None, true) /\
  value ((v <- start 1 0%nat ;;
          a <- inspect (fun s => tasks s 0%nat) ;;
          ret (v, _dirty a, _earliest_start a, _start a,
               _start a <? _earliest_start a)) store_neg)
  = Some (-5, false, 0, -5, true).
Proof. split; vm_compute; reflexivity. Qed.

(** ** The sweeps *)

(** C3, as stated, fails: on the two-task input the backward sweep run from
    the tail B leaves B at start 5, although B is the tail and its target is
    0. *)
Lemma schedule_backward_tail_not_at_target :
  tail (resources store_AB 0%nat) = Some 1%nat /\
  exists st tg,
    value ((schedule_backward 3 1%nat ;;
            st <- start 3 1%nat ;;
            tg <- get _target 1%nat ;;
            n <- get next 1%nat ;;
            ret (n, st, tg)) store_AB)
    = Some (None, st, tg) /\
    st <> tg.
Proof.
  split; [reflexivity |].
  exists 5, 0. split; [vm_compute; reflexivity | discriminate].
Qed.

(** C3, amended.  On a well-linked chain [l] of a resource whose refreshed
    earliest starts and whose targets are C [int]s, the backward sweep run
    from the tail returns and leaves every task clean; a read of [start] or
    [earliest_start] then returns the stored value.  Every task with a
    successor [n] has
    [start = max(earliest_start, min(target, n.start - n.min_margin_before - duration))],
    and the tail has [start = max(earliest_start, target)]: the setter of
    [start] never goes below the earliest start. *)
Theorem schedule_backward_starts (s : Store) (r : rid) (l : list tid)
        (tail_task : tid) (fuel : nat) :
  chain s (Some r) l ->
  tail (resources s r) = Some tail_task ->
  es_fit s l ->
  targets_fit s l ->
  (length l < fuel)%nat ->
  exists s',
    schedule_backward fuel tail_task s = Done tt s' /\
    chain s' (Some r) l /\
    (forall t, In t l ->
       _dirty (tasks s' t) = false /\
       start fuel t s' = Done (_start (tasks s' t)) s' /\
       earliest_start fuel t s' = Done (_earliest_start (tasks s' t)) s') /\
    (forall pre t post, l = pre ++ t :: post ->
       _start (tasks s' t) =
       Z.max (_earliest_start (tasks s' t))
             (match post with
              | [] => _target (tasks s' t)
              | n :: _ =>
                  Z.min (_target (tasks s' t))
                        (_start (tasks s' n) - _min_margin_before (tasks s' n)
                         - _duration (tasks s' t))
              end)).
Proof.
  intros Hc Ht Hes Htg Hf.
  pose proof Hc as (Hnd & Hseg & Hh & Ht').
  rewrite Ht in Ht'. symmetry in Ht'.
  pose proof (schedule_backward_ends s (Some r) l tail_task fuel Hnd Hseg Ht' Hf)
    as H.
  apply ends_inv in H.
  destruct H as [([] & s' & E & S' & O' & C' & (A' & B' & F') & P')
                | (e & s' & E & _ & _ & _ & N)]; [| tauto].
  exists s'.
  split; [exact E |].
  split; [eapply chain_static; eauto |].
  split.
  - intros t Hin. pose proof (A' t Hin) as Hd.
    split; [exact Hd |].
    split; [now apply start_clean | now apply earliest_start_clean].
  - intros pre t post El. eapply backward_ok_at; eauto.
Qed.

Lemma schedule_backward_starts_witness :
  exists s',
    schedule_backward 3 1%nat store_AB = Done tt s' /\
    chain s' (Some 0%nat) [0%nat; 1%nat] /\
    (forall t, In t [0%nat; 1%nat] ->
       _dirty (tasks s' t) = false /\
       start 3 t s' = Done (_start (tasks s' t)) s' /\
       earliest_start 3 t s' = Done (_earliest_start (tasks s' t)) s') /\
    (forall pre t post, [0%nat; 1%nat] = pre ++ t :: post ->
       _start (tasks s' t) =
       Z.max (_earliest_start (tasks s' t))
             (match post with
              | [] => _target (tasks s' t)
              | n :: _ =>
                  Z.min (_target (tasks s' t))
                        (_start (tasks s' n) - _min_margin_before (tasks s' n)
                         - _duration (tasks s' t))
              end)).
Proof.
  apply (schedule_backward_starts store_AB 0%nat [0%nat; 1%nat] 1%nat 3).
  - split; [| split].
    + repeat constructor; simpl; intuition discriminate.
    + vm_compute. intuition reflexivity.
    + vm_compute. intuition reflexivity.
  - reflexivity.
  - apply es_fit_check. vm_compute. reflexivity.
  - apply targets_fit_check. vm_compute. reflexivity.
  - simpl. lia.
Defined.

(** C7.  On a well-linked chain, [schedule()] either raises [OverflowError],
    when a start or the score leaves the range of a C [int], or it returns;
    called again with nothing in between, it then returns the same score,
    and the second call leaves every task, hence every start, and every
    resource as the first call left them. *)
Theorem schedule_idempotent (s : Store) (r : rid) (l : list tid) (fuel : nat) :
  chain s (Some r) l ->
  (length l < fuel)%nat ->
  (exists s', schedule fuel r s = Raised OverflowError s') \/
  (exists score s1 s2,
     schedule fuel r s = Done score s1 /\
     schedule fuel r s1 = Done score s2 /\
     (forall t, tasks s2 t = tasks s1 t) /\
     (forall r', resources s2 r' = resources s1 r')).
Proof.
  intros Hc Hf.
  destruct l as [|x l'] eqn:El.
  { right. destruct Hc as (_ & _ & Hh & Ht). simpl in Hh, Ht.
    exists 0, s, s. rewrite (schedule_empty fuel r s Hh Ht). auto. }
  rewrite <- El in *.
  assert (Hne : l <> []) by (rewrite El; discriminate).
  pose proof (schedule_ends s r l fuel Hc Hne Hf) as H.
  apply ends_inv in H.
  destruct H as [(score & s1 & E1 & P1) | (e & s' & E1 & -> & _)];
    [right | left; eauto].
  destruct (schedule_again s r l fuel score s1 Hc Hne Hf P1) as (s2 & E2 & T2 & R2).
  exists score, s1, s2. auto.
Qed.

Lemma schedule_idempotent_witness :
  exists score s1 s2,
    schedule 3 0%nat store_AB = Done score s1 /\
    schedule 3 0%nat s1 = Done score s2 /\
    (forall t, tasks s2 t = tasks s1 t) /\
    (forall r', resources s2 r' = resources s1 r').
Proof.
  destruct (schedule_idempotent store_AB 0%nat [0%nat; 1%nat] 3) as [(s' & E) | H].
  - split; [| split].
    + repeat constructor; simpl; intuition discriminate.
    + vm_compute. intuition reflexivity.
    + vm_compute. intuition reflexivity.
  - simpl. lia.
  - apply (f_equal value) in E. vm_compute in E. discriminate E.
  - exact H.
Defined.

(** ** Local search *)

(** C4.  On a well-linked chain [schedule()] raises [OverflowError] or
    returns a score, which is the total lateness of the store that it
    leaves.  [improve()], called next, comes to an end: it returns 0, or it
    raises [RuntimeError] at the first exchange whose computed gain is
    negative, where [task.move_in()] stops at [super()], or it raises
    [OverflowError] in a conversion.  In each case every task and every
    resource is as [schedule()] left it: no exchange has been applied, the
    order is the same, and the total lateness is still the score.  An
    exchange is taken up only when its computed gain is strictly
    negative. *)
Theorem schedule_then_improve_keeps_score (s : Store) (r : rid)
        (l : list tid) (fuel : nat) :
  chain s (Some r) l ->
  (length l < fuel)%nat ->
  (exists s', schedule fuel r s = Raised OverflowError s') \/
  (exists score s1 s2,
     schedule fuel r s = Done score s1 /\
     total_lateness s1 l = score /\
     (improve fuel r s1 = Done 0 s2 \/
      improve fuel r s1 = Raised OverflowError s2 \/
      improve fuel r s1 = Raised RuntimeError s2 /\
      exists t1 t2, adjacent l t1 t2 /\ exchange_gain s2 t1 t2 < 0) /\
     (forall t, tasks s2 t = tasks s1 t) /\
     (forall r', resources s2 r' = resources s1 r') /\
     chain s2 (Some r) l /\
     total_lateness s2 l <= score).
Proof.
  intros Hc Hf.
  destruct l as [|x l'] eqn:El.
  { right. pose proof Hc as (_ & _ & Hh & Ht). simpl in Hh, Ht.
    exists 0, s, s. rewrite (schedule_empty fuel r s Hh Ht).
    rewrite (improve_empty fuel r s Ht). simpl.
    repeat (split; [auto |]). lia. }
  rewrite <- El in *.
  assert (Hne : l <> []) by (rewrite El; discriminate).
  pose proof (schedule_ends s r l fuel Hc Hne Hf) as H.
  apply ends_inv in H.
  destruct H as [(score & s1 & E1 & P1) | (e & s' & E1 & -> & _)];
    [right | left; eauto].
  pose proof (schedule_post_facts l s score s1 P1)
    as (S1 & _ & _ & A1 & Escore & _).
  assert (Hc1 : chain s1 (Some r) l) by (eapply chain_static; eauto).
  pose proof (improve_ends s1 r l fuel Hc1 Hf) as H.
  apply ends_inv in H.
  assert (Hsame : forall s2, tidied l s1 s2 ->
            (forall t, tasks s2 t = tasks s1 t) /\
            (forall r', resources s2 r' = resources s1 r') /\
            chain s2 (Some r) l /\
            total_lateness s2 l <= score).
  { intros s2 T. destruct (tidied_clean s1 s2 l T A1) as (T2 & R2).
    split; [exact T2 | split; [exact R2 | split]].
    - now apply (chain_same s1).
    - rewrite (total_lateness_same s1 s2 l) by (intros; apply T2). lia. }
  destruct H as [(v & s2 & E2 & -> & T & _) | (e & s2 & E2 & T & He)];
    exists score, s1, s2.
  - split; [exact E1 | split; [now symmetry | split; [now left |]]].
    now apply Hsame.
  - split; [exact E1 | split; [now symmetry | split]].
    + destruct He as [-> | (-> & He)]; [right; left | right; right]; auto.
    + now apply Hsame.
Qed.

Lemma schedule_then_improve_keeps_score_witness :
  exists score s1 s2,
    schedule 3 0%nat store_BA = Done score s1 /\
    total_lateness s1 [0%nat; 1%nat] = score /\
    (improve 3 0%nat s1 = Done 0 s2 \/
     improve 3 0%nat s1 = Raised OverflowError s2 \/
     improve 3 0%nat s1 = Raised RuntimeError s2 /\
     exists t1 t2, adjacent [0%nat; 1%nat] t1 t2 /\ exchange_gain s2 t1 t2 < 0) /\
    (forall t, tasks s2 t = tasks s1 t) /\
    (forall r', resources s2 r' = resources s1 r') /\
    chain s2 (Some 0%nat) [0%nat; 1%nat] /\
    total_lateness s2 [0%nat; 1%nat] <= score.
Proof.
  destruct (schedule_then_improve_keeps_score store_BA 0%nat [0%nat; 1%nat] 3)
    as [(s' & E) | H].
  - split; [| split].
    + repeat constructor; simpl; intuition discriminate.
    + vm_compute. intuition reflexivity.
    + vm_compute. intuition reflexivity.
  - simpl. lia.
  - apply (f_equal value) in E. vm_compute in E. discriminate E.
  - exact H.
Defined.

(** C5 (the code departs from the claim).  On the two-task input
    [schedule()] returns 5, with A at 0 and B at 5, and the dry run of the
    exchange on B computes the gain -4.  [improve()] then does not return:
    it takes up the exchange, and [task.move_in()] raises [RuntimeError] at
    [super()].  Nothing is exchanged; the order is still A, B with the
    starts 0 and 5 and the total lateness 5. *)
Theorem improve_example_raises :
  value ((score <- schedule 3 0%nat ;;
          before <- iter_tasks 3 0%nat ;;
          starts_before <- inspect (fun s => map (fun t => _start (tasks s t)) before) ;;
          gain <- improvement_move_in 3 1%nat false ;;
          r <- catch (improve 3 0%nat) ;;
          after <- iter_tasks 3 0%nat ;;
          starts_after <- inspect (fun s => map (fun t => _start (tasks s t)) after) ;;
          late <- inspect (fun s => total_lateness s after) ;;
          ret (score, before, starts_before, gain, r, after, starts_after, late))
           store_AB)
  = Some (5, [0%nat; 1%nat], [0; 5], -4, inr RuntimeError,
          [0%nat; 1%nat], [0; 5], 5).
Proof. vm_compute. reflexivity. Qed.

(** C6.  On a well-linked chain of [n] tasks [improve()] comes to an end
    within [n] evaluations of the gain, hence within [n * n]: a budget of
    [n + 1] turns of its loop, the last of which finds the cursor empty,
    gives the outcome of the call.  When it returns, the value is 0, the sum
    of the gains of no exchange: none has been applied, and no exchange of
    neighbours has a negative gain.  Otherwise it raises [RuntimeError] at
    the first exchange whose gain is negative, or [OverflowError] in a
    conversion.  In each case the chain is the same; the call has at most
    recalculated dirty tasks of the chain.  *)
Theorem improve_terminates (s : Store) (r : rid) (l : list tid) (fuel : nat) :
  chain s (Some r) l ->
  (length l < fuel)%nat ->
  improve fuel r s =
    match last_or None l with
    | None => Done 0 s
    | Some t => improve_loop fuel (S (length l)) (Some t) 0 s
    end /\
  ((exists s',
      improve fuel r s = Done 0 s' /\
      chain s' (Some r) l /\ tidied l s s' /\
      (forall t1 t2, adjacent l t1 t2 -> 0 <= exchange_gain s' t1 t2)) \/
   (exists s',
      improve fuel r s = Raised RuntimeError s' /\
      chain s' (Some r) l /\ tidied l s s' /\
      (exists t1 t2, adjacent l t1 t2 /\ exchange_gain s' t1 t2 < 0)) \/
   (exists s',
      improve fuel r s = Raised OverflowError s' /\
      chain s' (Some r) l /\ tidied l s s')).
Proof.
  intros Hc Hf.
  split; [now apply improve_turns |].
  pose proof (improve_ends s r l fuel Hc Hf) as H.
  apply ends_inv in H.
  destruct H as [(v & s' & E & -> & T & G) | (e & s' & E & T & He)].
  - left. exists s'.
    split; [exact E | split; [eapply chain_static; [apply T | exact Hc] |]].
    auto.
  - assert (Hc' : chain s' (Some r) l)
      by (eapply chain_static; [apply T | exact Hc]).
    destruct He as [-> | (-> & He)]; right; [right | left]; exists s'; auto.
Qed.

Lemma improve_terminates_witness :
  improve 3 0%nat store_BA = improve_loop 3 3 (Some 1%nat) 0 store_BA /\
  exists s',
    improve 3 0%nat store_BA = Done 0 s' /\
    chain s' (Some 0%nat) [0%nat; 1%nat] /\ tidied [0%nat; 1%nat] store_BA s' /\
    (forall t1 t2, adjacent [0%nat; 1%nat] t1 t2 -> 0 <= exchange_gain s' t1 t2).
Proof.
  destruct (improve_terminates store_BA 0%nat [0%nat; 1%nat] 3)
    as (E & [H | [(s' & E' & _) | (s' & E' & _)]]).
  - split; [| split].
    + repeat constructor; simpl; intuition discriminate.
    + vm_compute. intuition reflexivity.
    + vm_compute. intuition reflexivity.
  - simpl. lia.
  - split; [exact E | exact H].
  - apply (f_equal value) in E'. vm_compute in E'. discriminate E'.
  - apply (f_equal value) in E'. vm_compute in E'. discriminate E'.
Defined.

(** ** The link invariant *)

(** C8 (the code departs from the claim).  Two objects of class [Task], A
    and B, attached to one resource with [add_tail]; the walks from the two
    ends return A, B and B, A.  [A.move_out()] is a call within the
    contract: A has a successor.  It sets [B.previous] and then raises
    [AttributeError] at [self.resource.head = nxt], since [head] is no
    attribute that a task can assign.  Afterwards the walk from the head
    still returns A, B, and the walk from the tail returns B alone: the two
    walks are no longer the reverse of each other.  In the same way
    [B.move_in()] leaves the walks A and B, A. *)
Theorem move_out_at_head_breaks_links :
  value ((forward <- iter_tasks 3 0%nat ;;
          backward <- iter_tasks_back 3 0%nat ;;
          ret (forward, backward)) store_plain)
  = Some ([0%nat; 1%nat], [1%nat; 0%nat]) /\
  value ((r <- catch (Task_move_out 0%nat) ;;
          forward <- iter_tasks 3 0%nat ;;
          backward <- iter_tasks_back 3 0%nat ;;
          ret (r, forward, backward, rev forward)) store_plain)
  = Some (inr AttributeError, [0%nat; 1%nat], [1%nat], [1%nat; 0%nat]) /\
  value ((r <- catch (Task_move_in 1%nat) ;;
          forward <- iter_tasks 3 0%nat ;;
          backward <- iter_tasks_back 3 0%nat ;;
          ret (r, forward, backward, rev forward)) store_plain)
  = Some (inr AttributeError, [0%nat], [1%nat; 0%nat], [0%nat]).
Proof. split; [| split]; vm_compute; reflexivity. Qed.

(** ** The constructor *)

(** C9, as stated, fails: a negative duration and a negative margin are
    accepted. *)
Lemma init_accepts_negative_duration :
  ~ (forall duration target min_margin_before,
        duration < 0 \/ min_margin_before < 0 ->
        SchedulingTask_init duration target min_margin_before = None).
Proof.
  intros H.
  specialize (H (-1) 0 0 (or_introl eq_refl)).
  vm_compute in H.
  discriminate H.
Qed.

(** C9, amended.  The constructor performs no validation: for all arguments
    in the C [int] range, negative ones included, it returns a task that
    stores them as given, with [start = target], earliest start 0, dirty and
    detached. *)
Theorem init_stores_arguments (duration target min_margin_before : Z) :
  fits_int duration = true ->
  fits_int target = true ->
  fits_int min_margin_before = true ->
  SchedulingTask_init duration target min_margin_before =
  Some (mkTask None None None duration target min_margin_before true 0 target).
Proof.
  intros Hd Ht Hm.
  unfold SchedulingTask_init.
  rewrite Hd, Ht, Hm.
  reflexivity.
Qed.

Lemma init_stores_arguments_witness :
  SchedulingTask_init (-3) 7 (-2) =
  Some (mkTask None None None (-3) 7 (-2) true 0 7).
Proof.
  apply (init_stores_arguments (-3) 7 (-2)); reflexivity.
Defined.

(** ** Empty resources *)

(** C10.  On a resource without tasks [schedule()] and [improve()] return 0
    and leave the store as it is, whatever the budget. *)
Theorem empty_resource_schedule_improve (fuel : nat) (self : rid) (s : Store) :
  head (resources s self) = None ->
  tail (resources s self) = None ->
  schedule fuel self s = Done 0 s /\ improve fuel self s = Done 0 s.
Proof.
  intros Hh Ht. split.
  - now apply schedule_empty.
  - now apply improve_empty.
Qed.

Lemma empty_resource_schedule_improve_witness :
  schedule 0 0%nat empty_store = Done 0 empty_store /\
  improve 0 0%nat empty_store = Done 0 empty_store.
Proof.
  apply (empty_resource_schedule_improve 0 0%nat empty_store); reflexivity.
Defined.

(** * Further properties of the cache *)

Lemma prefix_fuel (pre : list tid) t post fuel :
  (length (pre ++ t :: post) < fuel)%nat -> (length pre < fuel)%nat.
Proof. rewrite length_app. simpl. lia. Qed.

(** X1.  On a task of a well-linked chain whose refreshed earliest starts up
    to that task are C [int]s, a read of [start] returns; a second read
    returns the same value and leaves the store as the first read left it.
    The read changes no link, no parameter, no task behind the one that is
    read and no task that was clean. *)
Theorem start_read_is_cached (s : Store) (o : option rid)
        (pre : list tid) (t : tid) (post : list tid) (fuel : nat) :
  chain s o (pre ++ t :: post) ->
  es_fit s (pre ++ [t]) ->
  (length (pre ++ t :: post) < fuel)%nat ->
  exists v s',
    start fuel t s = Done v s' /\
    start fuel t s' = Done v s' /\
    _dirty (tasks s' t) = false /\
    static_eq s s' /\
    (forall u, In u post -> tasks s' u = tasks s u) /\
    (forall u, _dirty (tasks s u) = false -> tasks s' u = tasks s u).
Proof.
  intros (Hnd & Hs & _) Hfit Hf.
  destruct (seg_middle _ _ _ _ _ _ _ Hs) as (_ & _ & _ & Hp).
  destruct (start_spec pre t post s o _ fuel Hnd Hp (prefix_fuel _ _ _ _ Hf) Hfit)
    as (s' & E & (S' & O' & C') & D' & _).
  exists (_start (tasks s' t)), s'.
  split; [exact E |].
  split; [now apply start_clean |].
  split; [exact D' |].
  split; [exact S' |].
  split; [| exact C'].
  intros u Hu. apply O'.
  destruct (NoDup_middle _ _ _ Hnd) as (_ & _ & Hpost & _). now apply Hpost.
Qed.

Lemma start_read_is_cached_witness :
  exists v s',
    start 3 1%nat store_AB = Done v s' /\
    start 3 1%nat s' = Done v s' /\
    _dirty (tasks s' 1%nat) = false /\
    static_eq store_AB s' /\
    (forall u, In u [] -> tasks s' u = tasks store_AB u) /\
    (forall u, _dirty (tasks store_AB u) = false -> tasks s' u = tasks store_AB u).
Proof.
  apply (start_read_is_cached store_AB (Some 0%nat) [0%nat] 1%nat [] 3).
  - split; [| split].
    + repeat constructor; simpl; intuition discriminate.
    + vm_compute. intuition reflexivity.
    + vm_compute. intuition reflexivity.
  - apply es_fit_check. vm_compute. reflexivity.
  - simpl. lia.
Defined.

(** X2.  The assignment [t.start = v] of a value [v] that is not above the
    largest C [int], on a task of a well-linked chain whose refreshed
    earliest starts up to that task are C [int]s, returns; afterwards the
    task is clean, a read of [start] returns [max(earliest_start, v)], where
    [earliest_start] is what a read of that property returns, and neither
    read changes the store.  The tasks behind [t] are not touched. *)
Theorem start_assignment_is_clamped (s : Store) (o : option rid)
        (pre : list tid) (t : tid) (post : list tid) (v : Z) (fuel : nat) :
  chain s o (pre ++ t :: post) ->
  es_fit s (pre ++ [t]) ->
  v <= int_max ->
  (length (pre ++ t :: post) < fuel)%nat ->
  exists es s',
    set_start fuel t v s = Done tt s' /\
    earliest_start fuel t s' = Done es s' /\
    start fuel t s' = Done (Z.max es v) s' /\
    static_eq s s' /\
    (forall u, In u post -> tasks s' u = tasks s u).
Proof.
  intros (Hnd & Hs & _) Hfit Hv Hf.
  destruct (seg_middle _ _ _ _ _ _ _ Hs) as (_ & _ & _ & Hp).
  destruct (set_start_spec pre t post v s o _ fuel Hnd Hp
              (prefix_fuel _ _ _ _ Hf) Hfit Hv)
    as (s' & E & (S' & O' & C' & D' & K' & V') & _).
  exists (_earliest_start (tasks s' t)), s'.
  split; [exact E |].
  split; [now apply earliest_start_clean |].
  split; [rewrite <- V'; now apply start_clean |].
  split; [exact S' |].
  intros u Hu. apply O'.
  destruct (NoDup_middle _ _ _ Hnd) as (_ & _ & Hpost & _). now apply Hpost.
Qed.

Lemma start_assignment_is_clamped_witness :
  exists es s',
    set_start 3 1%nat (-7) store_AB = Done tt s' /\
    earliest_start 3 1%nat s' = Done es s' /\
    start 3 1%nat s' = Done (Z.max es (-7)) s' /\
    static_eq store_AB s' /\
    (forall u, In u [] -> tasks s' u = tasks store_AB u).
Proof.
  apply (start_assignment_is_clamped store_AB (Some 0%nat) [0%nat] 1%nat [] (-7) 3).
  - split; [| split].
    + repeat constructor; simpl; intuition discriminate.
    + vm_compute. intuition reflexivity.
    + vm_compute. intuition reflexivity.
  - apply es_fit_check. vm_compute. reflexivity.
  - vm_compute. discriminate.
  - simpl. lia.
Defined.

(** X3.  [t.invalidate()] on a task of a well-linked chain returns; it marks
    [t] and every task behind it, leaves every other task as it is, and
    changes neither a link nor a cached start or earliest start. *)
Theorem invalidate_marks_suffix (s : Store) (o : option rid)
        (pre : list tid) (t : tid) (post : list tid) (fuel : nat) :
  chain s o (pre ++ t :: post) ->
  (length (pre ++ t :: post) < fuel)%nat ->
  exists s',
    invalidate fuel t s = Done tt s' /\
    (forall u, In u (t :: post) -> _dirty (tasks s' u) = true) /\
    (forall u, ~ In u (t :: post) -> tasks s' u = tasks s u) /\
    (forall u, _start (tasks s' u) = _start (tasks s u) /\
               _earliest_start (tasks s' u) = _earliest_start (tasks s u)) /\
    static_eq s s'.
Proof.
  intros (Hnd & Hs & _) Hf.
  apply seg_app in Hs. destruct Hs as (_ & Hs).
  destruct (invalidate_spec post t s o _ fuel Hs) as (s' & E & S' & D' & O' & A').
  { rewrite length_app in Hf. simpl in Hf. lia. }
  exists s'.
  split; [exact E |].
  split; [exact A' |].
  split; [exact O' |].
  split; [| exact S'].
  intros u. destruct (D' u) as [-> | ->]; split; reflexivity.
Qed.

Lemma invalidate_marks_suffix_witness :
  exists s',
    invalidate 3 0%nat store_AB = Done tt s' /\
    (forall u, In u [0%nat; 1%nat] -> _dirty (tasks s' u) = true) /\
    (forall u, ~ In u [0%nat; 1%nat] -> tasks s' u = tasks store_AB u) /\
    (forall u, _start (tasks s' u) = _start (tasks store_AB u) /\
               _earliest_start (tasks s' u) = _earliest_start (tasks store_AB u)) /\
    static_eq store_AB s'.
Proof.
  apply (invalidate_marks_suffix store_AB (Some 0%nat) [] 0%nat [1%nat] 3).
  - split; [| split].
    + repeat constructor; simpl; intuition discriminate.
    + vm_compute. intuition reflexivity.
    + vm_compute. intuition reflexivity.
  - simpl. lia.
Defined.


(** X4.  On a chain whose caches are coherent and whose refreshed earliest
    starts up to the task read are C [int]s, reading [earliest_start] of a
    task returns the sum of the durations of the tasks in front of it and of
    the margins between them and up to it, the margin of the first task left
    out; the caches are coherent afterwards, the tasks up to the one read are
    clean, and no start is lowered. *)
Theorem earliest_start_is_longest_path (s : Store) (o : option rid)
        (pre : list tid) (t : tid) (post : list tid) (fuel : nat) :
  chain s o (pre ++ t :: post) ->
  coherent s (pre ++ t :: post) ->
  es_fit s (pre ++ [t]) ->
  (length pre < fuel)%nat ->
  exists s',
    earliest_start fuel t s = Done (expected_earliest s None pre t) s' /\
    coherent s' (pre ++ t :: post) /\
    all_clean s' (pre ++ [t]) /\
    static_eq s s' /\
    (forall u, _start (tasks s u) <= _start (tasks s' u)).
Proof.
  intros (Hnd & Hseg & _) Hco Hfit Hf.
  destruct (seg_middle _ _ _ _ _ _ _ Hseg) as (_ & _ & _ & Hp).
  destruct (earliest_start_spec pre t post s o _ fuel Hnd Hp Hf Hfit)
    as (s' & E & R).
  pose proof R as ((S' & _) & _ & _ & _ & M').
  destruct (tidy_valid pre t post s o _ fuel s' Hnd Hp Hco
              (earliest_start_inv _ _ _ _ _ E)) as (A' & K').
  exists s'. split; [| split; [| split; [exact A' | split; [exact S' | exact M']]]].
  - rewrite E. f_equal.
    rewrite <- (expected_earliest_static s s' None pre t S').
    apply (earliest_ok_expected s' pre None None t); [reflexivity | exact K'].
  - now apply (read_coherent pre t post s s').
Qed.

Lemma earliest_start_is_longest_path_witness :
  exists s',
    earliest_start 3 1%nat store_AB
    = Done (expected_earliest store_AB None [0%nat] 1%nat) s' /\
    coherent s' [0%nat; 1%nat] /\
    all_clean s' [0%nat; 1%nat] /\
    static_eq store_AB s' /\
    (forall u, _start (tasks store_AB u) <= _start (tasks s' u)).
Proof.
  apply (earliest_start_is_longest_path store_AB (Some 0%nat) [0%nat] 1%nat [] 3).
  - split; [| split];
      [repeat constructor; simpl; intuition discriminate
      | vm_compute; intuition reflexivity
      | vm_compute; intuition reflexivity].
  - exists [], [0%nat; 1%nat]. split; [reflexivity |].
    split; [intros u [] | split; [exact I |]].
    intros u [<- | [<- | []]]; reflexivity.
  - apply es_fit_check. vm_compute. reflexivity.
  - simpl; lia.
Defined.

(** * Further properties of the sweeps *)

(** X6.  [schedule] on a resource whose tasks form a well-linked chain, in
    any state of the caches, raises [OverflowError] or returns the total
    lateness of the starts it leaves, which is not negative.  When it
    returns, every task of the resource is clean, starts at or after its
    cached earliest start, and does not start before its predecessor's start
    plus the predecessor's duration plus its own margin; the starts and the
    score are C [int]s, and the cached earliest start of a task that was
    clean is kept.  In both cases links and parameters are unchanged and
    tasks of other chains are untouched. *)
Theorem schedule_is_feasible (s : Store) (r : rid) (l : list tid) (fuel : nat) :
  chain s (Some r) l ->
  (length l < fuel)%nat ->
  exists s',
    static_eq s s' /\
    (forall u, ~ In u l -> tasks s' u = tasks s u) /\
    (schedule fuel r s = Raised OverflowError s' \/
     schedule fuel r s = Done (total_lateness s' l) s' /\
     0 <= total_lateness s' l /\
     fits_int (total_lateness s' l) = true /\
     feasible s' None l /\
     all_clean s' l /\
     (forall u, In u l ->
        _earliest_start (tasks s' u) <= _start (tasks s' u) /\
        fits_int (_start (tasks s' u)) = true) /\
     (forall u, _dirty (tasks s u) = false ->
                _earliest_start (tasks s' u) = _earliest_start (tasks s u))).
Proof.
  intros Hch Hf.
  destruct l as [|h l'] eqn:El.
  - destruct Hch as (_ & _ & Hh & Ht). simpl in Hh, Ht.
    exists s. rewrite (schedule_empty fuel r s Hh Ht).
    split; [apply static_eq_refl |]. split; [auto |]. right.
    split; [reflexivity |]. split; [simpl; lia |].
    split; [reflexivity |].
    split; [exact I |]. split; [intros u [] |]. split; [intros u [] | auto].
  - rewrite <- El in *.
    assert (Hne : l <> []) by (rewrite El; discriminate).
    pose proof (schedule_ends s r l fuel Hch Hne Hf) as H.
    apply ends_inv in H.
    destruct H as [(score & s' & E & P) | (e & s' & E & -> & S' & O')].
    2: { exists s'. auto. }
    pose proof (schedule_post_facts l s score s' P)
      as (S' & O' & K' & A' & -> & FV & FS & _).
    destruct P as (sb & (Sb & Ob & Cb & (Ab & Bb & Fb) & Pb)
                      & (Sf & Of & Cf & Ff & Vf & FVf & FSf)).
    exists s'. split; [exact S' | split; [exact O' |]]. right.
    split; [exact E |].
    split; [apply total_lateness_nonneg |].
    split; [exact FV |].
    split; [now apply (forward_ok_feasible sb) |].
    split; [exact A' |].
    split; [| exact K'].
    intros u Hu. split; [| now apply FS].
    rewrite (proj2 (Cf u)).
    pose proof (backward_ok_floor sb _ Bb u Hu).
    pose proof (forward_ok_raises sb s' _ None Ff u Hu). lia.
Qed.

Lemma schedule_is_feasible_witness :
  exists s',
    schedule 3 0%nat store_AB = Done (total_lateness s' [0%nat; 1%nat]) s' /\
    feasible s' None [0%nat; 1%nat] /\
    all_clean s' [0%nat; 1%nat].
Proof.
  destruct (schedule_is_feasible store_AB 0%nat [0%nat; 1%nat] 3)
    as (s' & _ & _ & [E | (E & _ & _ & F & A & _)]).
  - split; [| split];
      [repeat constructor; simpl; intuition discriminate
      | vm_compute; intuition reflexivity
      | vm_compute; intuition reflexivity].
  - simpl; lia.
  - apply (f_equal value) in E. vm_compute in E. discriminate E.
  - exists s'. auto.
Defined.

(** X7.  [schedule] on a resource whose chain has coherent caches, earliest
    starts and targets in the range of a C [int], and some admissible start
    times whose total lateness is in that range, returns the least total
    lateness that the order of the tasks allows: the starts it leaves are
    admissible, and no admissible start times have a smaller total lateness.
    Afterwards every task is clean, the cached earliest starts are valid, and
    every task starts at the later of its earliest start and the latest
    start that its target and its successor allow: the forward sweep has
    changed nothing. *)
Theorem schedule_is_optimal_for_order (s : Store) (r : rid) (l : list tid)
        (fuel : nat) :
  chain s (Some r) l ->
  coherent s l ->
  es_fit s l ->
  targets_fit s l ->
  (exists x, admissible s x None l /\ lateness_of s x l <= int_max) ->
  (length l < fuel)%nat ->
  exists s',
    schedule fuel r s = Done (total_lateness s' l) s' /\
    admissible s (fun u => _start (tasks s' u)) None l /\
    (forall x, admissible s x None l ->
               total_lateness s' l <= lateness_of s x l) /\
    all_clean s' l /\
    earliest_ok s' None l /\
    backward_ok s' l /\
    static_eq s s'.
Proof.
  intros Hch Hco Hes Htg Hx Hf.
  destruct l as [|h l'].
  - destruct Hch as (_ & _ & Hh & Ht). simpl in Hh, Ht.
    exists s. rewrite (schedule_empty fuel r s Hh Ht).
    split; [reflexivity |]. split; [exact I |].
    split; [intros x _; simpl; lia |].
    split; [intros u [] |]. split; [exact I |]. split; [exact I |].
    apply static_eq_refl.
  - destruct (schedule_coherent s r (h :: l') fuel Hch)
      as (s' & E & S' & O' & A' & K' & B' & F'); [discriminate | assumption.. |].
    exists s'. split; [exact E |].
    assert (S'' : static_eq s' s).
    { destruct S' as (R & T). split; [intros; now rewrite R |].
      intros u. destruct (T u) as (?&?&?&?&?&?). repeat split; congruence. }
    split.
    { apply (admissible_static s').
      - exact S''.
      - apply feasible_admissible; [exact F' |].
        intros _ t [= <-]. destruct K' as (K0 & _).
        pose proof (backward_ok_floor s' _ B' h (or_introl eq_refl)). lia. }
    split.
    { intros x Hxa. apply total_lateness_le. intros u Hu.
      pose proof S' as (_ & T). destruct (T u) as (_ & _ & _ & _ & Etg & _).
      split; [exact Etg |].
      pose proof (backward_ok_ceiling s' _ B' u Hu) as Hc.
      assert (Hfl : _earliest_start (tasks s' u) <= x u).
      { apply (admissible_floor s' x (h :: l') None K'); auto.
        - apply (admissible_static s); [exact S' | exact Hxa].
        - discriminate. }
      rewrite Etg in Hc. lia. }
    split; [exact A' |]. split; [exact K' |]. split; [exact B' | exact S'].
Qed.

Lemma schedule_is_optimal_for_order_witness :
  exists s',
    schedule 3 0%nat store_AB = Done (total_lateness s' [0%nat; 1%nat]) s' /\
    admissible store_AB (fun u => _start (tasks s' u)) None [0%nat; 1%nat] /\
    (forall x, admissible store_AB x None [0%nat; 1%nat] ->
               total_lateness s' [0%nat; 1%nat]
               <= lateness_of store_AB x [0%nat; 1%nat]) /\
    all_clean s' [0%nat; 1%nat] /\
    earliest_ok s' None [0%nat; 1%nat] /\
    backward_ok s' [0%nat; 1%nat] /\
    static_eq store_AB s'.
Proof.
  apply (schedule_is_optimal_for_order store_AB 0%nat [0%nat; 1%nat] 3).
  - split; [| split];
      [repeat constructor; simpl; intuition discriminate
      | vm_compute; intuition reflexivity
      | vm_compute; intuition reflexivity].
  - exists [], [0%nat; 1%nat]. split; [reflexivity |].
    split; [intros u [] | split; [exact I |]].
    intros u [<- | [<- | []]]; reflexivity.
  - apply es_fit_check. vm_compute. reflexivity.
  - apply targets_fit_check. vm_compute. reflexivity.
  - exists (fun u => match u with O => 0 | _ => 5 end).
    split; [vm_compute; intuition discriminate | vm_compute; discriminate].
  - simpl; lia.
Defined.

(** * Further properties of the link methods *)

(** X11.  [t.drop()] on a task of a well-linked chain marks [t] and every
    task behind it and then raises [RuntimeError] at [super()]: [t] is not
    detached.  The chain is as it was, no task in front of [t] or outside
    the chain is touched, and no cached start or earliest start is
    changed. *)
Theorem drop_invalidates_then_raises (s : Store) (o : option rid)
        (pre : list tid) (t : tid) (post : list tid) (fuel : nat) :
  chain s o (pre ++ t :: post) ->
  (length (pre ++ t :: post) < fuel)%nat ->
  exists s',
    drop fuel t s = Raised RuntimeError s' /\
    chain s' o (pre ++ t :: post) /\
    (forall u, In u (t :: post) -> _dirty (tasks s' u) = true) /\
    (forall u, ~ In u (t :: post) -> tasks s' u = tasks s u) /\
    (forall u, _start (tasks s' u) = _start (tasks s u) /\
               _earliest_start (tasks s' u) = _earliest_start (tasks s u)).
Proof.
  intros Hc Hf.
  pose proof Hc as (Hnd & Hs & _).
  apply seg_app in Hs. destruct Hs as (_ & Hs).
  destruct (invalidate_spec post t s o _ fuel Hs) as (s' & E & S' & D' & O' & A').
  { rewrite length_app in Hf. simpl in Hf. lia. }
  exists s'. rewrite drop_after_invalidate, E.
  split; [reflexivity |].
  split; [eapply chain_static; eauto |].
  split; [exact A' |].
  split; [exact O' |].
  intros u. destruct (D' u) as [-> | ->]; split; reflexivity.
Qed.

Lemma drop_invalidates_then_raises_witness :
  exists s',
    drop 3 0%nat store_AB = Raised RuntimeError s' /\
    chain s' (Some 0%nat) [0%nat; 1%nat] /\
    (forall u, In u [0%nat; 1%nat] -> _dirty (tasks s' u) = true) /\
    (forall u, ~ In u [0%nat; 1%nat] -> tasks s' u = tasks store_AB u) /\
    (forall u, _start (tasks s' u) = _start (tasks store_AB u) /\
               _earliest_start (tasks s' u) = _earliest_start (tasks store_AB u)).
Proof.
  apply (drop_invalidates_then_raises store_AB (Some 0%nat) [] 0%nat [1%nat] 3).
  - split; [| split].
    + repeat constructor; simpl; intuition discriminate.
    + vm_compute. intuition reflexivity.
    + vm_compute. intuition reflexivity.
  - simpl. lia.
Defined.
(** * Further properties of the resource *)

(** X15.  [add_tail] of a task that is not yet on the resource's chain
    makes it the last task: [iter_tasks] then yields the old tasks in the
    old order followed by the new one, and the walk from the tail yields the
    reverse.  No parameter and no cache of any task is touched, the dirty
    flags included; if the new task is dirty, coherent caches stay
    coherent. *)
Theorem add_tail_appends (s : Store) (r : rid) (l : list tid) (task : tid)
        (fuel : nat) :
  chain s (Some r) l ->
  ~ In task l ->
  (length l + 1 < fuel)%nat ->
  let s' := add_tail r task s in
  chain s' (Some r) (l ++ [task]) /\
  iter_tasks fuel r s' = Done (l ++ [task]) s' /\
  iter_tasks_back fuel r s' = Done (task :: rev l) s' /\
  (forall u, same_data (tasks s' u) (tasks s u)) /\
  (forall u, u <> task -> ~ In u l -> tasks s' u = tasks s u) /\
  (coherent s l -> _dirty (tasks s task) = true -> coherent s' (l ++ [task])).
Proof.
  intros Hc Hn Hf s'.
  destruct (add_tail_chain s r l task Hc Hn) as (Hc' & O' & _).
  fold s' in Hc', O'.
  pose proof (add_tail_data s r task) as P'. fold s' in P'.
  pose proof Hc' as (_ & Hs & Hh & Ht).
  assert (Hlen : (length (l ++ [task]) < fuel)%nat)
    by (rewrite length_app; simpl; lia).
  split; [exact Hc' |].
  split.
  { unfold iter_tasks, bind, get_resource. rewrite Hh.
    now apply (iter_from_seg s' (Some r) None). }
  split.
  { unfold iter_tasks_back, bind, get_resource. rewrite Ht.
    rewrite (iter_back_from_seg s' (Some r) _ None fuel Hs Hlen).
    now rewrite rev_app_distr. }
  split; [exact P' |]. split; [exact O' |].
  intros Hco Hd.
  rewrite <- (app_nil_r l) in Hco.
  apply (coherent_cut s s' l [] [task] Hco).
  - intros u _. destruct (P' u) as (E1 & _ & E3 & E4 & E5 & _). auto.
  - intros u [<- | []]. destruct (P' task) as (_ & _ & _ & E4 & _). congruence.
Qed.

Lemma add_tail_appends_witness :
  let s' := add_tail 0%nat 2%nat store_AB in
  chain s' (Some 0%nat) [0%nat; 1%nat; 2%nat] /\
  iter_tasks 4 0%nat s' = Done [0%nat; 1%nat; 2%nat] s' /\
  iter_tasks_back 4 0%nat s' = Done [2%nat; 1%nat; 0%nat] s' /\
  (forall u, same_data (tasks s' u) (tasks store_AB u)) /\
  (forall u, u <> 2%nat -> ~ In u [0%nat; 1%nat] -> tasks s' u = tasks store_AB u) /\
  (coherent store_AB [0%nat; 1%nat] -> _dirty (tasks store_AB 2%nat) = true ->
   coherent s' [0%nat; 1%nat; 2%nat]).
Proof.
  apply (add_tail_appends store_AB 0%nat [0%nat; 1%nat] 2%nat 4).
  - split; [| split];
      [repeat constructor; simpl; intuition discriminate
      | vm_compute; intuition reflexivity
      | vm_compute; intuition reflexivity].
  - simpl. intros [H | [H | []]]; discriminate H.
  - simpl; lia.
Defined.

(** X16.  [add_head] of a task that is not yet on the resource's chain
    makes it the first task: [iter_tasks] then yields the new task followed
    by the old tasks in the old order, and the walk from the tail yields the
    reverse.  No parameter and no cache of any task is touched: the former
    head keeps its dirty flag and its cached earliest start. *)
Theorem add_head_prepends (s : Store) (r : rid) (l : list tid) (task : tid)
        (fuel : nat) :
  chain s (Some r) l ->
  ~ In task l ->
  (length l + 1 < fuel)%nat ->
  let s' := add_head r task s in
  chain s' (Some r) (task :: l) /\
  iter_tasks fuel r s' = Done (task :: l) s' /\
  iter_tasks_back fuel r s' = Done (rev l ++ [task]) s' /\
  (forall u, same_data (tasks s' u) (tasks s u)) /\
  (forall u, u <> task -> ~ In u l -> tasks s' u = tasks s u).
Proof.
  intros Hc Hn Hf s'.
  destruct (add_head_chain s r l task Hc Hn) as (Hc' & O' & _).
  fold s' in Hc', O'.
  pose proof (add_head_data s r task) as P'. fold s' in P'.
  pose proof Hc' as (_ & Hs & Hh & Ht).
  assert (Hlen : (length (task :: l) < fuel)%nat) by (simpl; lia).
  split; [exact Hc' |].
  split.
  { unfold iter_tasks, bind, get_resource. rewrite Hh.
    now apply (iter_from_seg s' (Some r) None). }
  split.
  { unfold iter_tasks_back, bind, get_resource. rewrite Ht.
    now rewrite (iter_back_from_seg s' (Some r) _ None fuel Hs Hlen). }
  split; [exact P' | exact O'].
Qed.

Lemma add_head_prepends_witness :
  let s' := add_head 0%nat 2%nat store_AB in
  chain s' (Some 0%nat) [2%nat; 0%nat; 1%nat] /\
  iter_tasks 4 0%nat s' = Done [2%nat; 0%nat; 1%nat] s' /\
  iter_tasks_back 4 0%nat s' = Done [1%nat; 0%nat; 2%nat] s' /\
  (forall u, same_data (tasks s' u) (tasks store_AB u)) /\
  (forall u, u <> 2%nat -> ~ In u [0%nat; 1%nat] -> tasks s' u = tasks store_AB u).
Proof.
  apply (add_head_prepends store_AB 0%nat [0%nat; 1%nat] 2%nat 4).
  - split; [| split];
      [repeat constructor; simpl; intuition discriminate
      | vm_compute; intuition reflexivity
      | vm_compute; intuition reflexivity].
  - simpl. intros [H | [H | []]]; discriminate H.
  - simpl; lia.
Defined.


(** * Further properties of the local search *)

(** X17.  On a task [t2] with predecessor [t1] in a well-linked chain, the
    dry run of the exchange comes to an end, having at most recalculated
    dirty tasks up to [t2]: it raises [OverflowError] in a conversion, or it
    returns the gain computed from the stored fields of the two tasks, which
    are then clean.  The call with [execute=True] has the same outcome and
    leaves the same store, except that it raises [RuntimeError] where the
    gain is negative: the exchange is not made. *)
Theorem improvement_move_in_dry_run (s : Store) (o : option rid)
        (pre : list tid) (t1 t2 : tid) (post : list tid) (fuel : nat) :
  chain s o (pre ++ t1 :: t2 :: post) ->
  (length (pre ++ t1 :: t2 :: post) < fuel)%nat ->
  exists s',
    tidied (pre ++ [t1; t2]) s s' /\
    (improvement_move_in fuel t2 false s = Raised OverflowError s' /\
     improvement_move_in fuel t2 true s = Raised OverflowError s' \/
     _dirty (tasks s' t1) = false /\
     _dirty (tasks s' t2) = false /\
     improvement_move_in fuel t2 false s = Done (exchange_gain s' t1 t2) s' /\
     improvement_move_in fuel t2 true s =
       if exchange_gain s' t1 t2 <? 0 then Raised RuntimeError s'
       else Done (exchange_gain s' t1 t2) s').
Proof.
  intros (Hnd & Hseg & _) Hf.
  assert (Hl : pre ++ t1 :: t2 :: post = (pre ++ [t1; t2]) ++ post)
    by (rewrite <- app_assoc; reflexivity).
  rewrite Hl in Hseg. apply seg_app in Hseg. destruct Hseg as (Hseg & _).
  rewrite length_app in Hf. simpl in Hf.
  pose proof (improvement_dry_ends pre t1 t2 post s o _ fuel Hnd Hseg ltac:(lia))
    as H.
  apply ends_inv in H. rewrite improvement_move_in_execute.
  destruct H as [(g & s' & E & T & D1 & D2 & ->) | (e & s' & E & -> & T)];
    exists s'; rewrite E; (split; [exact T |]); [right | left]; auto.
Qed.

Lemma improvement_move_in_dry_run_witness :
  exists s',
    tidied [0%nat; 1%nat] store_AB s' /\
    (improvement_move_in 3 1%nat false store_AB = Raised OverflowError s' /\
     improvement_move_in 3 1%nat true store_AB = Raised OverflowError s' \/
     _dirty (tasks s' 0%nat) = false /\
     _dirty (tasks s' 1%nat) = false /\
     improvement_move_in 3 1%nat false store_AB
       = Done (exchange_gain s' 0%nat 1%nat) s' /\
     improvement_move_in 3 1%nat true store_AB =
       if exchange_gain s' 0%nat 1%nat <? 0 then Raised RuntimeError s'
       else Done (exchange_gain s' 0%nat 1%nat) s').
Proof.
  apply (improvement_move_in_dry_run store_AB (Some 0%nat) [] 0%nat 1%nat [] 3).
  - split; [| split].
    + repeat constructor; simpl; intuition discriminate.
    + vm_compute. intuition reflexivity.
    + vm_compute. intuition reflexivity.
  - simpl. lia.
Defined.

(** X18.  Two inputs on which an exchange has a negative computed gain: A
    (duration 5, target 0) followed by B (duration 1, target 3), and A with
    a margin of 10 followed by B (duration 1, target 0).  [schedule()]
    returns 2, respectively 5; [improve()] then raises [RuntimeError], and
    afterwards the order is still A, B and the total lateness is still 2,
    respectively 5; a further [schedule()] returns the same score. *)
Theorem improve_examples_keep_lateness :
  value ((score <- schedule 3 0%nat ;;
          r <- catch (improve 3 0%nat) ;;
          order <- iter_tasks 3 0%nat ;;
          late <- inspect (fun s => total_lateness s order) ;;
          again <- schedule 3 0%nat ;;
          ret (score, r, order, late, again)) store_AB3)
  = Some (2, inr RuntimeError, [0%nat; 1%nat], 2, 2) /\
  value ((score <- schedule 3 0%nat ;;
          r <- catch (improve 3 0%nat) ;;
          order <- iter_tasks 3 0%nat ;;
          late <- inspect (fun s => total_lateness s order) ;;
          again <- schedule 3 0%nat ;;
          ret (score, r, order, late, again)) store_AmB)
  = Some (5, inr RuntimeError, [0%nat; 1%nat], 5, 5).
Proof. split; vm_compute; reflexivity. Qed.
